(** * The content-strategy endpoint of [api/index.js]

    A shallow embedding of the serverless handler and of its five API
    clients ([searchYouTubeVideos], [getChannelVideos],
    [getRedditAccessToken], [getSubredditPosts], [callGeminiAPI]).

    - JavaScript strings are sequences of UTF-16 code units, JSON values an
      inductive type, a thrown exception a [Throw] completion.
    - The conversion of a value to a string, which template literals,
      [join] and [encodeURIComponent] apply, throws a [TypeError] on an
      object that has a member [toString] of its own; the places where the
      source converts a value are kept, in their order, the messages given
      to [console.warn] and [console.error] included.
    - The module-level [redditToken], the clock read by [Date.now()] and the
      list of [fetch] calls issued so far form the [World], threaded
      explicitly.
    - A promise is either settled or waits on the [fetch] calls that are in
      flight; the environment completes them one at a time, in any order,
      at any time and with any reply, which gives every interleaving of
      [Promise.all].  One invocation of the handler is followed at a time.
    - [console.log], [console.warn] and [console.error] print; apart from
      the conversions in their arguments they have no effect on any value
      of the program and are left out. *)

From Stdlib Require Import List ZArith NArith Lia Bool String Ascii.
From Stdlib Require Import DecimalString.
Import ListNotations.

#[local] Set Warnings "-register-all".
#[local] Open Scope list_scope.

(** ** Strings *)

(** A JavaScript string: its UTF-16 code units. *)
Definition jsstring := list N.

(** The string written as an ASCII literal. *)
Definition lit (s : string) : jsstring :=
  map N_of_ascii (list_ascii_of_string s).
Arguments lit s%_string.

(** A literal in which the backquote stands for the double quote (code
    unit 34); used for the text of the master prompt. *)
Definition tmpl (s : string) : jsstring :=
  map (fun c => if N.eqb c 96 then 34%N else c) (lit s).
Arguments tmpl s%_string.

Fixpoint jsstring_eqb (s t : jsstring) : bool :=
  match s, t with
  | [], [] => true
  | c :: s', d :: t' => N.eqb c d && jsstring_eqb s' t'
  | _, _ => false
  end.

Definition is_empty {A} (l : list A) : bool :=
  match l with [] => true | _ => false end.

(** [parts.join(sep)] on an array of strings. *)
Fixpoint join (sep : jsstring) (parts : list jsstring) : jsstring :=
  match parts with
  | [] => []
  | [s] => s
  | s :: rest => s ++ sep ++ join sep rest
  end.

(** [a || b] on strings: the empty string is the only falsy one. *)
Definition or_else (a b : jsstring) : jsstring :=
  if is_empty a then b else a.

(** *** [encodeURIComponent] *)

Definition is_high_surrogate (c : N) : bool := (55296 <=? c)%N && (c <=? 56319)%N.
Definition is_low_surrogate (c : N) : bool := (56320 <=? c)%N && (c <=? 57343)%N.

(** The code points of a string; [None] when a surrogate is unpaired. *)
Fixpoint code_points (s : jsstring) : option (list N) :=
  match s with
  | [] => Some []
  | c :: rest =>
      if is_high_surrogate c then
        match rest with
        | d :: rest' =>
            if is_low_surrogate d then
              option_map (cons (65536 + (c - 55296) * 1024 + (d - 56320))%N)
                         (code_points rest')
            else None
        | [] => None
        end
      else if is_low_surrogate c then None
      else option_map (cons c) (code_points rest)
  end.

Definition utf8 (cp : N) : list N :=
  if (cp <? 128)%N then [cp]
  else if (cp <? 2048)%N then [192 + cp / 64; 128 + cp mod 64]%N
  else if (cp <? 65536)%N then
    [224 + cp / 4096; 128 + (cp / 64) mod 64; 128 + cp mod 64]%N
  else [240 + cp / 262144; 128 + (cp / 4096) mod 64;
        128 + (cp / 64) mod 64; 128 + cp mod 64]%N.

Definition hex_digit (d : N) : N :=
  if (d <? 10)%N then (48 + d)%N else (55 + d)%N.

Definition percent (byte : N) : jsstring :=
  [37; hex_digit (byte / 16); hex_digit (byte mod 16)]%N.

(** The characters [encodeURIComponent] leaves alone:
    [A-Z a-z 0-9 - _ . ! ~ * ' ( )]. *)
Definition uri_unreserved (cp : N) : bool :=
  ((65 <=? cp) && (cp <=? 90) || (97 <=? cp) && (cp <=? 122)
   || (48 <=? cp) && (cp <=? 57)
   || existsb (N.eqb cp) [45; 95; 46; 33; 126; 42; 39; 40; 41])%N.

Definition encode_code_point (cp : N) : jsstring :=
  if uri_unreserved cp then [cp] else flat_map percent (utf8 cp).

(** [None] is the [URIError] of a string with an unpaired surrogate. *)
Definition encodeURIComponent (s : jsstring) : option jsstring :=
  option_map (flat_map encode_code_point) (code_points s).

(** ** Exceptions *)

Inductive JsError : Type :=
| Error (msg : jsstring)
| TypeError (msg : jsstring)
| URIError (msg : jsstring)
| SyntaxError (msg : jsstring).

Definition message (e : JsError) : jsstring :=
  match e with
  | Error m | TypeError m | URIError m | SyntaxError m => m
  end.

(** The texts of the engine's own exceptions (V8's wording).  A failed
    member access, a failed [fetch] and a body that does not parse are
    always caught inside the client that raised them; a failed conversion
    to a string and a malformed URI can reach the answer of the handler. *)
Definition not_an_object : JsError :=
  TypeError (lit "Cannot read properties of undefined").
Definition not_a_function : JsError := TypeError (lit "is not a function").
Definition cannot_convert : JsError :=
  TypeError (lit "Cannot convert object to primitive value").
Definition uri_malformed : JsError := URIError (lit "URI malformed").
Definition fetch_failed : JsError := TypeError (lit "fetch failed").
Definition bad_json : JsError := SyntaxError (lit "Unexpected token in JSON").

(** How an evaluation completes: normally with a value, or by throwing. *)
Inductive Completion (A : Type) : Type :=
| Normal (a : A)
| Throw (e : JsError).
Arguments Normal {A} a.
Arguments Throw {A} e.

Definition cbind {A B} (c : Completion A) (f : A -> Completion B)
  : Completion B :=
  match c with
  | Normal a => f a
  | Throw e => Throw e
  end.

Notation "'let!' x ':=' c 'in' k" := (cbind c (fun x => k))
  (at level 10, x name, c at level 100, k at level 200).

(** [l.map(f)] for an [f] that may throw: the elements in order, up to the
    first that throws. *)
Fixpoint cmap {A B} (f : A -> Completion B) (l : list A)
  : Completion (list B) :=
  match l with
  | [] => Normal []
  | x :: l' => let! y := f x in let! ys := cmap f l' in Normal (y :: ys)
  end.

(** ** Values *)

(** A number.  [JSON.parse] gives a double; the program does two things
    with a number, it tests it for zero ([!v], [v === 0]) and it converts it
    to a string, so a number is kept as these two observations: whether it
    is [0] or [-0], and the string that [Number::toString] gives for it
    ([1e+21] for the number read from [1e21], [0.5] for a half). *)
Record Number : Type := { is_zero_number : bool; shown : jsstring }.

(** The digits of a natural number: what [Number::toString] gives for an
    integer below [10^21], as the lengths, indices and result limits of
    this program are. *)
Definition decimal (n : Z) : jsstring :=
  lit (NilZero.string_of_int (Z.to_int n)).

(** The number that is the length of an array or of a string. *)
Definition number_of_nat (n : nat) : Number :=
  {| is_zero_number := Nat.eqb n 0; shown := decimal (Z.of_nat n) |}.

(** What [JSON.parse] produces, and [undefined].  An object lists its
    members in source order. *)
Inductive JsValue : Type :=
| JUndefined
| JNull
| JBool (b : bool)
| JNum (n : Number)
| JStr (s : jsstring)
| JArr (elems : list JsValue)
| JObj (members : list (jsstring * JsValue)).

Definition truthy (v : JsValue) : bool :=
  match v with
  | JUndefined | JNull => false
  | JBool b => b
  | JNum n => negb (is_zero_number n)
  | JStr s => negb (is_empty s)
  | JArr _ | JObj _ => true
  end.

Definition Array_isArray (v : JsValue) : bool :=
  match v with JArr _ => true | _ => false end.

(** Whether a parsed object has a member [k] of its own. *)
Definition has_own (k : jsstring) (ms : list (jsstring * JsValue)) : bool :=
  existsb (fun m => jsstring_eqb (fst m) k) ms.

(** [String(v)], as a template literal, [join] and [encodeURIComponent]
    apply it.  An array is converted by [Array.prototype.join], element by
    element.  An object is converted by [Object.prototype.toString], unless
    it has a member [toString] of its own: a parsed member is never a
    function, the engine then turns to [valueOf], which gives no primitive
    either (a member of its own is no function, the inherited one returns
    the object), and throws a [TypeError]. *)
Fixpoint ToString (v : JsValue) : Completion jsstring :=
  match v with
  | JUndefined => Normal (lit "undefined")
  | JNull => Normal (lit "null")
  | JBool true => Normal (lit "true")
  | JBool false => Normal (lit "false")
  | JNum n => Normal (shown n)
  | JStr s => Normal s
  | JArr elems =>
      let! parts :=
        (fix each (l : list JsValue) : Completion (list jsstring) :=
           match l with
           | [] => Normal []
           | x :: l' =>
               let! s := match x with
                         | JUndefined | JNull => Normal []
                         | _ => ToString x
                         end in
               let! rest := each l' in
               Normal (s :: rest)
           end) elems in
      Normal (join (lit ",") parts)
  | JObj ms =>
      if has_own (lit "toString") ms then Throw cannot_convert
      else Normal (lit "[object Object]")
  end.

(** The string an array element contributes to [Array.prototype.join]:
    [undefined] and [null] contribute the empty string. *)
Definition join_element (v : JsValue) : Completion jsstring :=
  match v with
  | JUndefined | JNull => Normal []
  | _ => ToString v
  end.

(** [elems.join(sep)]. *)
Definition Array_join (sep : jsstring) (elems : list JsValue)
  : Completion jsstring :=
  let! parts := cmap join_element elems in
  Normal (join sep parts).

(** *** Member access *)

(** The member of a parsed object; [JSON.parse] keeps the last of
    duplicate keys. *)
Definition member (k : jsstring) (ms : list (jsstring * JsValue)) : JsValue :=
  fold_left (fun found m => if jsstring_eqb (fst m) k then snd m else found)
            ms JUndefined.

(** [v.k], for the member names this program reads ([audience], [goal],
    [competitorYouTubeChannels], [relevantSubreddits], [items], [length],
    [id], [channelId], [snippet], [title], [data], [children],
    [access_token], [candidates], [content], [parts], [text]): none of them
    is inherited from a prototype except [length] of arrays and strings. *)
Definition get (v : JsValue) (k : string) : Completion JsValue :=
  match v with
  | JUndefined | JNull => Throw not_an_object
  | JObj ms => Normal (member (lit k) ms)
  | JArr l =>
      Normal (if String.eqb k "length"
              then JNum (number_of_nat (List.length l))
              else JUndefined)
  | JStr s =>
      Normal (if String.eqb k "length"
              then JNum (number_of_nat (List.length s))
              else JUndefined)
  | JBool _ | JNum _ => Normal JUndefined
  end.
Arguments get v k%_string.

(** [v?.k]. *)
Definition get_optional (v : JsValue) (k : string) : Completion JsValue :=
  match v with
  | JUndefined | JNull => Normal JUndefined
  | _ => get v k
  end.
Arguments get_optional v k%_string.

(** [v[i]] for a literal index. *)
Definition get_index (v : JsValue) (i : nat) : Completion JsValue :=
  match v with
  | JUndefined | JNull => Throw not_an_object
  | JObj ms => Normal (member (decimal (Z.of_nat i)) ms)
  | JArr l => Normal (nth i l JUndefined)
  | JStr s =>
      Normal (match nth_error s i with
              | Some c => JStr [c]
              | None => JUndefined
              end)
  | JBool _ | JNum _ => Normal JUndefined
  end.

(** ** Records of the data model *)

Record TitleRecord : Type := { title : JsValue }.
Record ChannelResult : Type :=
  { channel : JsValue; videos : list TitleRecord }.
Record CommunityResult : Type :=
  { subreddit : JsValue; posts : list TitleRecord }.

(** [arr?.map(item => ({ title: item.<via>.title })) || []]: [arr] absent
    gives the empty list, an array is mapped (an empty result is still an
    array, hence truthy), anything else has no [map] to call. *)
Definition title_via (via : string) (item : JsValue)
  : Completion TitleRecord :=
  let! inner := get item via in
  let! t := get inner "title" in
  Normal {| title := t |}.
Arguments title_via via%_string item.

Definition titles_or_empty (via : string) (arr : JsValue)
  : Completion (list TitleRecord) :=
  match arr with
  | JUndefined | JNull => Normal []
  | JArr items => cmap (title_via via) items
  | _ => Throw not_a_function
  end.
Arguments titles_or_empty via%_string arr.

(** ** The world: token cache, clock and network *)

(** [let redditToken = { value: null, expires: 0 }]. *)
Record CachedToken : Type := { value : JsValue; expires : Z }.

Definition no_token : CachedToken := {| value := JNull; expires := 0 |}.

(** The [fetch] calls of the program, by endpoint; [url_of] gives the URL
    each one is sent to. *)
Inductive Call : Type :=
| YouTubeSearch (q : jsstring) (maxResults : N) (key : jsstring)
| YouTubeChannelSearch (q : jsstring) (key : jsstring)
| YouTubeChannelVideos (channelId : jsstring) (maxResults : N) (key : jsstring)
| RedditAccessToken (clientId clientSecret : jsstring)
| RedditHot (sub : jsstring) (limit : N) (accessToken : jsstring)
| GeminiGenerate (prompt : jsstring) (key : jsstring).

Definition url_of (c : Call) : jsstring :=
  match c with
  | YouTubeSearch q n key =>
      lit "https://www.googleapis.com/youtube/v3/search?part=snippet&q=" ++ q
      ++ lit "&type=video&order=relevance&maxResults=" ++ decimal (Z.of_N n)
      ++ lit "&key=" ++ key
  | YouTubeChannelSearch q key =>
      lit "https://www.googleapis.com/youtube/v3/search?part=snippet&q=" ++ q
      ++ lit "&type=channel&maxResults=1&key=" ++ key
  | YouTubeChannelVideos id n key =>
      lit "https://www.googleapis.com/youtube/v3/search?part=snippet&channelId="
      ++ id ++ lit "&type=video&order=date&maxResults=" ++ decimal (Z.of_N n)
      ++ lit "&key=" ++ key
  | RedditAccessToken _ _ => lit "https://www.reddit.com/api/v1/access_token"
  | RedditHot sub n _ =>
      lit "https://oauth.reddit.com/r/" ++ sub ++ lit "/hot?limit="
      ++ decimal (Z.of_N n)
  | GeminiGenerate _ key =>
      lit "https://generativelanguage.googleapis.com/v1beta/models/gemini-pro:generateContent?key="
      ++ key
  end.

(** What a [fetch] comes back with: a rejection, or a response with its
    [ok] flag, its [statusText] and the result of [res.json()] ([None] when
    the body does not parse). *)
Inductive Reply : Type :=
| NetworkFailure
| HttpReply (ok : bool) (statusText : jsstring) (body : option JsValue).

Record World : Type :=
  { redditToken : CachedToken;   (* the module-level cache *)
    clock : Z;                   (* what Date.now() returns *)
    calls : list Call }.         (* the fetch calls issued, oldest first *)

Definition set_clock (t : Z) (w : World) : World :=
  {| redditToken := redditToken w; clock := t; calls := calls w |}.
Definition set_redditToken (c : CachedToken) (w : World) : World :=
  {| redditToken := c; clock := clock w; calls := calls w |}.
Definition issue (c : Call) (w : World) : World :=
  {| redditToken := redditToken w; clock := clock w; calls := calls w ++ [c] |}.

(** ** Promises *)

(** A promise is settled, or pending on the calls [reqs] in flight:
    [resume i r w] is what becomes of it, and of the world, when the [i]-th
    of them comes back with [r]. *)
Inductive Promise (A : Type) : Type :=
| Settled (c : Completion A)
| Pending (reqs : list Call)
          (resume : nat -> Reply -> World -> Promise A * World).
Arguments Settled {A} c.
Arguments Pending {A} reqs resume.

(** The call of an async function: it runs up to its first suspension and
    hands back its promise. *)
Definition Async (A : Type) : Type := World -> Promise A * World.

Definition ret {A} (a : A) : Async A := fun w => (Settled (Normal a), w).
Definition throw {A} (e : JsError) : Async A := fun w => (Settled (Throw e), w).
Definition complete {A} (c : Completion A) : Async A := fun w => (Settled c, w).

(** [p.then(f)], and the rest of an async body after [await p].  The
    reaction to a promise that is already settled runs here at once; the
    engine runs it as a microtask, before any call in flight can complete,
    and in this program in the order in which the promises are written. *)
Fixpoint then_ {A B} (p : Promise A) (f : A -> Async B) : Async B :=
  fun w =>
    match p with
    | Settled (Normal a) => f a w
    | Settled (Throw e) => (Settled (Throw e), w)
    | Pending reqs resume =>
        (Pending reqs
           (fun i r w' => let (p', w'') := resume i r w' in then_ p' f w''),
         w)
    end.

Definition bind {A B} (a : Async A) (f : A -> Async B) : Async B :=
  fun w => let (p, w') := a w in then_ p f w'.

Notation "'await' x '<-' a ';;' k" := (bind a (fun x => k))
  (at level 10, x name, a at level 100, k at level 200).

(** [try { ... } catch (error) { ... }] around an async body. *)
Fixpoint catch_ {A} (p : Promise A) (h : JsError -> Async A) : Async A :=
  fun w =>
    match p with
    | Settled (Normal a) => (Settled (Normal a), w)
    | Settled (Throw e) => h e w
    | Pending reqs resume =>
        (Pending reqs
           (fun i r w' => let (p', w'') := resume i r w' in catch_ p' h w''),
         w)
    end.

Definition try_catch {A} (body : Async A) (h : JsError -> Async A) : Async A :=
  fun w => let (p, w') := body w in catch_ p h w'.

(** Two promises awaited together: rejected as soon as one of them is,
    fulfilled when both are.  The calls in flight are those of the left
    promise followed by those of the right one.  Once the pair is rejected
    the calls of the other promise that are still in flight are followed no
    further: nothing they do can reach the response (a credential exchange
    among them would store its token when it completes, after the
    invocation that is followed here has answered). *)
Fixpoint par {A B} (p : Promise A) : Promise B -> Promise (A * B) :=
  fix par_right (q : Promise B) : Promise (A * B) :=
    match p, q with
    | Settled (Throw e), _ => Settled (Throw e)
    | _, Settled (Throw e) => Settled (Throw e)
    | Settled (Normal a), Settled (Normal b) => Settled (Normal (a, b))
    | Settled (Normal a), Pending rq kq =>
        Pending rq (fun i r w => let (q', w') := kq i r w in (par_right q', w'))
    | Pending rp kp, Settled (Normal b) =>
        Pending rp (fun i r w => let (p', w') := kp i r w in (par p' q, w'))
    | Pending rp kp, Pending rq kq =>
        Pending (rp ++ rq)
          (fun i r w =>
             if (i <? List.length rp)%nat
             then let (p', w') := kp i r w in (par p' q, w')
             else let (q', w') := kq (i - List.length rp)%nat r w in
                  (par_right q', w'))
    end.

Fixpoint pmap {A B} (f : A -> B) (p : Promise A) : Promise B :=
  match p with
  | Settled (Normal a) => Settled (Normal (f a))
  | Settled (Throw e) => Settled (Throw e)
  | Pending reqs resume =>
      Pending reqs (fun i r w => let (p', w') := resume i r w in (pmap f p', w'))
  end.

(** [Promise.all(ps)]: the values in the order of [ps]. *)
Fixpoint Promise_all {A} (ps : list (Promise A)) : Promise (list A) :=
  match ps with
  | [] => Settled (Normal [])
  | p :: ps' => pmap (fun al => fst al :: snd al) (par p (Promise_all ps'))
  end.

(** [xs.map(x => f(x))] for an async [f]: the calls are made one after the
    other, each up to its first suspension. *)
Fixpoint start_each {A B} (f : A -> Async B) (xs : list A)
  : World -> list (Promise B) * World :=
  fun w =>
    match xs with
    | [] => ([], w)
    | x :: xs' =>
        let (p, w1) := f x w in
        let (ps, w2) := start_each f xs' w1 in
        (p :: ps, w2)
    end.

(** [Promise.all(xs.map(x => f(x)))]. *)
Definition all_of {A B} (f : A -> Async B) (xs : list A) : Async (list B) :=
  fun w => let (ps, w') := start_each f xs w in (Promise_all ps, w').

(** [Promise.all([a, b, c])] for three calls written in that order. *)
Definition all3 {A B C} (a : Async A) (b : Async B) (c : Async C)
  : Async (A * (B * C)) :=
  fun w =>
    let (pa, w1) := a w in
    let (pb, w2) := b w1 in
    let (pc, w3) := c w2 in
    (par pa (par pb pc), w3).

(** *** Primitives *)

Record Response : Type :=
  { ok : bool; statusText : jsstring; parsed : option JsValue }.

(** The completion of [await fetch(...)] when the call comes back with [r]. *)
Definition fetched (r : Reply) : Completion Response :=
  match r with
  | NetworkFailure => Throw fetch_failed
  | HttpReply o st b => Normal {| ok := o; statusText := st; parsed := b |}
  end.

(** [fetch(url, options)]: the call is issued and the promise waits for it. *)
Definition fetch (c : Call) : Async Response :=
  fun w => (Pending [c] (fun _ r w' => (Settled (fetched r), w')), issue c w).

(** [res.json()]; reading the body is part of the completion of the call. *)
Definition parsed_json (res : Response) : Completion JsValue :=
  match parsed res with
  | Some v => Normal v
  | None => Throw bad_json
  end.

Definition json (res : Response) : Async JsValue := complete (parsed_json res).

Definition Date_now : Async Z := fun w => (Settled (Normal (clock w)), w).
Definition read_redditToken : Async CachedToken :=
  fun w => (Settled (Normal (redditToken w)), w).
Definition write_redditToken (c : CachedToken) : Async unit :=
  fun w => (Settled (Normal tt), set_redditToken c w).

(** ** Running a promise *)

(** The environment completes the call [which] of those in flight with
    [reply], at time [at_time]. *)
Record Event : Type := { which : nat; reply : Reply; at_time : Z }.

Definition step {A} (pw : Promise A * World) (e : Event) : Promise A * World :=
  match fst pw with
  | Settled _ => pw
  | Pending reqs resume =>
      if (which e <? List.length reqs)%nat
      then resume (which e) (reply e) (set_clock (at_time e) (snd pw))
      else pw
  end.

Definition run {A} (a : Async A) (w : World) (events : list Event)
  : Promise A * World :=
  fold_left step events (a w).

(** ** The API clients *)

(** [searchYouTubeVideos(query, apiKey, maxResults)], called with a string.
    The URL, and with it [encodeURIComponent(query)], is computed before
    the [try] block. *)
Definition searchYouTubeVideos (query apiKey : jsstring) (maxResults : N)
  : Async (list TitleRecord) :=
  match encodeURIComponent query with
  | None => throw uri_malformed
  | Some q =>
      try_catch
        (await response <- fetch (YouTubeSearch q maxResults apiKey) ;;
         if negb (ok response)
         then throw (Error (lit "YouTube API Error: " ++ statusText response))
         else
           await data <- json response ;;
           complete (let! items := get data "items" in
                     titles_or_empty "snippet" items))
        (fun error => ret [])
  end.

(** [v === 0]. *)
Definition is_zero (v : JsValue) : bool :=
  match v with JNum n => is_zero_number n | _ => false end.

(** [getChannelVideos(channelName, apiKey, maxResults)]; everything is
    inside the [try] block.  The name is converted to a string by
    [encodeURIComponent] (line 36), and again by the templates of the
    messages of [console.warn] (line 40) and of [console.error] (line 51).
    The last one is in the [catch] block: when the conversion of line 36 is
    what threw, the handler of the exception converts the name once more,
    throws the same [TypeError] itself, never reaches its [return []], and
    the call is rejected.  A name that is a string with an unpaired
    surrogate throws a [URIError] at line 36, which the [catch] block
    turns into the empty list.  The channel id is converted by the
    template of the second URL (line 46), inside the [try] block. *)
Definition getChannelVideos (channelName : JsValue) (apiKey : jsstring)
    (maxResults : N) : Async (list TitleRecord) :=
  try_catch
    (await name <- complete (ToString channelName) ;;
     match encodeURIComponent name with
     | None => throw uri_malformed
     | Some q =>
         await res <- fetch (YouTubeChannelSearch q apiKey) ;;
         await channelResponse <- json res ;;
         await items <- complete (get channelResponse "items") ;;
         await not_found <-
           complete (if negb (truthy items) then Normal true
                     else let! len := get items "length" in
                          Normal (is_zero len)) ;;
         if not_found
         then await warning <- complete (ToString channelName) ;; ret []
         else
           await channelId <-
             complete (let! first := get_index items 0 in
                       let! id := get first "id" in
                       get id "channelId") ;;
           await id <- complete (ToString channelId) ;;
           await res' <- fetch (YouTubeChannelVideos id maxResults apiKey) ;;
           await videosResponse <- json res' ;;
           complete (let! items' := get videosResponse "items" in
                     titles_or_empty "snippet" items')
     end)
    (fun error => await report <- complete (ToString channelName) ;; ret []).

(** [getRedditAccessToken(clientId, clientSecret)]. *)
Definition getRedditAccessToken (clientId clientSecret : jsstring)
  : Async JsValue :=
  await cached <- read_redditToken ;;
  await now <- Date_now ;;
  if truthy (value cached) && (expires cached >? now)%Z
  then ret (value cached)
  else
    try_catch
      (await res <- fetch (RedditAccessToken clientId clientSecret) ;;
       await response <- json res ;;
       await access_token <- complete (get response "access_token") ;;
       if negb (truthy access_token)
       then throw (Error (lit "Reddit token not received."))
       else
         await now' <- Date_now ;;
         await _ <- write_redditToken
                      {| value := access_token;
                         expires := now' + 50 * 60 * 1000 |} ;;
         await stored <- read_redditToken ;;
         ret (value stored))
      (fun error => ret JNull).

(** [getSubredditPosts(subreddit, accessToken, limit)].  The URL and the
    [Authorization] header, and with them the conversions of the subreddit
    and of the token to strings, are computed before the [try] block; the
    message of [console.error] converts the subreddit again. *)
Definition getSubredditPosts (sub accessToken : JsValue) (limit : N)
  : Async (list TitleRecord) :=
  await name <- complete (ToString sub) ;;
  await bearer <- complete (ToString accessToken) ;;
  try_catch
    (await res <- fetch (RedditHot name limit bearer) ;;
     await response <- json res ;;
     complete (let! data := get response "data" in
               let! children := get_optional data "children" in
               titles_or_empty "data" children))
    (fun error => await report <- complete (ToString sub) ;; ret []).

(** [callGeminiAPI(prompt, apiKey)]: whatever goes wrong is thrown again,
    under one fixed message. *)
Definition generation_failed : JsError :=
  Error (lit "Failed to get a valid response from the Gemini API.").

Definition callGeminiAPI (prompt apiKey : jsstring) : Async JsValue :=
  try_catch
    (await response <- fetch (GeminiGenerate prompt apiKey) ;;
     if negb (ok response)
     then throw (Error (lit "Gemini API Error: " ++ statusText response))
     else
       await data <- json response ;;
       complete (let! candidates := get data "candidates" in
                 let! candidate := get_index candidates 0 in
                 let! content := get candidate "content" in
                 let! parts := get content "parts" in
                 let! part := get_index parts 0 in
                 get part "text"))
    (fun error => throw generation_failed).

(** ** The handler *)

Record HttpRequest : Type := { method : jsstring; body : JsValue }.

(** The four variables read from [process.env]; [None] when unset. *)
Record Env : Type :=
  { YOUTUBE_API_KEY : option jsstring;
    REDDIT_CLIENT_ID : option jsstring;
    REDDIT_CLIENT_SECRET : option jsstring;
    GEMINI_API_KEY : option jsstring }.

(** What was written to [res]: [res.end()], [res.json(v)] or [res.send(v)]. *)
Inductive Payload : Type :=
| Ended
| SentJson (v : JsValue)
| Sent (v : JsValue).

Record HttpResponse : Type :=
  { status : N; headers : list (jsstring * jsstring); payload : Payload }.

Definition cors_headers : list (jsstring * jsstring) :=
  [ (lit "Access-Control-Allow-Origin", lit "*");
    (lit "Access-Control-Allow-Methods", lit "POST, OPTIONS");
    (lit "Access-Control-Allow-Headers", lit "Content-Type") ].

Definition error_json (status : N) (members : list (jsstring * JsValue))
  : HttpResponse :=
  {| status := status; headers := cors_headers; payload := SentJson (JObj members) |}.

Definition method_not_allowed : HttpResponse :=
  error_json 405 [(lit "error", JStr (lit "Method Not Allowed"))].
Definition invalid_body : HttpResponse :=
  error_json 400
    [(lit "error",
      JStr (lit "Invalid request body. Ensure all required fields are present."))].
Definition configuration_error : HttpResponse :=
  error_json 500 [(lit "error", JStr (lit "Server configuration error."))].
Definition internal_error (error : JsError) : HttpResponse :=
  error_json 500
    [(lit "error", JStr (lit "An internal server error occurred."));
     (lit "details", JStr (message error))].
Definition success (geminiResponse : JsValue) : HttpResponse :=
  {| status := 200;
     headers := cors_headers ++ [(lit "Content-Type", lit "application/json")];
     payload := Sent geminiResponse |}.

(** A variable of the environment that is set and not empty. *)
Definition configured (v : option jsstring) : option jsstring :=
  match v with
  | Some s => if is_empty s then None else Some s
  | None => None
  end.

Definition elements (v : JsValue) : list JsValue :=
  match v with JArr l => l | _ => [] end.

(** *** Phase 1: data collection *)

Definition CollectedData : Type :=
  (list TitleRecord * (list ChannelResult * list CommunityResult))%type.
Definition topVideos (d : CollectedData) := fst d.
Definition competitorVideosData (d : CollectedData) := fst (snd d).
Definition redditPostsData (d : CollectedData) := snd (snd d).

Definition channel_videos (youtube : jsstring) (channel : JsValue)
  : Async ChannelResult :=
  await videos <- getChannelVideos channel youtube 3 ;;
  ret {| channel := channel; videos := videos |}.

Definition subreddit_posts (token : JsValue) (sub : JsValue)
  : Async CommunityResult :=
  await posts <- getSubredditPosts sub token 3 ;;
  ret {| subreddit := sub; posts := posts |}.

Definition reddit_branch (clientId clientSecret : jsstring)
    (relevantSubreddits : list JsValue) : Async (list CommunityResult) :=
  await token <- getRedditAccessToken clientId clientSecret ;;
  if truthy token then all_of (subreddit_posts token) relevantSubreddits
  else ret [].

(** The search query, the template [`${audience} ${goal}`]. *)
Definition query_text (audience goal : JsValue) : Completion jsstring :=
  let! a := ToString audience in
  let! g := ToString goal in
  Normal (a ++ lit " " ++ g).

(** The [Promise.all] of the handler and its three branches.  The query is
    the argument of the first call: it is converted before any of the
    three branches is started. *)
Definition collectData (audience goal : JsValue)
    (competitorYouTubeChannels relevantSubreddits : list JsValue)
    (youtube clientId clientSecret : jsstring) : Async CollectedData :=
  await query <- complete (query_text audience goal) ;;
  all3 (searchYouTubeVideos query youtube 3)
       (all_of (channel_videos youtube) competitorYouTubeChannels)
       (reddit_branch clientId clientSecret relevantSubreddits).

(** *** Phase 2: the master prompt *)

(** [records.map(v => v.title).join(', ')]. *)
Definition titles (records : list TitleRecord) : Completion jsstring :=
  Array_join (lit ", ") (map title records).

Definition topVideoTitles (topVideos : list TitleRecord)
  : Completion jsstring :=
  titles topVideos.

Definition channel_group (c : ChannelResult) : Completion jsstring :=
  let! name := ToString (channel c) in
  let! joined := titles (videos c) in
  Normal (name ++ lit ": " ++ joined).
Definition competitorVideoTitles (data : list ChannelResult)
  : Completion jsstring :=
  let! groups := cmap channel_group data in
  Normal (join (lit " | ") groups).

Definition subreddit_group (s : CommunityResult) : Completion jsstring :=
  let! name := ToString (subreddit s) in
  let! joined := titles (posts s) in
  Normal (lit "r/" ++ name ++ lit ": " ++ joined).
Definition redditPostTitles (data : list CommunityResult)
  : Completion jsstring :=
  let! groups := cmap subreddit_group data in
  Normal (join (lit " | ") groups).

(** The three data lines of the prompt, as they are interpolated. *)
Definition top_section (d : CollectedData) : Completion jsstring :=
  let! joined := topVideoTitles (topVideos d) in
  Normal (or_else joined (lit "N/A")).
Definition competitor_section (d : CollectedData) : Completion jsstring :=
  let! joined := competitorVideoTitles (competitorVideosData d) in
  Normal (or_else joined (lit "N/A")).
Definition reddit_section (d : CollectedData) : Completion jsstring :=
  let! joined := redditPostTitles (redditPostsData d) in
  Normal (or_else joined (lit "N/A")).

(** The text of the template up to the audience, and from the last data
    line to the end: the contract the generator is to follow. *)
Definition prompt_head : jsstring :=
  tmpl "
You are a world-class content strategist and data analyst. I have gathered real-time data from YouTube and Reddit for a client. Your task is to generate a complete content strategy based on this data and your own expert knowledge.

Client Details:
- Target Audience: ".
Definition prompt_contract : jsstring :=
  tmpl "

Based on all of this, provide a response in a single JSON object with the following four keys: `trendDiscovery`, `contentAnalysis`, `competitorReport`, `strategyCalendar`.

1.  `trendDiscovery`: An object containing trend analysis from four key platforms.
    - `youtubeTrends`: Analyze the provided YouTube data to identify 3-5 key trends.
    - `redditTrends`: Analyze the provided Reddit data to identify 3-5 key community topics and sentiments.
    - `simulatedXTrends`: Act as an expert on X (Twitter). Based on your knowledge, simulate the top 3-5 trending topics and content formats (e.g., threads, memes) relevant to the target audience on X right now.
    - `simulatedGoogleTrends`: Act as an expert search analyst. Based on your knowledge, simulate the top 3-5 rising search queries on Google Trends relevant to the target audience.

2.  `contentAnalysis`: An object that deconstructs what makes high-performing content successful.
    - `winningFormats`: Identify the most effective content formats (e.g., YouTube Shorts, long-form video) based on all available data.
    - `toneOfVoice`: Describe the most successful tone of voice (e.g., 'humorous and informal', 'educational and authoritative').
    - `engagementTriggers`: List common engagement triggers found in the content (e.g., 'asking a direct question', 'hosting a challenge').
    - `optimalTiming`: Suggest the best days and times to post, providing a rationale.

3.  `competitorReport`: An object analyzing the specified competitors.
    - `youtubeCompetitorAnalysis`: Analyze the provided competitor YouTube video titles. Summarize their content strategy, topic focus, and posting frequency.
    - `inferredXStrategy`: Based on their known strategy, infer what their strategy on X would likely be.

4.  `strategyCalendar`: An array of 30 objects, representing a full 30-day content plan. Each object in the array must have the following structure: { `day`: number, `platform`: `YouTube/Instagram/Reddit`, `title`: `A catchy, fully-formed content title`, `format`: `e.g., YouTube Short, IG Reel, Reddit Thread`, `description`: `A 1-2 sentence description of the content piece.` }
".

(** The text between the interpolations of the first lines. *)
Definition goal_line : jsstring := lit "
- Primary Goal: ".
Definition top_line : jsstring := lit "

Live Data Collected:
- Top YouTube Videos: ".
Definition competitor_line : jsstring := lit "
- Competitor YouTube Videos: ".
Definition reddit_line : jsstring := lit "
- Top Reddit Posts: ".

(** The three joined strings are computed first, in this order; the
    template then converts the audience and the goal. *)
Definition masterPrompt (audience goal : JsValue) (d : CollectedData)
  : Completion jsstring :=
  let! top := top_section d in
  let! competitors := competitor_section d in
  let! reddit := reddit_section d in
  let! a := ToString audience in
  let! g := ToString goal in
  Normal (prompt_head ++ a
          ++ goal_line ++ g
          ++ top_line ++ top
          ++ competitor_line ++ competitors
          ++ reddit_line ++ reddit
          ++ prompt_contract).

(** *** The exported function *)

(** [req.body || {}], the object the four fields are read from. *)
Definition fields (req : HttpRequest) : JsValue :=
  if truthy (body req) then body req else JObj [].

Definition handler (req : HttpRequest) (env : Env) : Async HttpResponse :=
  if jsstring_eqb (method req) (lit "OPTIONS")
  then ret {| status := 204; headers := cors_headers; payload := Ended |}
  else if negb (jsstring_eqb (method req) (lit "POST"))
  then ret method_not_allowed
  else
    try_catch
      (await audience <- complete (get (fields req) "audience") ;;
       await goal <- complete (get (fields req) "goal") ;;
       await competitorYouTubeChannels <-
         complete (get (fields req) "competitorYouTubeChannels") ;;
       await relevantSubreddits <-
         complete (get (fields req) "relevantSubreddits") ;;
       if negb (truthy audience) || negb (truthy goal)
          || negb (Array_isArray competitorYouTubeChannels)
          || negb (Array_isArray relevantSubreddits)
       then ret invalid_body
       else
         match configured (YOUTUBE_API_KEY env),
               configured (REDDIT_CLIENT_ID env),
               configured (REDDIT_CLIENT_SECRET env),
               configured (GEMINI_API_KEY env) with
         | Some youtube, Some clientId, Some clientSecret, Some gemini =>
             await collected <-
               collectData audience goal
                 (elements competitorYouTubeChannels)
                 (elements relevantSubreddits)
                 youtube clientId clientSecret ;;
             await prompt <-
               complete (masterPrompt audience goal collected) ;;
             await geminiResponse <- callGeminiAPI prompt gemini ;;
             ret (success geminiResponse)
         | _, _, _, _ => ret configuration_error
         end)
      (fun error => ret (internal_error error)).

(** ** What the clients compute from the replies

    The body of each client in direct style, as a function of the replies
    to its calls.  The rules of the clients, further down, prove that the
    client, run as a promise, settles with exactly this. *)

(** The adapter a call belongs to. *)
Inductive Adapter : Type :=
| TrendSearch | ChannelListing | Credential | CommunityListing | Generator.

Definition adapter (c : Call) : Adapter :=
  match c with
  | YouTubeSearch _ _ _ => TrendSearch
  | YouTubeChannelSearch _ _ | YouTubeChannelVideos _ _ _ => ChannelListing
  | RedditAccessToken _ _ => Credential
  | RedditHot _ _ _ => CommunityListing
  | GeminiGenerate _ _ => Generator
  end.

(** Fulfilled, with a value in [R]. *)
Definition Fulfils {A} (R : A -> Prop) : Completion A -> Prop :=
  fun c => exists a, c = Normal a /\ R a.

(** Whether [String(v)] gives a string. *)
Definition convertible (v : JsValue) : bool :=
  match ToString v with Normal _ => true | Throw _ => false end.

(** [catch (error) { return []; }]. *)
Definition or_empty {A} (c : Completion (list A)) : list A :=
  match c with Normal l => l | Throw _ => [] end.

(** The result of [searchYouTubeVideos] when its call comes back with [r]. *)
Definition searched (r : Reply) : list TitleRecord :=
  or_empty
    (let! response := fetched r in
     if negb (ok response)
     then Throw (Error (lit "YouTube API Error: " ++ statusText response))
     else let! data := parsed_json response in
          let! items := get data "items" in
          titles_or_empty "snippet" items).

(** The first step of [getChannelVideos]: the channel id found in the
    reply, [None] when the channel is not found. *)
Definition channel_id (r : Reply) : Completion (option JsValue) :=
  let! res := fetched r in
  let! channelResponse := parsed_json res in
  let! items := get channelResponse "items" in
  let! not_found :=
    (if negb (truthy items) then Normal true
     else let! len := get items "length" in Normal (is_zero len)) in
  if (not_found : bool) then Normal None
  else let! channelId := (let! first := get_index items 0 in
                          let! id := get first "id" in
                          get id "channelId") in
       Normal (Some channelId).

(** Its second step. *)
Definition listed (r : Reply) : list TitleRecord :=
  or_empty
    (let! res := fetched r in
     let! videosResponse := parsed_json res in
     let! items := get videosResponse "items" in
     titles_or_empty "snippet" items).

(** What [getChannelVideos] may return, in an environment [E], for a
    channel whose name converts to [name]: the videos listed for the id
    found, and the empty list when the name cannot be encoded, when no id
    is found or when the id found cannot be converted to a string. *)
Definition channel_listing (E : Call -> Reply -> Prop) (key : jsstring) (n : N)
    (name : jsstring) (vs : list TitleRecord) : Prop :=
  match encodeURIComponent name with
  | None => vs = []
  | Some q =>
      exists r1, E (YouTubeChannelSearch q key) r1 /\
        match channel_id r1 with
        | Normal (Some id) =>
            match ToString id with
            | Normal idtext =>
                exists r2, E (YouTubeChannelVideos idtext n key) r2
                           /\ vs = listed r2
            | Throw _ => vs = []
            end
        | _ => vs = []
        end
  end.

(** The completion of [getChannelVideos] for the channel [ch]: rejected
    when the name cannot be converted to a string. *)
Definition channel_completion (E : Call -> Reply -> Prop) (key : jsstring)
    (n : N) (ch : JsValue) (c : Completion (list TitleRecord)) : Prop :=
  match ToString ch with
  | Normal name => Fulfils (channel_listing E key n name) c
  | Throw e => c = Throw e
  end.

(** The token in the reply to the credential exchange; a throw is the
    failure of the acquisition. *)
Definition access_token (r : Reply) : Completion JsValue :=
  let! res := fetched r in
  let! response := parsed_json res in
  let! token := get response "access_token" in
  if negb (truthy token)
  then Throw (Error (lit "Reddit token not received."))
  else Normal token.

Definition token_of (r : Reply) : JsValue :=
  match access_token r with Normal t => t | Throw _ => JNull end.

(** The test of [getRedditAccessToken] on the cache. *)
Definition fresh (w : World) : bool :=
  truthy (value (redditToken w)) && (expires (redditToken w) >? clock w)%Z.

(** What [getRedditAccessToken] may return when called in [w]. *)
Definition token_in (E : Call -> Reply -> Prop) (clientId clientSecret : jsstring)
    (w : World) (token : JsValue) : Prop :=
  if fresh w then token = value (redditToken w)
  else exists r, E (RedditAccessToken clientId clientSecret) r
                 /\ token = token_of r.

(** The result of [getSubredditPosts] when its call comes back with [r]. *)
Definition hot (r : Reply) : list TitleRecord :=
  or_empty
    (let! res := fetched r in
     let! response := parsed_json res in
     let! data := get response "data" in
     let! children := get_optional data "children" in
     titles_or_empty "data" children).

(** The completion of [getSubredditPosts]: rejected when the subreddit or
    the token cannot be converted to a string. *)
Definition posts_completion (E : Call -> Reply -> Prop) (n : N)
    (sub token : JsValue) (c : Completion (list TitleRecord)) : Prop :=
  match ToString sub, ToString token with
  | Normal name, Normal bearer =>
      Fulfils (fun l => exists r, E (RedditHot name n bearer) r /\ l = hot r) c
  | Throw e, _ => c = Throw e
  | Normal _, Throw e => c = Throw e
  end.

(** The text [callGeminiAPI] extracts; a throw is a generation failure. *)
Definition gemini_text (r : Reply) : Completion JsValue :=
  let! response := fetched r in
  if negb (ok response)
  then Throw (Error (lit "Gemini API Error: " ++ statusText response))
  else let! data := parsed_json response in
       let! candidates := get data "candidates" in
       let! candidate := get_index candidates 0 in
       let! content := get candidate "content" in
       let! parts := get content "parts" in
       let! part := get_index parts 0 in
       get part "text".

(** The completion of [callGeminiAPI]. *)
Definition generation (r : Reply) : Completion JsValue :=
  match gemini_text r with
  | Normal text => Normal text
  | Throw _ => Throw generation_failed
  end.

(** The response of the handler once the generator has answered. *)
Definition generated (r : Reply) : HttpResponse :=
  match gemini_text r with
  | Normal text => success text
  | Throw _ => internal_error generation_failed
  end.

(** *** The request *)

(** A field of the request body, [undefined] when it is not there. *)
Definition field (req : HttpRequest) (k : string) : JsValue :=
  match get (fields req) k with Normal v => v | Throw _ => JUndefined end.
Arguments field req k%_string.

(** The test of the handler on the request body. *)
Definition valid (req : HttpRequest) : bool :=
  truthy (field req "audience") && truthy (field req "goal")
  && Array_isArray (field req "competitorYouTubeChannels")
  && Array_isArray (field req "relevantSubreddits").

Definition query_of (req : HttpRequest) : Completion jsstring :=
  query_text (field req "audience") (field req "goal").
Definition channels_of (req : HttpRequest) : list JsValue :=
  elements (field req "competitorYouTubeChannels").
Definition subreddits_of (req : HttpRequest) : list JsValue :=
  elements (field req "relevantSubreddits").

(** ** All the runs of a promise *)

(** [issues K w w']: between [w] and [w'] the calls issued all satisfy [K]. *)
Definition issues (K : Call -> Prop) (w w' : World) : Prop :=
  exists l, calls w' = calls w ++ l /\ Forall K l.

(** [Runs E K P p]: whichever call in flight the environment completes
    next, with whichever reply [E] allows, in whichever world, [p] goes on
    issuing only calls in [K] and settles, after finitely many completions,
    with a completion in [P]. *)
Inductive Runs (E : Call -> Reply -> Prop) (K : Call -> Prop) {A : Type}
    (P : Completion A -> Prop) : Promise A -> Prop :=
| Runs_settled (c : Completion A) : P c -> Runs E K P (Settled c)
| Runs_pending (reqs : list Call) resume :
    reqs <> [] ->
    (forall i c r w, nth_error reqs i = Some c -> E c r ->
                     issues K w (snd (resume i r w))) ->
    (forall i c r w, nth_error reqs i = Some c -> E c r ->
                     Runs E K P (fst (resume i r w))) ->
    Runs E K P (Pending reqs resume).

(** The same of a call started in the world [w]. *)
Definition Starts (E : Call -> Reply -> Prop) (K : Call -> Prop) {A : Type}
    (P : Completion A -> Prop) (a : Async A) (w : World) : Prop :=
  issues K w (snd (a w)) /\ Runs E K P (fst (a w)).

(** An environment that may reply anything, and one whose replies are a
    function of the call. *)
Definition any_reply : Call -> Reply -> Prop := fun _ _ => True.
Definition replies (net : Call -> Reply) : Call -> Reply -> Prop :=
  fun c r => r = net c.
Definition any_call : Call -> Prop := fun _ => True.

(** The postcondition of two promises awaited together. *)
Definition both {A B} (P : Completion A -> Prop) (Q : Completion B -> Prop)
  : Completion (A * B) -> Prop :=
  fun c =>
    match c with
    | Normal ab => P (Normal (fst ab)) /\ Q (Normal (snd ab))
    | Throw e => P (Throw e) \/ Q (Throw e)
    end.

(** The postcondition of [Promise.all] over the promises started for the
    elements of [xs]: fulfilled when each of them is, rejected with the
    exception of one of them. *)
Definition every {X A} (P : X -> Completion A -> Prop) (xs : list X)
  : Completion (list A) -> Prop :=
  fun c =>
    match c with
    | Normal l => Forall2 (fun x a => P x (Normal a)) xs l
    | Throw e => Exists (fun x => P x (Throw e)) xs
    end.

(** *** The collected data *)

(** The completion of [searchYouTubeVideos]. *)
Definition search_completion (E : Call -> Reply -> Prop) (query : jsstring)
    (n : N) (key : jsstring) (c : Completion (list TitleRecord)) : Prop :=
  match encodeURIComponent query with
  | Some q =>
      Fulfils (fun l => exists r, E (YouTubeSearch q n key) r /\ l = searched r) c
  | None => c = Throw uri_malformed
  end.

(** An entry of the channel results: the channel as it was requested, and
    what [getChannelVideos] returned for it. *)
Definition channel_result_in (E : Call -> Reply -> Prop) (key : jsstring)
    (ch : JsValue) (cr : ChannelResult) : Prop :=
  channel cr = ch
  /\ exists name, ToString ch = Normal name
                  /\ channel_listing E key 3 name (videos cr).

(** The completion of the channel branch: rejected when the name of a
    channel cannot be converted to a string. *)
Definition channels_completion (E : Call -> Reply -> Prop) (key : jsstring)
    (channels : list JsValue) (c : Completion (list ChannelResult)) : Prop :=
  if forallb convertible channels
  then Fulfils (Forall2 (channel_result_in E key) channels) c
  else c = Throw cannot_convert.

(** An entry of the community results. *)
Definition community_result_in (E : Call -> Reply -> Prop) (token : JsValue)
    (sub : JsValue) (cr : CommunityResult) : Prop :=
  subreddit cr = sub
  /\ exists name bearer,
       ToString sub = Normal name /\ ToString token = Normal bearer
       /\ exists r, E (RedditHot name 3 bearer) r /\ posts cr = hot r.

(** Whether every listing of the community branch can be requested with
    the token: each subreddit, and with it the token, converts to a
    string. *)
Definition listable (token : JsValue) (subs : list JsValue) : bool :=
  forallb (fun sub => convertible sub && convertible token) subs.

(** The completion of the community branch: the empty sequence when no
    token was acquired, and otherwise one entry for each subreddit, in the
    order of the request, unless a listing cannot be requested. *)
Definition community_completion (E : Call -> Reply -> Prop)
    (clientId clientSecret : jsstring) (subs : list JsValue) (w : World)
    (c : Completion (list CommunityResult)) : Prop :=
  exists token, token_in E clientId clientSecret w token /\
    if truthy token
    then if listable token subs
         then Fulfils (Forall2 (community_result_in E token) subs) c
         else c = Throw cannot_convert
    else c = Normal [].

(** What [collectData] may be fulfilled with, in an environment [E], when
    started in [w] with a query that encodes to [q]. *)
Definition collected_in (E : Call -> Reply -> Prop) (q : jsstring)
    (channels subs : list JsValue) (youtube clientId clientSecret : jsstring)
    (w : World) (d : CollectedData) : Prop :=
  (exists r, E (YouTubeSearch q 3 youtube) r /\ topVideos d = searched r)
  /\ Forall2 (channel_result_in E youtube) channels (competitorVideosData d)
  /\ community_completion E clientId clientSecret subs w
                          (Normal (redditPostsData d)).

(** When a collection whose query encodes is rejected all the same: the
    name of a channel cannot be converted to a string, or a token was
    acquired and a listing cannot be requested with it. *)
Definition collection_rejected (E : Call -> Reply -> Prop)
    (channels subs : list JsValue) (clientId clientSecret : jsstring)
    (w : World) : Prop :=
  forallb convertible channels = false
  \/ exists token, token_in E clientId clientSecret w token
                   /\ truthy token = true /\ listable token subs = false.

(** The completion of [collectData]. *)
Definition collection (E : Call -> Reply -> Prop) (audience goal : JsValue)
    (channels subs : list JsValue) (youtube clientId clientSecret : jsstring)
    (w : World) (c : Completion CollectedData) : Prop :=
  match query_text audience goal with
  | Throw e => c = Throw e
  | Normal query =>
      match encodeURIComponent query with
      | None => c = Throw uri_malformed
      | Some q =>
          match c with
          | Normal d =>
              collected_in E q channels subs youtube clientId clientSecret w d
          | Throw e =>
              e = cannot_convert
              /\ collection_rejected E channels subs clientId clientSecret w
          end
      end
  end.

(** The same when the replies are given by [net]: the data collected. *)
Definition listing_of (net : Call -> Reply) (key : jsstring) (name : jsstring)
  : list TitleRecord :=
  match encodeURIComponent name with
  | None => []
  | Some q =>
      match channel_id (net (YouTubeChannelSearch q key)) with
      | Normal (Some id) =>
          match ToString id with
          | Normal idtext => listed (net (YouTubeChannelVideos idtext 3 key))
          | Throw _ => []
          end
      | _ => []
      end
  end.

Definition channel_result_of (net : Call -> Reply) (key : jsstring)
    (ch : JsValue) : Completion ChannelResult :=
  let! name := ToString ch in
  Normal {| channel := ch; videos := listing_of net key name |}.

Definition token_for (net : Call -> Reply) (clientId clientSecret : jsstring)
    (w : World) : JsValue :=
  if fresh w then value (redditToken w)
  else token_of (net (RedditAccessToken clientId clientSecret)).

Definition community_result_of (net : Call -> Reply) (token sub : JsValue)
  : Completion CommunityResult :=
  let! name := ToString sub in
  let! bearer := ToString token in
  Normal {| subreddit := sub; posts := hot (net (RedditHot name 3 bearer)) |}.

Definition community_of (net : Call -> Reply) (clientId clientSecret : jsstring)
    (subs : list JsValue) (w : World) : Completion (list CommunityResult) :=
  let token := token_for net clientId clientSecret w in
  if truthy token then cmap (community_result_of net token) subs
  else Normal [].

Definition collected (net : Call -> Reply) (q : jsstring)
    (channels subs : list JsValue) (youtube clientId clientSecret : jsstring)
    (w : World) : Completion CollectedData :=
  let! competitors := cmap (channel_result_of net youtube) channels in
  let! communities := community_of net clientId clientSecret subs w in
  Normal (searched (net (YouTubeSearch q 3 youtube)),
          (competitors, communities)).

(** A call that starts without touching the token cache or the clock. *)
Definition quiet {A} (a : Async A) : Prop :=
  forall w, redditToken (snd (a w)) = redditToken w
            /\ clock (snd (a w)) = clock w.

(** What the handler may answer to a valid request, in an environment [E],
    when it is started in [w] and the environment is configured: 500 with
    the message of the exception when the query cannot be made or the
    collection is rejected; otherwise the data are collected, and the
    answer is 500 when the prompt cannot be assembled from them, and what
    the generator gives for the prompt when it can. *)
Definition response_in (E : Call -> Reply -> Prop) (req : HttpRequest)
    (youtube clientId clientSecret gemini : jsstring) (w : World)
    (res : HttpResponse) : Prop :=
  match query_of req with
  | Throw e => res = internal_error e
  | Normal query =>
      match encodeURIComponent query with
      | None => res = internal_error uri_malformed
      | Some q =>
          (res = internal_error cannot_convert
           /\ collection_rejected E (channels_of req) (subreddits_of req)
                                  clientId clientSecret w)
          \/ exists d,
               collected_in E q (channels_of req) (subreddits_of req)
                            youtube clientId clientSecret w d
               /\ match masterPrompt (field req "audience")
                                     (field req "goal") d with
                  | Normal prompt =>
                      exists r, E (GeminiGenerate prompt gemini) r
                                /\ res = generated r
                  | Throw e => res = internal_error e
                  end
      end
  end.

(** An event allowed by [E] for the promise it is applied to. *)
Definition allowed (E : Call -> Reply -> Prop) {A} (p : Promise A) (e : Event)
  : Prop :=
  match p with
  | Settled _ => True
  | Pending reqs _ =>
      forall c, nth_error reqs (which e) = Some c -> E c (reply e)
  end.

(** Every event of the list is allowed when it is delivered. *)
Fixpoint all_allowed (E : Call -> Reply -> Prop) {A}
    (pw : Promise A * World) (events : list Event) : Prop :=
  match events with
  | [] => True
  | e :: es => allowed E (fst pw) e /\ all_allowed E (step pw e) es
  end.

(** The first [n] events of a stream. *)
Definition first_events (s : nat -> Event) (n : nat) : list Event :=
  map s (seq 0 n).

(** An event that completes one of the calls in flight. *)
Definition answers {A} (p : Promise A) (e : Event) : Prop :=
  match p with
  | Settled _ => True
  | Pending reqs _ => (which e < List.length reqs)%nat
  end.

(** The replies of [net] delivered in the order and at the times of
    [schedule]. *)
Definition serve {A} (net : Call -> Reply) (pw : Promise A * World)
    (it : nat * Z) : Promise A * World :=
  match fst pw with
  | Settled _ => pw
  | Pending reqs _ =>
      match nth_error reqs (fst it) with
      | Some c => step pw {| which := fst it; reply := net c; at_time := snd it |}
      | None => pw
      end
  end.

Definition run_with {A} (net : Call -> Reply) (a : Async A) (w : World)
    (schedule : list (nat * Z)) : Promise A * World :=
  fold_left (serve net) schedule (a w).

(** ** Sample requests, replies and worlds *)

(** A process that has just started: nothing cached, no call made. *)
Definition cold : World := {| redditToken := no_token; clock := 0; calls := [] |}.

Definition sample_env : Env :=
  {| YOUTUBE_API_KEY := Some (lit "yt-key");
     REDDIT_CLIENT_ID := Some (lit "id");
     REDDIT_CLIENT_SECRET := Some (lit "secret");
     GEMINI_API_KEY := Some (lit "gemini-key") |}.

Definition empty_env : Env :=
  {| YOUTUBE_API_KEY := None; REDDIT_CLIENT_ID := None;
     REDDIT_CLIENT_SECRET := None; GEMINI_API_KEY := None |}.

Definition strings (l : list string) : JsValue :=
  JArr (map (fun s => JStr (lit s)) l).

Definition post (audience goal channels subs : JsValue) : HttpRequest :=
  {| method := lit "POST";
     body := JObj [ (lit "audience", audience); (lit "goal", goal);
                    (lit "competitorYouTubeChannels", channels);
                    (lit "relevantSubreddits", subs) ] |}.

(** The request of the end-to-end scenario of the specification. *)
Definition sample_request : HttpRequest :=
  post (JStr (lit "new parents")) (JStr (lit "grow subscribers"))
       (strings ["ChannelA"%string]) (strings ["parenting"%string]).

Definition ok_reply (v : JsValue) : Reply := HttpReply true (lit "OK") (Some v).

(** [{ items: [ { snippet: { title: t } }, ... ] }]. *)
Definition video_items (ts : list string) : JsValue :=
  JObj [(lit "items",
         JArr (map (fun t =>
                      JObj [(lit "snippet",
                             JObj [(lit "title", JStr (lit t))])]) ts))].

(** [{ items: [ { id: { channelId: id } } ] }]. *)
Definition channel_found (id : string) : JsValue :=
  JObj [(lit "items",
         JArr [JObj [(lit "id", JObj [(lit "channelId", JStr (lit id))])]])].

(** [{ data: { children: [ { data: { title: t } }, ... ] } }]. *)
Definition hot_posts (ts : list string) : JsValue :=
  JObj [(lit "data",
         JObj [(lit "children",
                JArr (map (fun t =>
                             JObj [(lit "data",
                                    JObj [(lit "title", JStr (lit t))])]) ts))])].

Definition token_granted (t : string) : JsValue :=
  JObj [(lit "access_token", JStr (lit t))].

(** [{ candidates: [ { content: { parts: [ { text: t } ] } } ] }]. *)
Definition generated_text (t : JsValue) : JsValue :=
  JObj [(lit "candidates",
         JArr [JObj [(lit "content",
                      JObj [(lit "parts", JArr [JObj [(lit "text", t)]])])]])].

Definition at_ (i : nat) (r : Reply) (t : Z) : Event :=
  {| which := i; reply := r; at_time := t |}.

(** Every source answers, the credential exchange included. *)
Definition all_up (c : Call) : Reply :=
  match c with
  | YouTubeSearch _ _ _ => ok_reply (video_items ["Sleep tips"%string])
  | YouTubeChannelSearch _ _ => ok_reply (channel_found "UC1")
  | YouTubeChannelVideos _ _ _ => ok_reply (video_items ["Vlog"%string])
  | RedditAccessToken _ _ => ok_reply (token_granted "tok")
  | RedditHot _ _ _ => ok_reply (hot_posts ["Teething"%string])
  | GeminiGenerate _ _ => ok_reply (generated_text (JStr (lit "{}")))
  end.

(** The same, but the credential exchange fails. *)
Definition reddit_down (c : Call) : Reply :=
  match c with
  | RedditAccessToken _ _ => NetworkFailure
  | _ => all_up c
  end.

(** Data in which a channel was found to have no video. *)
Definition no_video_data : CollectedData :=
  ([{| title := JStr (lit "Sleep tips") |}],
   ([{| channel := JStr (lit "ChannelA"); videos := [] |}], [])).

(** The value a settled promise was fulfilled with. *)
Definition fulfilled_with {A} (pw : Promise A * World) : option A :=
  match fst pw with
  | Settled (Normal a) => Some a
  | _ => None
  end.

(** A request whose audience is one unpaired surrogate, as [JSON.parse]
    reads it from an escape in a string. *)
Definition lone_surrogate_request : HttpRequest :=
  post (JStr [55357%N]) (JStr (lit "grow subscribers"))
       (strings ["ChannelA"%string]) (strings ["parenting"%string]).

(** ** What the claims are stated with *)

(** The completion of the body of the [try] of the handler, for a valid
    request in a configured environment. *)
Definition attempt (E : Call -> Reply -> Prop) (req : HttpRequest)
    (youtube clientId clientSecret gemini : jsstring) (w : World)
    (c : Completion HttpResponse) : Prop :=
  match query_of req with
  | Throw e => c = Throw e
  | Normal query =>
      match encodeURIComponent query with
      | None => c = Throw uri_malformed
      | Some q =>
          (c = Throw cannot_convert
           /\ collection_rejected E (channels_of req) (subreddits_of req)
                                  clientId clientSecret w)
          \/ exists d,
               collected_in E q (channels_of req) (subreddits_of req)
                            youtube clientId clientSecret w d
               /\ match masterPrompt (field req "audience")
                                     (field req "goal") d with
                  | Normal prompt =>
                      exists r, E (GeminiGenerate prompt gemini) r
                                /\ c = match generation r with
                                       | Normal t => Normal (success t)
                                       | Throw e => Throw e
                                       end
                  | Throw e => c = Throw e
                  end
      end
  end.

(** The completion of [collectData] when the replies are given by [net]. *)
Definition collection_of (net : Call -> Reply) (audience goal : JsValue)
    (channels subs : list JsValue) (youtube clientId clientSecret : jsstring)
    (w : World) : Completion CollectedData :=
  let! query := query_text audience goal in
  match encodeURIComponent query with
  | None => Throw uri_malformed
  | Some q => collected net q channels subs youtube clientId clientSecret w
  end.

(** The answer of the handler to a valid request, in a configured
    environment, when the replies are given by [net]. *)
Definition response_of (net : Call -> Reply) (req : HttpRequest)
    (youtube clientId clientSecret gemini : jsstring) (w : World)
  : HttpResponse :=
  match collection_of net (field req "audience") (field req "goal")
                      (channels_of req) (subreddits_of req)
                      youtube clientId clientSecret w with
  | Throw e => internal_error e
  | Normal d =>
      match masterPrompt (field req "audience") (field req "goal") d with
      | Throw e => internal_error e
      | Normal prompt => generated (net (GeminiGenerate prompt gemini))
      end
  end.



(** An object that cannot be converted to a string, as [JSON.parse] reads
    it from [{"toString": 1}]. *)
Definition unconvertible : JsValue :=
  JObj [(lit "toString", JNum (number_of_nat 1))].



(** The request of the scenario with a channel, or a subreddit, that
    cannot be converted to a string. *)
Definition odd_channel_request : HttpRequest :=
  post (JStr (lit "new parents")) (JStr (lit "grow subscribers"))
       (JArr [unconvertible]) (strings ["parenting"%string]).
Definition odd_audience_request : HttpRequest :=
  post unconvertible (JStr (lit "grow subscribers"))
       (strings ["ChannelA"%string]) (strings ["parenting"%string]).

(** ** What the handler may call and answer *)

(** The answer to a preflight request. *)
Definition no_content : HttpResponse :=
  {| status := 204; headers := cors_headers; payload := Ended |}.

(** A variable of the environment that is not set, or set to the empty
    string: [!v] in the test of the handler. *)
Definition unset (v : option jsstring) : Prop := v = None \/ v = Some [].

(** The calls the handler may issue for a valid request [req] started in
    [w], in a configured environment: each call with its arguments.  None
    is issued unless the audience and the goal convert to strings; a call
    that carries a name, an id or a token carries the string it converts
    to. *)
Definition expected (E : Call -> Reply -> Prop) (req : HttpRequest)
    (youtube clientId clientSecret gemini : jsstring) (w : World) (c : Call)
  : Prop :=
  (exists query, query_of req = Normal query) /\
  match c with
  | YouTubeSearch q n key =>
      (exists query, query_of req = Normal query
                     /\ encodeURIComponent query = Some q)
      /\ n = 3%N /\ key = youtube
  | YouTubeChannelSearch q key =>
      (exists ch name, In ch (channels_of req)
                       /\ ToString ch = Normal name
                       /\ encodeURIComponent name = Some q)
      /\ key = youtube
  | YouTubeChannelVideos id n key =>
      (exists ch name q r found,
         In ch (channels_of req)
         /\ ToString ch = Normal name
         /\ encodeURIComponent name = Some q
         /\ E (YouTubeChannelSearch q youtube) r
         /\ channel_id r = Normal (Some found)
         /\ ToString found = Normal id)
      /\ n = 3%N /\ key = youtube
  | RedditAccessToken i s =>
      fresh w = false /\ i = clientId /\ s = clientSecret
  | RedditHot name n bearer =>
      (exists sub token,
         In sub (subreddits_of req) /\ ToString sub = Normal name
         /\ token_in E clientId clientSecret w token /\ truthy token = true
         /\ ToString token = Normal bearer)
      /\ n = 3%N
  | GeminiGenerate prompt key =>
      (exists query q d,
         query_of req = Normal query
         /\ encodeURIComponent query = Some q
         /\ collected_in E q (channels_of req) (subreddits_of req)
                         youtube clientId clientSecret w d
         /\ masterPrompt (field req "audience") (field req "goal") d
            = Normal prompt)
      /\ key = gemini
  end.

(** The calls the handler may issue for any request: none unless the
    request is a valid POST and the environment is configured. *)
Definition may_call (E : Call -> Reply -> Prop) (req : HttpRequest) (env : Env)
    (w : World) (c : Call) : Prop :=
  method req = lit "POST" /\ valid req = true /\
  exists youtube clientId clientSecret gemini,
    configured (YOUTUBE_API_KEY env) = Some youtube
    /\ configured (REDDIT_CLIENT_ID env) = Some clientId
    /\ configured (REDDIT_CLIENT_SECRET env) = Some clientSecret
    /\ configured (GEMINI_API_KEY env) = Some gemini
    /\ expected E req youtube clientId clientSecret gemini w c.

(** The answers the handler may give to any request. *)
Definition answer_in (E : Call -> Reply -> Prop) (req : HttpRequest) (env : Env)
    (w : World) (res : HttpResponse) : Prop :=
  if jsstring_eqb (method req) (lit "OPTIONS") then res = no_content
  else if negb (jsstring_eqb (method req) (lit "POST"))
  then res = method_not_allowed
  else if negb (valid req) then res = invalid_body
  else
    match configured (YOUTUBE_API_KEY env),
          configured (REDDIT_CLIENT_ID env),
          configured (REDDIT_CLIENT_SECRET env),
          configured (GEMINI_API_KEY env) with
    | Some youtube, Some clientId, Some clientSecret, Some gemini =>
        response_in E req youtube clientId clientSecret gemini w res
    | _, _, _, _ => res = configuration_error
    end.

(** The member [error] of a JSON error body. *)
Definition error_text (res : HttpResponse) : option JsValue :=
  match payload res with
  | SentJson (JObj ms) => Some (member (lit "error") ms)
  | _ => None
  end.

(** A world in which a token is cached until [until]. *)
Definition warm (token : string) (until : Z) : World :=
  {| redditToken := {| value := JStr (lit token); expires := until |};
     clock := 0; calls := [] |}.
(** The shape of every answer: one of five statuses, the three CORS
    headers first; a 200 adds the content type and carries what was given
    to [res.send], a 204 has no body, any other status has a JSON body
    with a string member [error]. *)
Definition well_formed (res : HttpResponse) : Prop :=
  In (status res) [204; 405; 400; 500; 200]%N
  /\ firstn 3 (headers res) = cors_headers
  /\ (status res = 200%N ->
      headers res
      = cors_headers ++ [(lit "Content-Type", lit "application/json")]
      /\ exists text, payload res = Sent text)
  /\ (status res = 204%N -> headers res = cors_headers /\ payload res = Ended)
  /\ (In (status res) [405; 400; 500]%N ->
      headers res = cors_headers
      /\ exists msg, error_text res = Some (JStr msg)).

(** The replies of the end-to-end scenario, each delivered to the first
    call in flight. *)
Definition sample_events : list Event :=
  [ at_ 0 (ok_reply (video_items ["Sleep tips"%string])) 1;
    at_ 0 (ok_reply (channel_found "UC1")) 2;
    at_ 0 (ok_reply (video_items ["Vlog"%string])) 3;
    at_ 0 (ok_reply (token_granted "tok")) 4;
    at_ 0 (ok_reply (hot_posts ["Teething"%string])) 5;
    at_ 0 (ok_reply (generated_text (JStr (lit "{}")))) 6 ].

(** ** Counting the calls of a run *)

(** The calls issued between [w] and [w']. *)
Definition issued (w w' : World) : list Call :=
  skipn (List.length (calls w)) (calls w').

(** The cost of a list of calls, when a call to an adapter costs what
    [cost] says. *)
Definition weight (cost : Adapter -> nat) (l : list Call) : nat :=
  list_sum (map (fun c => cost (adapter c)) l).

Definition spent (cost : Adapter -> nat) (w w' : World) : nat :=
  weight cost (issued w w').

(** [w'] comes after [w]: it has the calls of [w], then those issued
    since; its cache holds the token of [w], or one that is truthy. *)
Definition follows (w w' : World) : Prop :=
  calls w' = calls w ++ issued w w'
  /\ (redditToken w' = redditToken w
      \/ truthy (value (redditToken w')) = true).

(** [Spends cost n p]: whichever call in flight is completed next, with
    whichever reply and in whichever world, the calls that [p] goes on to
    issue cost [n] at most in all, and the world that comes out follows the
    one that went in. *)
Inductive Spends (cost : Adapter -> nat) {A : Type} : nat -> Promise A -> Prop :=
| Spends_settled (n : nat) (c : Completion A) : Spends cost n (Settled c)
| Spends_pending (n : nat) (reqs : list Call) resume :
    (forall i r w, follows w (snd (resume i r w))) ->
    (forall i r w, spent cost w (snd (resume i r w)) <= n) ->
    (forall i r w,
       Spends cost (n - spent cost w (snd (resume i r w)))
              (fst (resume i r w))) ->
    Spends cost n (Pending reqs resume).

(** The same of a call started in [w], what it issues before its first
    suspension included. *)
Definition Costs (cost : Adapter -> nat) {A : Type} (n : nat) (a : Async A)
    (w : World) : Prop :=
  follows w (snd (a w))
  /\ spent cost w (snd (a w)) <= n
  /\ Spends cost (n - spent cost w (snd (a w))) (fst (a w)).

(** What one request may cost: one search, two calls for each channel, one
    credential exchange, one call for each subreddit, one generation. *)
Definition budget (cost : Adapter -> nat) (req : HttpRequest) : nat :=
  cost TrendSearch
  + 2 * cost ChannelListing * List.length (channels_of req)
  + cost Credential
  + cost CommunityListing * List.length (subreddits_of req)
  + cost Generator.

Definition each : Adapter -> nat := fun _ => 1.

(** ** The answer as a function of the replies *)

(** The answer of the handler when the reply to each call is given by
    [net]. *)
Definition answer_of (net : Call -> Reply) (req : HttpRequest) (env : Env)
    (w : World) : HttpResponse :=
  if jsstring_eqb (method req) (lit "OPTIONS") then no_content
  else if negb (jsstring_eqb (method req) (lit "POST")) then method_not_allowed
  else if negb (valid req) then invalid_body
  else
    match configured (YOUTUBE_API_KEY env),
          configured (REDDIT_CLIENT_ID env),
          configured (REDDIT_CLIENT_SECRET env),
          configured (GEMINI_API_KEY env) with
    | Some youtube, Some clientId, Some clientSecret, Some gemini =>
        response_of net req youtube clientId clientSecret gemini w
    | _, _, _, _ => configuration_error
    end.

(** ** Counting the completions of a run *)

(** [Within n p]: whichever calls are completed, with whichever replies,
    [p] has settled after [n] completions at most. *)
Inductive Within {A : Type} : nat -> Promise A -> Prop :=
| Within_settled (n : nat) (c : Completion A) : Within n (Settled c)
| Within_pending (n : nat) (reqs : list Call) resume :
    (forall i r w, Within n (fst (resume i r w))) ->
    Within (S n) (Pending reqs resume).

(** Every event of the list completes a call in flight when it is
    delivered. *)
Fixpoint all_answer {A} (pw : Promise A * World) (events : list Event) : Prop :=
  match events with
  | [] => True
  | e :: es => answers (fst pw) e /\ all_answer (step pw e) es
  end.

(** * Conversions to strings *)

(** An array is converted as [join] converts it. *)
Lemma ToString_JArr elems :
  ToString (JArr elems) = Array_join (lit ",") elems.
Proof.
  unfold Array_join. cbn.
  match goal with
  | |- cbind ?a _ = cbind ?b _ => assert (H : a = b); [| now rewrite H]
  end.
  induction elems as [| x l IH]; cbn; [reflexivity |].
  rewrite IH. now destruct x.
Qed.

(** The only exception of a conversion is the [TypeError] of an object
    that cannot be converted. *)
Lemma ToString_throws v : forall e, ToString v = Throw e -> e = cannot_convert.
Proof.
  revert v. fix IH 1. intros [| | [|] | n | s | elems | ms] e;
    try (cbn; intros H; discriminate H).
  - rewrite ToString_JArr. unfold Array_join.
    destruct (cmap join_element elems) as [parts | e'] eqn:Hc; cbn;
      [discriminate |].
    intros [= <-]. revert e' Hc.
    induction elems as [| x l IHl]; cbn; intros e' Hc; [discriminate |].
    destruct (join_element x) as [sx | ex] eqn:Hx; cbn in Hc.
    + destruct (cmap join_element l) as [parts | el]; cbn in Hc;
        [discriminate |].
      injection Hc as <-. now apply IHl.
    + injection Hc as <-.
      assert (H : ToString x = Throw ex)
        by (destruct x; try discriminate Hx; exact Hx).
      apply (IH x _ H).
  - cbn. destruct (has_own _ ms); intros H;
      [| discriminate H].
    congruence.
Qed.


Lemma cmap_throws {A B} (f : A -> Completion B) (err : JsError) l e :
  (forall x e', f x = Throw e' -> e' = err) ->
  cmap f l = Throw e -> e = err.
Proof.
  intros Hf. induction l as [| x l IH]; cbn; [discriminate |].
  destruct (f x) as [y | ex] eqn:Hx; cbn.
  - destruct (cmap f l) as [ys | el]; cbn; [discriminate |].
    intros [= <-]. now apply IH.
  - intros [= <-]. now apply (Hf x).
Qed.

Lemma convertible_true v : convertible v = true <-> exists s, ToString v = Normal s.
Proof.
  unfold convertible. destruct (ToString v) as [s | e]; split;
    try discriminate; eauto.
  now intros [s' H].
Qed.

Lemma convertible_false v :
  convertible v = false <-> ToString v = Throw cannot_convert.
Proof.
  unfold convertible. destruct (ToString v) as [s | e] eqn:H; split;
    try discriminate; auto.
  intros _. now rewrite (ToString_throws v e H).
Qed.
(** * Reasoning about runs *)

#[local] Arguments lit : simpl never.
#[local] Arguments get : simpl never.
#[local] Arguments get_optional : simpl never.
#[local] Arguments get_index : simpl never.
#[local] Arguments titles_or_empty : simpl never.
#[local] Arguments ToString : simpl never.
#[local] Arguments encodeURIComponent : simpl never.
#[local] Arguments truthy : simpl never.
#[local] Arguments is_zero : simpl never.

(** Case analysis on whatever the goal branches on next. *)
Ltac branch :=
  match goal with
  | |- context [match ?x with _ => _ end] =>
      match type of x with
      | Completion _ => destruct x eqn:?
      | bool => destruct x eqn:?
      | option _ => destruct x eqn:?
      | Reply => destruct x
      end
  end.

Ltac singleton_call Hi :=
  match type of Hi with
  | nth_error [_] ?i = Some _ =>
      destruct i as [| [| ?]]; cbn in Hi; try discriminate Hi;
      injection Hi as <-
  end.

(** ** One rule for each construct of the async code *)

Section Rules.
Variable E : Call -> Reply -> Prop.
Variable K : Call -> Prop.

Lemma issues_refl w : issues K w w.
Proof. exists []. split; [now rewrite app_nil_r | constructor]. Qed.

Lemma issues_trans w1 w2 w3 :
  issues K w1 w2 -> issues K w2 w3 -> issues K w1 w3.
Proof.
  intros [l1 [H1 F1]] [l2 [H2 F2]]. exists (l1 ++ l2). split.
  - now rewrite H2, H1, app_assoc.
  - apply Forall_app; now split.
Qed.

Lemma issues_same_calls w w' : calls w' = calls w -> issues K w w'.
Proof.
  intros H. exists []. split; [now rewrite H, app_nil_r | constructor].
Qed.

Lemma issues_issue c w : K c -> issues K w (issue c w).
Proof. intros H. exists [c]. split; [reflexivity | now constructor]. Qed.

Lemma Runs_weaken {A} (P Q : Completion A -> Prop) p :
  Runs E K P p -> (forall c, P c -> Q c) -> Runs E K Q p.
Proof.
  intros H HPQ. induction H as [c Hc | reqs resume Hne Hiss Hrun IH].
  - apply Runs_settled; auto.
  - apply Runs_pending; auto.
Qed.

Lemma Starts_weaken {A} (P Q : Completion A -> Prop) a w :
  Starts E K P a w -> (forall c, P c -> Q c) -> Starts E K Q a w.
Proof. intros [Hi Hr] HPQ. split; [exact Hi | eapply Runs_weaken; eauto]. Qed.

Lemma then_rule {A B} (Q : Completion A -> Prop) (P : Completion B -> Prop)
    (p : Promise A) (f : A -> Async B) :
  Runs E K Q p ->
  (forall a, Q (Normal a) -> forall w, Starts E K P (f a) w) ->
  (forall e, Q (Throw e) -> P (Throw e)) ->
  forall w, Starts E K P (then_ p f) w.
Proof.
  intros Hp Hf He.
  induction Hp as [c Hc | reqs resume Hne Hiss Hrun IH]; intros w.
  - destruct c as [a | e]; cbn.
    + now apply Hf.
    + split; [apply issues_refl | apply Runs_settled; auto].
  - split; [apply issues_refl |].
    cbn. apply Runs_pending; [exact Hne | |]; intros i c r w' Hi Hr.
    + specialize (Hiss i c r w' Hi Hr). specialize (IH i c r w' Hi Hr).
      destruct (resume i r w') as [p' w'']; cbn in *.
      eapply issues_trans; [exact Hiss | apply IH].
    + specialize (IH i c r w' Hi Hr).
      destruct (resume i r w') as [p' w'']; cbn in *. apply IH.
Qed.

Lemma bind_rule {A B} (Q : Completion A -> Prop) (P : Completion B -> Prop)
    (a : Async A) (f : A -> Async B) w :
  Starts E K Q a w ->
  (forall x, Q (Normal x) -> forall w', Starts E K P (f x) w') ->
  (forall e, Q (Throw e) -> P (Throw e)) ->
  Starts E K P (bind a f) w.
Proof.
  intros [Hi Hr] Hf He. unfold Starts, bind.
  destruct (a w) as [p w1]; cbn in *.
  destruct (then_rule Q P p f Hr Hf He w1) as [Hi' Hr'].
  split; [eapply issues_trans; eauto | exact Hr'].
Qed.

Lemma catch_rule {A} (Q P : Completion A -> Prop) (p : Promise A)
    (h : JsError -> Async A) :
  Runs E K Q p ->
  (forall a, Q (Normal a) -> P (Normal a)) ->
  (forall e, Q (Throw e) -> forall w, Starts E K P (h e) w) ->
  forall w, Starts E K P (catch_ p h) w.
Proof.
  intros Hp Hn Hh.
  induction Hp as [c Hc | reqs resume Hne Hiss Hrun IH]; intros w.
  - destruct c as [a | e]; cbn.
    + split; [apply issues_refl | apply Runs_settled; auto].
    + now apply Hh.
  - split; [apply issues_refl |].
    cbn. apply Runs_pending; [exact Hne | |]; intros i c r w' Hi Hr.
    + specialize (Hiss i c r w' Hi Hr). specialize (IH i c r w' Hi Hr).
      destruct (resume i r w') as [p' w'']; cbn in *.
      eapply issues_trans; [exact Hiss | apply IH].
    + specialize (IH i c r w' Hi Hr).
      destruct (resume i r w') as [p' w'']; cbn in *. apply IH.
Qed.

Lemma try_catch_rule {A} (Q P : Completion A -> Prop) (body : Async A)
    (h : JsError -> Async A) w :
  Starts E K Q body w ->
  (forall a, Q (Normal a) -> P (Normal a)) ->
  (forall e, Q (Throw e) -> forall w', Starts E K P (h e) w') ->
  Starts E K P (try_catch body h) w.
Proof.
  intros [Hi Hr] Hn Hh. unfold Starts, try_catch.
  destruct (body w) as [p w1]; cbn in *.
  destruct (catch_rule Q P p h Hr Hn Hh w1) as [Hi' Hr'].
  split; [eapply issues_trans; eauto | exact Hr'].
Qed.

Lemma complete_rule {A} (P : Completion A -> Prop) (c : Completion A) w :
  P c -> Starts E K P (complete c) w.
Proof. intros H. split; [apply issues_refl | now apply Runs_settled]. Qed.

Lemma fetch_rule (c : Call) w :
  K c -> Starts E K (fun x => exists r, E c r /\ x = fetched r) (fetch c) w.
Proof.
  intros Hk. split; cbn.
  - now apply issues_issue.
  - apply Runs_pending; [discriminate | |]; intros i c' r w' Hi Hr; cbn.
    + apply issues_refl.
    + apply Runs_settled. exists r. split; [| reflexivity].
      destruct i as [| i]; cbn in Hi; [now injection Hi as <- |].
      now destruct i.
Qed.
End Rules.

(** ** Promises awaited together *)

Section Joining.
Variable E : Call -> Reply -> Prop.
Variable K : Call -> Prop.

Lemma par_eq {A B} (p : Promise A) (q : Promise B) :
  par p q =
  match p, q with
  | Settled (Throw e), _ => Settled (Throw e)
  | _, Settled (Throw e) => Settled (Throw e)
  | Settled (Normal a), Settled (Normal b) => Settled (Normal (a, b))
  | Settled (Normal a), Pending rq kq =>
      Pending rq (fun i r w => let (q', w') := kq i r w in (par p q', w'))
  | Pending rp kp, Settled (Normal b) =>
      Pending rp (fun i r w => let (p', w') := kp i r w in (par p' q, w'))
  | Pending rp kp, Pending rq kq =>
      Pending (rp ++ rq)
        (fun i r w =>
           if (i <? List.length rp)%nat
           then let (p', w') := kp i r w in (par p' q, w')
           else let (q', w') := kq (i - List.length rp)%nat r w in
                (par p q', w'))
  end.
Proof. destruct p as [[a | e] | rp kp], q as [[b | e'] | rq kq]; reflexivity. Qed.

Lemma par_rule {A B} (P : Completion A -> Prop) (Q : Completion B -> Prop)
    (p : Promise A) (q : Promise B) :
  Runs E K P p -> Runs E K Q q -> Runs E K (both P Q) (par p q).
Proof.
  intros Hp. revert q.
  induction Hp as [c Hc | rp kp Hne Hiss Hrun IHp]; intros q Hq.
  - induction Hq as [d Hd | rq kq Hne Hiss Hrun IHq]; rewrite par_eq.
    + destruct c as [a | e]; [destruct d as [b | e] |];
        apply Runs_settled; cbn; auto.
    + destruct c as [a | e]; [| apply Runs_settled; cbn; auto].
      apply Runs_pending; [exact Hne | |]; intros i c r w Hi Hr.
      * specialize (Hiss i c r w Hi Hr).
        destruct (kq i r w) as [q' w']; exact Hiss.
      * specialize (IHq i c r w Hi Hr).
        destruct (kq i r w) as [q' w']; exact IHq.
  - assert (Hpend : Runs E K P (Pending rp kp))
      by (apply Runs_pending; assumption).
    induction Hq as [d Hd | rq kq Hneq Hissq Hrunq IHq]; rewrite par_eq.
    + destruct d as [b | e]; [| apply Runs_settled; cbn; auto].
      apply Runs_pending; [exact Hne | |]; intros i c r w Hi Hr.
      * specialize (Hiss i c r w Hi Hr).
        destruct (kp i r w) as [p' w']; exact Hiss.
      * specialize (IHp i c r w Hi Hr (Settled (Normal b))).
        destruct (kp i r w) as [p' w']. apply IHp.
        now apply Runs_settled.
    + apply Runs_pending.
      * destruct rp; [contradiction | discriminate].
      * intros i c r w Hi Hr.
        destruct (Nat.ltb_spec i (List.length rp)) as [Hlt | Hge].
        -- rewrite nth_error_app1 in Hi by exact Hlt.
           specialize (Hiss i c r w Hi Hr).
           destruct (kp i r w) as [p' w']; exact Hiss.
        -- rewrite nth_error_app2 in Hi by exact Hge.
           specialize (Hissq _ c r w Hi Hr).
           destruct (kq _ r w) as [q' w']; exact Hissq.
      * intros i c r w Hi Hr.
        destruct (Nat.ltb_spec i (List.length rp)) as [Hlt | Hge].
        -- rewrite nth_error_app1 in Hi by exact Hlt.
           specialize (IHp i c r w Hi Hr (Pending rq kq)).
           destruct (kp i r w) as [p' w']. apply IHp.
           now apply Runs_pending.
        -- rewrite nth_error_app2 in Hi by exact Hge.
           specialize (IHq _ c r w Hi Hr).
           destruct (kq _ r w) as [q' w']; exact IHq.
Qed.

Lemma pmap_rule {A B} (f : A -> B) (P : Completion A -> Prop)
    (Q : Completion B -> Prop) (p : Promise A) :
  Runs E K P p ->
  (forall a, P (Normal a) -> Q (Normal (f a))) ->
  (forall e, P (Throw e) -> Q (Throw e)) ->
  Runs E K Q (pmap f p).
Proof.
  intros Hp Hn He.
  induction Hp as [c Hc | reqs resume Hne Hiss Hrun IH]; cbn.
  - destruct c; apply Runs_settled; auto.
  - apply Runs_pending; [exact Hne | |]; intros i c r w Hi Hr.
    + specialize (Hiss i c r w Hi Hr).
      destruct (resume i r w) as [p' w']; exact Hiss.
    + specialize (IH i c r w Hi Hr).
      destruct (resume i r w) as [p' w']; exact IH.
Qed.

(** [Promise.all] of promises that are all fulfilled, the one started for
    [x] with a value in [R x]: fulfilled with one value per [x], in the
    order of the list. *)
Lemma Promise_all_rule {X A} (R : X -> A -> Prop) (xs : list X)
    (ps : list (Promise A)) :
  Forall2 (fun x p => Runs E K (Fulfils (R x)) p) xs ps ->
  Runs E K (Fulfils (Forall2 R xs)) (Promise_all ps).
Proof.
  induction 1 as [| x p xs ps Hp _ IH]; cbn.
  - apply Runs_settled. exists []. split; [reflexivity | constructor].
  - eapply pmap_rule; [apply (par_rule _ _ _ _ Hp IH) | |].
    + intros [a l] [[a' [Ha Ra]] [l' [Hl Rl]]]; cbn in *.
      injection Ha as <-. injection Hl as <-.
      exists (a :: l). split; [reflexivity | now constructor].
    + intros e [[a [Ha _]] | [l [Hl _]]]; discriminate.
Qed.

Lemma start_each_rule {X A} (R : X -> A -> Prop) (f : X -> Async A)
    (xs : list X) :
  (forall x, In x xs -> forall w, Starts E K (Fulfils (R x)) (f x) w) ->
  forall w,
    issues K w (snd (start_each f xs w)) /\
    Forall2 (fun x p => Runs E K (Fulfils (R x)) p) xs
            (fst (start_each f xs w)).
Proof.
  induction xs as [| x xs IH]; intros Hf w; cbn.
  - split; [apply issues_refl | constructor].
  - destruct (Hf x (or_introl eq_refl) w) as [Hi Hr].
    destruct (f x w) as [p w1]; cbn in *.
    destruct (IH (fun y Hy => Hf y (or_intror Hy)) w1) as [Hi' Hr'].
    destruct (start_each f xs w1) as [ps w2]; cbn in *.
    split; [eapply issues_trans; eauto | now constructor].
Qed.

Lemma all_of_rule {X A} (R : X -> A -> Prop) (f : X -> Async A)
    (xs : list X) :
  (forall x, In x xs -> forall w, Starts E K (Fulfils (R x)) (f x) w) ->
  forall w, Starts E K (Fulfils (Forall2 R xs)) (all_of f xs) w.
Proof.
  intros Hf w. unfold Starts, all_of.
  destruct (start_each_rule R f xs Hf w) as [Hi Hr].
  destruct (start_each f xs w) as [ps w']; cbn in *.
  split; [exact Hi | now apply Promise_all_rule].
Qed.

Lemma all3_rule {A B C} (P : Completion A -> Prop) (Q : Completion B -> Prop)
    (R : Completion C -> Prop) (a : Async A) (b : Async B) (c : Async C) w :
  Starts E K P a w ->
  (forall w', Starts E K Q b w') ->
  Starts E K R c (snd (b (snd (a w)))) ->
  Starts E K (both P (both Q R)) (all3 a b c) w.
Proof.
  intros [Hia Hra] Hb Hc. unfold Starts, all3.
  destruct (a w) as [pa w1]; cbn in *.
  destruct (Hb w1) as [Hib Hrb].
  destruct (b w1) as [pb w2]; cbn in *.
  destruct Hc as [Hic Hrc].
  destruct (c w2) as [pc w3]; cbn in *.
  split.
  - eapply issues_trans; [exact Hia |]. eapply issues_trans; eauto.
  - apply par_rule; [exact Hra |]. now apply par_rule.
Qed.

(** [Promise.all] of promises that may be rejected. *)
Lemma Promise_all_every {X A} (P : X -> Completion A -> Prop) (xs : list X)
    (ps : list (Promise A)) :
  Forall2 (fun x p => Runs E K (P x) p) xs ps ->
  Runs E K (every P xs) (Promise_all ps).
Proof.
  induction 1 as [| x p xs ps Hp _ IH]; cbn.
  - apply Runs_settled. constructor.
  - eapply pmap_rule; [apply (par_rule _ _ _ _ Hp IH) | |].
    + intros [a l] [Ha Hl]; cbn in *. now constructor.
    + intros e [He | He]; cbn; [now left | now right].
Qed.

Lemma start_each_every {X A} (P : X -> Completion A -> Prop) (f : X -> Async A)
    (xs : list X) :
  (forall x, In x xs -> forall w, Starts E K (P x) (f x) w) ->
  forall w,
    issues K w (snd (start_each f xs w)) /\
    Forall2 (fun x p => Runs E K (P x) p) xs (fst (start_each f xs w)).
Proof.
  induction xs as [| x xs IH]; intros Hf w; cbn.
  - split; [apply issues_refl | constructor].
  - destruct (Hf x (or_introl eq_refl) w) as [Hi Hr].
    destruct (f x w) as [p w1]; cbn in *.
    destruct (IH (fun y Hy => Hf y (or_intror Hy)) w1) as [Hi' Hr'].
    destruct (start_each f xs w1) as [ps w2]; cbn in *.
    split; [eapply issues_trans; eauto | now constructor].
Qed.

Lemma all_of_every {X A} (P : X -> Completion A -> Prop) (f : X -> Async A)
    (xs : list X) :
  (forall x, In x xs -> forall w, Starts E K (P x) (f x) w) ->
  forall w, Starts E K (every P xs) (all_of f xs) w.
Proof.
  intros Hf w. unfold Starts, all_of.
  destruct (start_each_every P f xs Hf w) as [Hi Hr].
  destruct (start_each f xs w) as [ps w']; cbn in *.
  split; [exact Hi | now apply Promise_all_every].
Qed.
End Joining.
(** ** The clients, one call at a time *)

Section Clients.
Variable E : Call -> Reply -> Prop.
Variable K : Call -> Prop.

Lemma searchYouTubeVideos_rule query q key n :
  encodeURIComponent query = Some q ->
  K (YouTubeSearch q n key) ->
  forall w,
    Starts E K
      (Fulfils (fun l => exists r, E (YouTubeSearch q n key) r /\ l = searched r))
      (searchYouTubeVideos query key n) w.
Proof.
  intros Henc Hk w. unfold searchYouTubeVideos. rewrite Henc.
  split; cbn; [now apply issues_issue |].
  apply Runs_pending; [discriminate | |]; intros i c r w' Hi Hr;
    singleton_call Hi.
  - destruct r as [| [|] st [v |]]; cbn; repeat (branch; cbn);
      apply issues_refl.
  - assert (Hs : forall l, l = searched r ->
              Fulfils (fun l => exists r, E (YouTubeSearch q n key) r /\ l = searched r)
                      (Normal l)).
    { intros l ->. exists (searched r). split; [reflexivity |]. now exists r. }
    destruct r as [| [|] st [v |]]; cbn; unfold searched in Hs; cbn in Hs;
      repeat (branch; cbn); apply Runs_settled, Hs; reflexivity.
Qed.

Lemma bind_complete {A B} (c : Completion A) (f : A -> Async B) w :
  bind (complete c) f w
  = match c with
    | Normal a => f a w
    | Throw e => (Settled (Throw e), w)
    end.
Proof. destruct c; reflexivity. Qed.

(** The two calls of [getChannelVideos]: the search for the encoded name,
    and the listing for the id read from the reply to it. *)
Lemma getChannelVideos_exact ch key n :
  (forall name q, ToString ch = Normal name ->
                  encodeURIComponent name = Some q ->
                  K (YouTubeChannelSearch q key)) ->
  (forall name q r id idtext,
     ToString ch = Normal name -> encodeURIComponent name = Some q ->
     E (YouTubeChannelSearch q key) r ->
     channel_id r = Normal (Some id) -> ToString id = Normal idtext ->
     K (YouTubeChannelVideos idtext n key)) ->
  forall w,
    Starts E K (channel_completion E key n ch) (getChannelVideos ch key n) w.
Proof.
  intros Hk1 Hk2 w. unfold getChannelVideos, channel_completion.
  destruct (ToString ch) as [name | e] eqn:Hch.
  2:{ split; cbn; [apply issues_refl | now apply Runs_settled]. }
  unfold channel_listing, Starts, try_catch. rewrite bind_complete.
  cbv beta iota.
  destruct (encodeURIComponent name) as [q |] eqn:Henc.
  2:{ split; cbn; [apply issues_refl |].
      apply Runs_settled. now exists []. }
  specialize (Hk1 name q eq_refl Henc).
  specialize (Hk2 name q).
  split; cbn; [now apply issues_issue |].
  apply Runs_pending; [discriminate | |]; intros i c r w' Hi Hr;
    singleton_call Hi.
  - assert (Hk : forall id idtext,
              channel_id r = Normal (Some id) -> ToString id = Normal idtext ->
              K (YouTubeChannelVideos idtext n key))
      by (intros id idtext; now apply (Hk2 r id idtext)).
    clear Hk2.
    destruct r as [| o st [v |]]; cbn; unfold channel_id in Hk; cbn in Hk;
      repeat (branch; cbn in * ); try apply issues_refl.
    apply issues_issue. eapply Hk; [reflexivity | eassumption].
  - assert (Hs : forall l,
              match channel_id r with
              | Normal (Some id) =>
                  match ToString id with
                  | Normal idtext =>
                      exists r2, E (YouTubeChannelVideos idtext n key) r2
                                 /\ l = listed r2
                  | Throw _ => l = []
                  end
              | _ => l = []
              end ->
              Fulfils
                (fun vs => exists r1, E (YouTubeChannelSearch q key) r1 /\
                   match channel_id r1 with
                   | Normal (Some id) =>
                       match ToString id with
                       | Normal idtext =>
                           exists r2, E (YouTubeChannelVideos idtext n key) r2
                                      /\ vs = listed r2
                       | Throw _ => vs = []
                       end
                   | _ => vs = []
                   end) (Normal l)).
    { intros l Hl. exists l. split; [reflexivity |]. now exists r. }
    clear Hk1 Hk2.
    destruct r as [| o st [v |]]; cbn; unfold channel_id in Hs; cbn in Hs;
      repeat (branch; cbn in * ); try (apply Runs_settled, Hs; reflexivity).
    apply Runs_pending; [discriminate | |]; intros i c r2 w2 Hi Hr2;
      singleton_call Hi.
    + destruct r2 as [| o2 st2 [v2 |]]; cbn; repeat (branch; cbn);
        apply issues_refl.
    + assert (Hs2 : forall l, l = listed r2 ->
                Fulfils
                  (fun vs => exists r1, E (YouTubeChannelSearch q key) r1 /\
                     match channel_id r1 with
                     | Normal (Some id) =>
                         match ToString id with
                         | Normal idtext =>
                             exists r2, E (YouTubeChannelVideos idtext n key) r2
                                        /\ vs = listed r2
                         | Throw _ => vs = []
                         end
                     | _ => vs = []
                     end) (Normal l)).
      { intros l ->. apply Hs. now exists r2. }
      destruct r2 as [| o2 st2 [v2 |]]; cbn; unfold listed in Hs2;
        cbn in Hs2; repeat (branch; cbn in * ); apply Runs_settled, Hs2; reflexivity.
Qed.
Lemma getRedditAccessToken_fresh clientId clientSecret w :
  fresh w = true ->
  getRedditAccessToken clientId clientSecret w
  = (Settled (Normal (value (redditToken w))), w).
Proof.
  unfold fresh, getRedditAccessToken, bind. cbn. intros ->. reflexivity.
Qed.

(** When the cache is not fresh the call is issued; when it comes back,
    the token is stored with the clock of that moment, or [null] is
    returned and nothing is stored. *)
Lemma getRedditAccessToken_stale clientId clientSecret w :
  fresh w = false ->
  exists resume,
    getRedditAccessToken clientId clientSecret w
    = (Pending [RedditAccessToken clientId clientSecret] resume,
       issue (RedditAccessToken clientId clientSecret) w)
    /\ forall i r w',
         resume i r w' =
         match access_token r with
         | Normal t =>
             (Settled (Normal t),
              set_redditToken
                {| value := t; expires := clock w' + 50 * 60 * 1000 |} w')
         | Throw _ => (Settled (Normal JNull), w')
         end.
Proof.
  unfold fresh, getRedditAccessToken, bind. cbn. intros ->. cbn.
  eexists. split; [reflexivity |].
  intros i r w'. unfold access_token.
  destruct r as [| o st [v |]]; cbn; repeat (branch; cbn); reflexivity.
Qed.

Lemma getRedditAccessToken_rule clientId clientSecret w :
  (fresh w = false -> K (RedditAccessToken clientId clientSecret)) ->
  Starts E K (Fulfils (token_in E clientId clientSecret w))
         (getRedditAccessToken clientId clientSecret) w.
Proof.
  intros Hk. unfold token_in, Starts. destruct (fresh w) eqn:Hf.
  - rewrite getRedditAccessToken_fresh by exact Hf.
    split; [apply issues_refl |]. apply Runs_settled. now eexists.
  - destruct (getRedditAccessToken_stale clientId clientSecret w Hf)
      as [resume [-> Hres]].
    split; cbn; [now apply issues_issue; auto |].
    apply Runs_pending; [discriminate | |]; intros i c r w' Hi Hr;
      singleton_call Hi; rewrite Hres.
    + destruct (access_token r); cbn; now apply issues_same_calls.
    + unfold token_of.
      destruct (access_token r) eqn:Ha; cbn; apply Runs_settled;
        eexists; (split; [reflexivity |]); exists r; rewrite Ha; auto.
Qed.

Lemma getSubredditPosts_rule sub token n :
  (forall name bearer, ToString sub = Normal name ->
                       ToString token = Normal bearer ->
                       K (RedditHot name n bearer)) ->
  forall w,
    Starts E K (posts_completion E n sub token)
           (getSubredditPosts sub token n) w.
Proof.
  intros Hk w. unfold getSubredditPosts, posts_completion, Starts.
  rewrite bind_complete.
  destruct (ToString sub) as [name | e] eqn:Hsub.
  2:{ split; cbn; [apply issues_refl | now apply Runs_settled]. }
  rewrite bind_complete.
  destruct (ToString token) as [bearer | e] eqn:Htok.
  2:{ split; cbn; [apply issues_refl | now apply Runs_settled]. }
  specialize (Hk name bearer eq_refl eq_refl).
  split; cbn; [now apply issues_issue |].
  apply Runs_pending; [discriminate | |]; intros i c r w' Hi Hr;
    singleton_call Hi.
  - destruct r as [| o st [v |]]; cbn; repeat (branch; cbn);
      apply issues_refl.
  - assert (Hs : forall l, l = hot r ->
              Fulfils (fun l => exists r,
                         E (RedditHot name n bearer) r /\ l = hot r)
                      (Normal l)).
    { intros l ->. exists (hot r). split; [reflexivity |]. now exists r. }
    destruct r as [| o st [v |]]; cbn; unfold hot in Hs; cbn in Hs;
      repeat (branch; cbn in * ); apply Runs_settled, Hs; reflexivity.
Qed.

Lemma callGeminiAPI_rule prompt key :
  K (GeminiGenerate prompt key) ->
  forall w,
    Starts E K
      (fun c => exists r, E (GeminiGenerate prompt key) r /\ c = generation r)
      (callGeminiAPI prompt key) w.
Proof.
  intros Hk w. unfold callGeminiAPI.
  split; cbn; [now apply issues_issue |].
  apply Runs_pending; [discriminate | |]; intros i c r w' Hi Hr;
    singleton_call Hi.
  - destruct r as [| [|] st [v |]]; cbn; repeat (branch; cbn);
      apply issues_refl.
  - assert (Hs : forall c, c = generation r ->
              exists r, E (GeminiGenerate prompt key) r /\ c = generation r)
      by (intros c ->; now exists r).
    destruct r as [| [|] st [v |]]; cbn; unfold generation, gemini_text in Hs;
      cbn in Hs; repeat (branch; cbn in * ); apply Runs_settled, Hs;
      reflexivity.
Qed.
End Clients.

(** ** The collection *)

Section Orchestration.
Variable E : Call -> Reply -> Prop.
Variable K : Call -> Prop.

Lemma channel_videos_exact key ch :
  (forall name q, ToString ch = Normal name ->
                  encodeURIComponent name = Some q ->
                  K (YouTubeChannelSearch q key)) ->
  (forall name q r id idtext,
     ToString ch = Normal name -> encodeURIComponent name = Some q ->
     E (YouTubeChannelSearch q key) r ->
     channel_id r = Normal (Some id) -> ToString id = Normal idtext ->
     K (YouTubeChannelVideos idtext 3 key)) ->
  forall w,
    Starts E K
      (fun c => match ToString ch with
                | Normal _ => Fulfils (channel_result_in E key ch) c
                | Throw e => c = Throw e
                end)
      (channel_videos key ch) w.
Proof.
  intros Hk1 Hk2 w. unfold channel_videos.
  eapply bind_rule.
  - now apply getChannelVideos_exact.
  - unfold channel_completion. intros vs Hvs w'. apply complete_rule.
    destruct (ToString ch) as [name | e] eqn:Hch; [| discriminate].
    destruct Hvs as [vs' [Hv Hl]]. injection Hv as <-.
    eexists. split; [reflexivity |]. split; [reflexivity |]. now exists name.
  - unfold channel_completion. intros e He.
    destruct (ToString ch) as [name | e']; [| congruence].
    destruct He as [vs [Hv _]]. discriminate.
Qed.

(** [Promise.all] over elements that are rejected exactly when they cannot
    be converted to a string. *)
Lemma every_convertible {X A} (conv : X -> bool) (R : X -> A -> Prop)
    (P : X -> Completion A -> Prop) xs c :
  (forall x a, P x (Normal a) -> conv x = true /\ R x a) ->
  (forall x e, P x (Throw e) -> conv x = false /\ e = cannot_convert) ->
  every P xs c ->
  if forallb conv xs then Fulfils (Forall2 R xs) c
  else c = Throw cannot_convert.
Proof.
  intros Hn Ht. destruct c as [l | e]; cbn.
  - intros H.
    assert (Hall : forallb conv xs = true /\ Forall2 R xs l).
    { induction H as [| x a xs l Hx _ [IH1 IH2]]; cbn; [now split |].
      destruct (Hn x a Hx) as [-> Hr]. split; [exact IH1 | now constructor]. }
    destruct Hall as [-> Hall]. now exists l.
  - intros H.
    assert (Hall : forallb conv xs = false /\ e = cannot_convert).
    { induction H as [x xs Hx | x xs _ [IH1 IH2]]; cbn.
      - destruct (Ht x e Hx) as [-> ->]. now split.
      - rewrite IH1, andb_false_r. now split. }
    destruct Hall as [-> ->]. reflexivity.
Qed.

Lemma channels_rule key channels :
  (forall ch name q, In ch channels -> ToString ch = Normal name ->
                     encodeURIComponent name = Some q ->
                     K (YouTubeChannelSearch q key)) ->
  (forall ch name q r id idtext,
     In ch channels -> ToString ch = Normal name ->
     encodeURIComponent name = Some q ->
     E (YouTubeChannelSearch q key) r ->
     channel_id r = Normal (Some id) -> ToString id = Normal idtext ->
     K (YouTubeChannelVideos idtext 3 key)) ->
  forall w,
    Starts E K (channels_completion E key channels)
           (all_of (channel_videos key) channels) w.
Proof.
  intros Hk1 Hk2 w. eapply Starts_weaken.
  - apply (all_of_every E K
             (fun ch c => match ToString ch with
                          | Normal _ => Fulfils (channel_result_in E key ch) c
                          | Throw e => c = Throw e
                          end)).
    intros ch Hch w'. apply channel_videos_exact.
    + intros name q. now apply Hk1.
    + intros name q r id idtext. now apply Hk2.
  - intros c Hc. unfold channels_completion.
    eapply every_convertible; [| | exact Hc].
    + intros ch cr. unfold convertible.
      destruct (ToString ch); [| discriminate].
      intros [cr' [Hcr H]]. injection Hcr as <-. now split.
    + intros ch e. unfold convertible.
      destruct (ToString ch) as [name | e'] eqn:Hch.
      * intros [cr [Hcr _]]. discriminate.
      * intros [= <-]. split; [reflexivity |]. eapply ToString_throws, Hch.
Qed.

Lemma subreddit_posts_exact token sub :
  (forall name bearer, ToString sub = Normal name ->
                       ToString token = Normal bearer ->
                       K (RedditHot name 3 bearer)) ->
  forall w,
    Starts E K
      (fun c => if convertible sub && convertible token
                then Fulfils (community_result_in E token sub) c
                else c = Throw cannot_convert)
      (subreddit_posts token sub) w.
Proof.
  intros Hk w. unfold subreddit_posts.
  eapply bind_rule.
  - now apply getSubredditPosts_rule.
  - unfold posts_completion, convertible. intros l Hl w'. apply complete_rule.
    destruct (ToString sub) as [name | e] eqn:Hsub; [| discriminate].
    destruct (ToString token) as [bearer | e] eqn:Htok; [| discriminate].
    destruct Hl as [l' [Hl Hr]]. injection Hl as <-. cbn.
    eexists. split; [reflexivity |]. split; [reflexivity |].
    now exists name, bearer.
  - unfold posts_completion, convertible. intros e He.
    destruct (ToString sub) as [name | e'] eqn:Hsub.
    + destruct (ToString token) as [bearer | e''] eqn:Htok.
      * destruct He as [l [Hl _]]. discriminate.
      * injection He as <-. cbn. f_equal. eapply ToString_throws, Htok.
    + injection He as <-. cbn. f_equal. eapply ToString_throws, Hsub.
Qed.

Lemma reddit_branch_exact clientId clientSecret subs w :
  (fresh w = false -> K (RedditAccessToken clientId clientSecret)) ->
  (forall token sub name bearer,
     token_in E clientId clientSecret w token -> truthy token = true ->
     In sub subs -> ToString sub = Normal name ->
     ToString token = Normal bearer -> K (RedditHot name 3 bearer)) ->
  Starts E K (community_completion E clientId clientSecret subs w)
         (reddit_branch clientId clientSecret subs) w.
Proof.
  intros Hk1 Hk2. unfold reddit_branch.
  eapply bind_rule.
  - now apply getRedditAccessToken_rule.
  - intros token [token' [Ht Hin]] w'. injection Ht as <-.
    unfold community_completion.
    destruct (truthy token) eqn:Htr.
    + eapply Starts_weaken.
      * apply (all_of_every E K
                 (fun sub c =>
                    if convertible sub && convertible token
                    then Fulfils (community_result_in E token sub) c
                    else c = Throw cannot_convert)).
        intros sub Hsub w''. apply subreddit_posts_exact.
        intros name bearer. now apply (Hk2 token sub).
      * intros c Hc. exists token. split; [exact Hin |]. rewrite Htr.
        unfold listable.
        eapply (every_convertible
                  (fun sub => convertible sub && convertible token));
          [| | exact Hc]; cbn.
        -- intros sub cr. destruct (convertible sub && convertible token).
           ++ intros [cr' [Hcr H]]. injection Hcr as <-. now split.
           ++ intros Hcr. discriminate Hcr.
        -- intros sub e. destruct (convertible sub && convertible token).
           ++ intros [cr [Hcr _]]. discriminate.
           ++ intros [= <-]. now split.
    + apply complete_rule. exists token. split; [exact Hin |]. now rewrite Htr.
  - intros e [t [Ht _]]. discriminate.
Qed.

Lemma searchYouTubeVideos_quiet query key n :
  quiet (searchYouTubeVideos query key n).
Proof.
  intros w. unfold searchYouTubeVideos.
  destruct (encodeURIComponent query); cbn; auto.
Qed.

Lemma channel_videos_quiet key ch : quiet (channel_videos key ch).
Proof.
  intros w. remember (channel_videos key ch w) as r eqn:Hr.
  unfold channel_videos, getChannelVideos in Hr.
  unfold bind at 1 in Hr. unfold try_catch in Hr. rewrite bind_complete in Hr.
  destruct (ToString ch) as [name | e]; [| subst r; cbn; auto].
  destruct (encodeURIComponent name); subst r; cbn; auto.
Qed.

Lemma all_of_quiet {X A} (f : X -> Async A) xs :
  (forall x, quiet (f x)) -> quiet (all_of f xs).
Proof.
  intros Hf w. unfold all_of.
  assert (H : redditToken (snd (start_each f xs w)) = redditToken w
              /\ clock (snd (start_each f xs w)) = clock w).
  { revert w. induction xs as [| x xs IH]; intros w; cbn; [auto |].
    destruct (Hf x w) as [Ht Hc]. destruct (f x w) as [p w1]; cbn in *.
    destruct (IH w1) as [Ht' Hc'].
    destruct (start_each f xs w1) as [ps w2]; cbn in *.
    split; congruence. }
  destruct (start_each f xs w); exact H.
Qed.

Lemma token_in_frame clientId clientSecret w w' token :
  redditToken w' = redditToken w -> clock w' = clock w ->
  token_in E clientId clientSecret w' token ->
  token_in E clientId clientSecret w token.
Proof. unfold token_in, fresh. intros -> ->. auto. Qed.

Lemma community_completion_frame clientId clientSecret subs w w' c :
  redditToken w' = redditToken w -> clock w' = clock w ->
  community_completion E clientId clientSecret subs w' c ->
  community_completion E clientId clientSecret subs w c.
Proof.
  intros Ht Hc [token [Hin H]]. exists token. split; [| exact H].
  eapply token_in_frame; eauto.
Qed.

Lemma searchYouTubeVideos_start query key n :
  (forall q, encodeURIComponent query = Some q -> K (YouTubeSearch q n key)) ->
  forall w,
    Starts E K (search_completion E query n key)
      (searchYouTubeVideos query key n) w.
Proof.
  intros Hk w. unfold search_completion.
  destruct (encodeURIComponent query) as [q |] eqn:Henc.
  - apply searchYouTubeVideos_rule; auto.
  - unfold searchYouTubeVideos. rewrite Henc.
    split; [apply issues_refl | now apply Runs_settled].
Qed.

(** The three branches together, with the calls each of them issues.  No
    call is issued when the query cannot be converted to a string. *)
Lemma collectData_exact audience goal channels subs youtube clientId
    clientSecret w :
  (forall query q, query_text audience goal = Normal query ->
                   encodeURIComponent query = Some q ->
                   K (YouTubeSearch q 3 youtube)) ->
  (forall query ch name q,
     query_text audience goal = Normal query ->
     In ch channels -> ToString ch = Normal name ->
     encodeURIComponent name = Some q ->
     K (YouTubeChannelSearch q youtube)) ->
  (forall query ch name q r id idtext,
     query_text audience goal = Normal query ->
     In ch channels -> ToString ch = Normal name ->
     encodeURIComponent name = Some q ->
     E (YouTubeChannelSearch q youtube) r ->
     channel_id r = Normal (Some id) -> ToString id = Normal idtext ->
     K (YouTubeChannelVideos idtext 3 youtube)) ->
  (forall query, query_text audience goal = Normal query ->
                 fresh w = false -> K (RedditAccessToken clientId clientSecret)) ->
  (forall query token sub name bearer,
     query_text audience goal = Normal query ->
     token_in E clientId clientSecret w token -> truthy token = true ->
     In sub subs -> ToString sub = Normal name ->
     ToString token = Normal bearer -> K (RedditHot name 3 bearer)) ->
  Starts E K
    (collection E audience goal channels subs youtube clientId clientSecret w)
    (collectData audience goal channels subs youtube clientId clientSecret) w.
Proof.
  intros Hk1 Hk2 Hk2' Hk3 Hk4. unfold collectData, collection, Starts.
  rewrite bind_complete.
  destruct (query_text audience goal) as [query | e] eqn:Hquery.
  2: { split; [apply issues_refl | now apply Runs_settled]. }
  specialize (Hk1 query). specialize (Hk2 query). specialize (Hk2' query).
  specialize (Hk3 query eq_refl). specialize (Hk4 query).
  pose proof (searchYouTubeVideos_quiet query youtube 3 w) as [Ht1 Hc1].
  pose proof (all_of_quiet (channel_videos youtube) channels
                (channel_videos_quiet youtube)
                (snd (searchYouTubeVideos query youtube 3 w))) as [Ht2 Hc2].
  rewrite Ht1 in Ht2. rewrite Hc1 in Hc2.
  assert (Hfresh : fresh
            (snd (all_of (channel_videos youtube) channels
                    (snd (searchYouTubeVideos query youtube 3 w)))) = fresh w)
    by (unfold fresh; now rewrite Ht2, Hc2).
  assert (Hall : Starts E K
            (both (search_completion E query 3 youtube)
               (both (channels_completion E youtube channels)
                  (community_completion E clientId clientSecret subs w)))
            (all3 (searchYouTubeVideos query youtube 3)
                  (all_of (channel_videos youtube) channels)
                  (reddit_branch clientId clientSecret subs)) w).
  { apply all3_rule.
    - apply searchYouTubeVideos_start. intros q. now apply Hk1.
    - intros w'. apply channels_rule.
      + intros ch name q. now apply Hk2.
      + intros ch name q r id idtext. now apply Hk2'.
    - eapply Starts_weaken.
      + apply reddit_branch_exact.
        * rewrite Hfresh. exact Hk3.
        * intros token sub name bearer Hin. apply Hk4; [reflexivity |].
          eapply token_in_frame; [| | exact Hin]; auto.
      + intros c. apply community_completion_frame; auto. }
  destruct (encodeURIComponent query) as [q |] eqn:Henc.
  - eapply Starts_weaken; [exact Hall |].
    unfold search_completion. rewrite Henc.
    intros [[top [comp red]] | e]; cbn.
    + intros [[top' [Ht Htop]] [Hcomp Hred]]. injection Ht as <-.
      unfold collected_in; cbn. split; [exact Htop |]. split; [| exact Hred].
      unfold channels_completion in Hcomp.
      destruct (forallb convertible channels); [| discriminate].
      destruct Hcomp as [comp' [Hc Hcomp]]. now injection Hc as <-.
    + unfold collection_rejected.
      intros [[top [Ht _]] | [Hcomp | [token [Hin Hred]]]]; [discriminate | |].
      * unfold channels_completion in Hcomp.
        destruct (forallb convertible channels).
        -- destruct Hcomp as [comp [Hc _]]. discriminate.
        -- injection Hcomp as ->. auto.
      * destruct (truthy token) eqn:Htr; [| discriminate].
        destruct (listable token subs) eqn:Hl.
        -- destruct Hred as [red [Hr _]]. discriminate.
        -- injection Hred as ->. split; [reflexivity |]. right.
           now exists token.
  - destruct Hall as [Hiss _]. split; [exact Hiss |].
    unfold all3, searchYouTubeVideos. rewrite Henc. cbn [throw].
    destruct (all_of (channel_videos youtube) channels w) as [pb w2].
    destruct (reddit_branch clientId clientSecret subs w2) as [pc w3].
    cbn [fst]. rewrite par_eq. now apply Runs_settled.
Qed.
End Orchestration.

(** ** The handler, from the request to the answer *)

Section Handler.
Variable E : Call -> Reply -> Prop.
Variable K : Call -> Prop.

Lemma get_fields req k : get (fields req) k = Normal (field req k).
Proof.
  unfold field, fields, get, truthy.
  destruct (body req) as [| | [|] | n | s | l | ms]; try reflexivity.
  - destruct (negb (is_zero_number n)); reflexivity.
  - destruct (negb (is_empty s)); reflexivity.
Qed.

Lemma handler_POST req env w :
  method req = lit "POST" ->
  handler req env w =
  try_catch
    (if negb (valid req) then ret invalid_body
     else
       match configured (YOUTUBE_API_KEY env),
             configured (REDDIT_CLIENT_ID env),
             configured (REDDIT_CLIENT_SECRET env),
             configured (GEMINI_API_KEY env) with
       | Some youtube, Some clientId, Some clientSecret, Some gemini =>
           await collected <-
             collectData (field req "audience") (field req "goal")
               (channels_of req) (subreddits_of req)
               youtube clientId clientSecret ;;
           await prompt <-
             complete (masterPrompt (field req "audience") (field req "goal")
                                    collected) ;;
           await geminiResponse <- callGeminiAPI prompt gemini ;;
           ret (success geminiResponse)
       | _, _, _, _ => ret configuration_error
       end)
    (fun error => ret (internal_error error)) w.
Proof.
  intros Hm. unfold handler. rewrite Hm.
  change (jsstring_eqb (lit "POST") (lit "OPTIONS")) with false.
  change (jsstring_eqb (lit "POST") (lit "POST")) with true.
  cbn [negb]. unfold try_catch, bind at 1 2 3 4.
  rewrite !get_fields. cbn [complete then_].
  unfold valid, channels_of, subreddits_of.
  rewrite !negb_andb. rewrite <- !orb_assoc.
  reflexivity.
Qed.

Lemma handler_invalid req env w :
  method req = lit "POST" -> valid req = false ->
  handler req env w = (Settled (Normal invalid_body), w).
Proof.
  intros Hm Hv. rewrite handler_POST by exact Hm. rewrite Hv. reflexivity.
Qed.

Lemma handler_unconfigured req env w :
  method req = lit "POST" -> valid req = true ->
  configured (YOUTUBE_API_KEY env) = None
  \/ configured (REDDIT_CLIENT_ID env) = None
  \/ configured (REDDIT_CLIENT_SECRET env) = None
  \/ configured (GEMINI_API_KEY env) = None ->
  handler req env w = (Settled (Normal configuration_error), w).
Proof.
  intros Hm Hv Hc. rewrite handler_POST by exact Hm. rewrite Hv. cbn [negb].
  destruct (configured (YOUTUBE_API_KEY env)),
           (configured (REDDIT_CLIENT_ID env)),
           (configured (REDDIT_CLIENT_SECRET env)),
           (configured (GEMINI_API_KEY env));
    try reflexivity.
  destruct Hc as [H | [H | [H | H]]]; discriminate.
Qed.

Lemma handler_exact req env youtube clientId clientSecret gemini w :
  method req = lit "POST" -> valid req = true ->
  configured (YOUTUBE_API_KEY env) = Some youtube ->
  configured (REDDIT_CLIENT_ID env) = Some clientId ->
  configured (REDDIT_CLIENT_SECRET env) = Some clientSecret ->
  configured (GEMINI_API_KEY env) = Some gemini ->
  (forall query q, query_of req = Normal query ->
                   encodeURIComponent query = Some q ->
                   K (YouTubeSearch q 3 youtube)) ->
  (forall query ch name q,
     query_of req = Normal query ->
     In ch (channels_of req) -> ToString ch = Normal name ->
     encodeURIComponent name = Some q ->
     K (YouTubeChannelSearch q youtube)) ->
  (forall query ch name q r id idtext,
     query_of req = Normal query ->
     In ch (channels_of req) -> ToString ch = Normal name ->
     encodeURIComponent name = Some q ->
     E (YouTubeChannelSearch q youtube) r ->
     channel_id r = Normal (Some id) -> ToString id = Normal idtext ->
     K (YouTubeChannelVideos idtext 3 youtube)) ->
  (forall query, query_of req = Normal query -> fresh w = false ->
                 K (RedditAccessToken clientId clientSecret)) ->
  (forall query token sub name bearer,
     query_of req = Normal query ->
     token_in E clientId clientSecret w token -> truthy token = true ->
     In sub (subreddits_of req) -> ToString sub = Normal name ->
     ToString token = Normal bearer -> K (RedditHot name 3 bearer)) ->
  (forall query q d prompt,
     query_of req = Normal query -> encodeURIComponent query = Some q ->
     collected_in E q (channels_of req) (subreddits_of req)
                  youtube clientId clientSecret w d ->
     masterPrompt (field req "audience") (field req "goal") d = Normal prompt ->
     K (GeminiGenerate prompt gemini)) ->
  Starts E K
    (Fulfils (response_in E req youtube clientId clientSecret gemini w))
    (handler req env) w.
Proof.
  intros Hm Hv Hy Hi Hs Hg Hk1 Hk2 Hk2' Hk3 Hk4 Hk5.
  unfold Starts. rewrite handler_POST by exact Hm.
  rewrite Hv, Hy, Hi, Hs, Hg. cbn [negb]. fold (@Starts E K).
  apply (try_catch_rule E K
           (attempt E req youtube clientId clientSecret gemini w)).
  - eapply bind_rule.
    + apply collectData_exact; assumption.
    + unfold collection. fold (query_of req). intros d Hd w'.
      destruct (query_of req) as [query | e] eqn:Hquery; [| discriminate].
      destruct (encodeURIComponent query) as [q |] eqn:Hq; [| discriminate].
      assert (Hatt : forall c,
                match masterPrompt (field req "audience")
                                   (field req "goal") d with
                | Normal prompt =>
                    exists r, E (GeminiGenerate prompt gemini) r
                              /\ c = match generation r with
                                     | Normal t => Normal (success t)
                                     | Throw e => Throw e
                                     end
                | Throw e => c = Throw e
                end ->
                attempt E req youtube clientId clientSecret gemini w c).
      { intros c Hc. unfold attempt. rewrite Hquery, Hq. right.
        exists d. split; [exact Hd | exact Hc]. }
      unfold Starts. rewrite bind_complete. fold (@Starts E K).
      destruct (masterPrompt (field req "audience") (field req "goal") d)
        as [prompt | e] eqn:Hprompt.
      * eapply bind_rule.
        -- apply callGeminiAPI_rule. now apply (Hk5 query q d).
        -- intros t [r [Hr Ht]] w''. apply complete_rule. apply Hatt.
           exists r. split; [exact Hr |]. now rewrite <- Ht.
        -- intros e [r [Hr He]]. apply Hatt.
           exists r. split; [exact Hr |]. now rewrite <- He.
      * split; [apply issues_refl |]. apply Runs_settled. now apply Hatt.
    + unfold collection, attempt. fold (query_of req). intros e He.
      destruct (query_of req) as [query | e']; [| congruence].
      destruct (encodeURIComponent query) as [q |]; [| congruence].
      destruct He as [-> He]. now left.
  - unfold attempt, response_in. intros res Hres. exists res.
    split; [reflexivity |].
    destruct (query_of req) as [query | e]; [| discriminate].
    destruct (encodeURIComponent query) as [q |]; [| discriminate].
    destruct Hres as [[Hres _] | [d [Hin Hres]]]; [discriminate |].
    right. exists d. split; [exact Hin |].
    destruct (masterPrompt _ _ d) as [prompt | e]; [| discriminate].
    destruct Hres as [r [Hr Hres]]. exists r. split; [exact Hr |].
    unfold generated. unfold generation in Hres.
    destruct (gemini_text r); [| discriminate].
    now injection Hres as ->.
  - unfold attempt, response_in. intros e He w'. apply complete_rule.
    eexists. split; [reflexivity |].
    destruct (query_of req) as [query | e']; [| now injection He as ->].
    destruct (encodeURIComponent query) as [q |]; [| now injection He as ->].
    destruct He as [[He Hrej] | [d [Hin He]]].
    + left. injection He as ->. now split.
    + right. exists d. split; [exact Hin |].
      destruct (masterPrompt _ _ d) as [prompt | e']; [| now injection He as ->].
      destruct He as [r [Hr He]]. exists r. split; [exact Hr |].
      unfold generated. unfold generation in He.
      destruct (gemini_text r); [discriminate |].
      now injection He as ->.
Qed.
End Handler.

(** ** What [Runs] says of the runs of [step] *)

(** ** What [Runs] says of the runs of [step] *)

Section Adequacy.
Variable E : Call -> Reply -> Prop.
Variable K : Call -> Prop.

Lemma Runs_step {A} (P : Completion A -> Prop) p w e :
  Runs E K P p -> allowed E p e ->
  issues K w (snd (step (p, w) e)) /\ Runs E K P (fst (step (p, w) e)).
Proof.
  intros Hp Ha. destruct Hp as [c Hc | reqs resume Hne Hiss Hrun];
    unfold step; cbn [fst snd].
  - split; [apply issues_refl | now apply Runs_settled].
  - destruct (Nat.ltb_spec (which e) (List.length reqs)) as [Hlt | Hge];
      cbn [fst snd].
    + destruct (nth_error reqs (which e)) as [c |] eqn:Hn.
      * split.
        -- assert (Hsame : issues K w (set_clock (at_time e) w))
             by now apply issues_same_calls.
           eapply issues_trans; [exact Hsame |].
           apply (Hiss _ c); [exact Hn | now apply Ha].
        -- apply (Hrun _ c); [exact Hn | now apply Ha].
      * apply nth_error_None in Hn. lia.
    + split; [apply issues_refl | now apply Runs_pending].
Qed.

Lemma Runs_fold {A} (P : Completion A -> Prop) events :
  forall p w,
    Runs E K P p -> all_allowed E (p, w) events ->
    issues K w (snd (fold_left step events (p, w)))
    /\ Runs E K P (fst (fold_left step events (p, w))).
Proof.
  induction events as [| e es IH]; intros p w Hp Ha; cbn.
  - split; [apply issues_refl | exact Hp].
  - destruct Ha as [Ha Has].
    destruct (Runs_step P p w e Hp Ha) as [Hi Hr].
    destruct (step (p, w) e) as [p' w'] eqn:Hs; cbn in *.
    destruct (IH p' w' Hr Has) as [Hi' Hr'].
    split; [eapply issues_trans; eauto | exact Hr'].
Qed.

(** Whatever has been delivered so far, the calls issued are in [K], and
    a promise that has settled has settled in [P]. *)
Lemma Starts_run {A} (P : Completion A -> Prop) (a : Async A) w events :
  Starts E K P a w -> all_allowed E (a w) events ->
  issues K w (snd (run a w events))
  /\ forall c, fst (run a w events) = Settled c -> P c.
Proof.
  intros [Hi Hr] Ha. unfold run.
  destruct (a w) as [p w1]; cbn in *.
  destruct (Runs_fold P events p w1 Hr Ha) as [Hi' Hr'].
  split; [eapply issues_trans; eauto |].
  intros c Hc. rewrite Hc in Hr'. now inversion Hr'.
Qed.

Lemma first_events_S s n :
  first_events s (S n) = s 0%nat :: first_events (fun k => s (S k)) n.
Proof.
  unfold first_events. cbn. f_equal. now rewrite <- seq_shift, map_map.
Qed.

(** A promise with [Runs] settles: along any stream of events that keeps
    completing calls in flight, with replies that [E] allows, it is
    settled after finitely many of them. *)
Lemma Runs_settles {A} (P : Completion A -> Prop) p :
  Runs E K P p ->
  forall w (s : nat -> Event),
    (forall n, let pw := fold_left step (first_events s n) (p, w) in
               answers (fst pw) (s n) /\ allowed E (fst pw) (s n)) ->
    exists n c,
      fst (fold_left step (first_events s n) (p, w)) = Settled c /\ P c.
Proof.
  induction 1 as [c Hc | reqs resume Hne Hiss Hrun IH]; intros w s Hs.
  - exists 0%nat, c. split; [reflexivity | exact Hc].
  - destruct (Hs 0%nat) as [Hans Hall]; cbn in Hans, Hall.
    destruct (nth_error reqs (which (s 0%nat))) as [c |] eqn:Hn;
      [| apply nth_error_None in Hn; lia].
    specialize (IH _ c (reply (s 0%nat)) (set_clock (at_time (s 0%nat)) w)
                   Hn (Hall c eq_refl)).
    assert (Hstep : step (Pending reqs resume, w) (s 0%nat)
                    = resume (which (s 0%nat)) (reply (s 0%nat))
                             (set_clock (at_time (s 0%nat)) w)).
    { unfold step; cbn [fst snd]. apply Nat.ltb_lt in Hans. now rewrite Hans. }
    destruct (resume (which (s 0%nat)) (reply (s 0%nat))
                     (set_clock (at_time (s 0%nat)) w)) as [p' w'] eqn:Hr.
    cbn in IH.
    destruct (IH w' (fun k => s (S k))) as [n [c' [Hn' Hc']]].
    + intros n. specialize (Hs (S n)). rewrite first_events_S in Hs.
      cbn [fold_left] in Hs. rewrite Hstep in Hs. exact Hs.
    + exists (S n), c'. rewrite first_events_S. cbn [fold_left].
      rewrite Hstep. split; assumption.
Qed.
End Adequacy.

(** ** Replies given as a function of the call *)

Section Replies.
Variable net : Call -> Reply.

Lemma listing_of_unique key name vs :
  channel_listing (replies net) key 3 name vs -> vs = listing_of net key name.
Proof.
  unfold channel_listing, listing_of, replies.
  destruct (encodeURIComponent name) as [q |]; [| auto].
  intros [r1 [-> H]].
  destruct (channel_id (net (YouTubeChannelSearch q key))) as [[id |] | e];
    [| auto | auto].
  destruct (ToString id) as [idtext | e]; [| exact H].
  now destruct H as [r2 [-> ->]].
Qed.

Lemma token_for_unique clientId clientSecret w token :
  token_in (replies net) clientId clientSecret w token ->
  token = token_for net clientId clientSecret w.
Proof.
  unfold token_in, token_for, replies. destruct (fresh w); [auto |].
  now intros [r [-> ->]].
Qed.

Lemma Forall2_cmap_eq {X Y} (R : X -> Y -> Prop) (f : X -> Completion Y)
    xs ys :
  (forall x y, R x y -> f x = Normal y) -> Forall2 R xs ys ->
  cmap f xs = Normal ys.
Proof.
  intros HR. induction 1 as [| x y xs ys Hxy _ IH]; cbn; [reflexivity |].
  now rewrite (HR x y Hxy), IH.
Qed.

Lemma channel_result_unique key ch cr :
  channel_result_in (replies net) key ch cr ->
  channel_result_of net key ch = Normal cr.
Proof.
  destruct cr as [ch' vs]. intros [Hch [name [Hname Hvs]]]; cbn in *.
  subst ch'. unfold channel_result_of. rewrite Hname. cbn.
  now rewrite (listing_of_unique _ _ _ Hvs).
Qed.

Lemma community_result_unique token sub cr :
  community_result_in (replies net) token sub cr ->
  community_result_of net token sub = Normal cr.
Proof.
  destruct cr as [sub' ps].
  intros [Hsub [name [bearer [Hname [Hbearer [r [-> Hps]]]]]]]; cbn in *.
  subst. unfold community_result_of. now rewrite Hname, Hbearer.
Qed.

Lemma cmap_convertible {X Y} (conv : X -> bool) (f : X -> Completion Y)
    (err : JsError) xs :
  (forall x, conv x = false -> f x = Throw err) ->
  (forall x e, f x = Throw e -> e = err) ->
  forallb conv xs = false -> cmap f xs = Throw err.
Proof.
  intros Hf He. induction xs as [| x xs IH]; cbn; [discriminate |].
  destruct (conv x) eqn:Hx; cbn.
  - intros H. rewrite (IH H). destruct (f x) as [y | e] eqn:Hy; cbn;
      [reflexivity |].
    now rewrite (He x e Hy).
  - intros _. now rewrite (Hf x Hx).
Qed.

Lemma community_of_unique clientId clientSecret subs w c :
  community_completion (replies net) clientId clientSecret subs w c ->
  c = community_of net clientId clientSecret subs w.
Proof.
  intros [token [Htok H]]. apply token_for_unique in Htok. subst token.
  unfold community_of.
  destruct (truthy (token_for net clientId clientSecret w)); [| exact H].
  destruct (listable _ subs) eqn:Hl.
  - destruct H as [crs [-> Hcrs]]. symmetry.
    eapply Forall2_cmap_eq; [| exact Hcrs].
    intros sub cr. apply community_result_unique.
  - subst c. symmetry.
    apply (cmap_convertible
             (fun sub => convertible sub
                         && convertible (token_for net clientId clientSecret w)));
      [| | exact Hl].
    + intros sub Hc. unfold community_result_of.
      destruct (ToString sub) as [name | e] eqn:Hsub; cbn.
      * assert (Ht : convertible (token_for net clientId clientSecret w)
                     = false).
        { apply andb_false_iff in Hc. destruct Hc as [Hc | Hc]; [| exact Hc].
          unfold convertible in Hc. rewrite Hsub in Hc. discriminate. }
        apply convertible_false in Ht. now rewrite Ht.
      * now rewrite (ToString_throws _ _ Hsub).
    + intros sub e. unfold community_result_of.
      destruct (ToString sub) as [name | e1] eqn:Hsub; cbn.
      * destruct (ToString (token_for net clientId clientSecret w))
          as [bearer | e2] eqn:Htok; cbn; [discriminate |].
        intros [= <-]. eapply ToString_throws, Htok.
      * intros [= <-]. eapply ToString_throws, Hsub.
Qed.

Lemma collected_unique q channels subs youtube clientId clientSecret w d :
  collected_in (replies net) q channels subs youtube clientId clientSecret w d
  -> collected net q channels subs youtube clientId clientSecret w = Normal d.
Proof.
  destruct d as [top [comp red]]. unfold collected_in, collected; cbn.
  intros [[r [-> ->]] [Hcomp Hred]].
  rewrite (Forall2_cmap_eq _ _ _ _ (channel_result_unique youtube) Hcomp).
  cbn. now rewrite <- (community_of_unique _ _ _ _ _ Hred).
Qed.

Lemma collected_rejected q channels subs youtube clientId clientSecret w :
  collection_rejected (replies net) channels subs clientId clientSecret w ->
  collected net q channels subs youtube clientId clientSecret w
  = Throw cannot_convert.
Proof.
  intros Hrej. unfold collected.
  destruct (cmap (channel_result_of net youtube) channels) as [comp | e]
    eqn:Hcomp; cbn.
  - destruct Hrej as [Hch | [token [Hin [Htr Hl]]]].
    + rewrite (cmap_convertible convertible (channel_result_of net youtube)
                 cannot_convert channels) in Hcomp; [discriminate | | | exact Hch].
      * intros ch Hc. apply convertible_false in Hc.
        unfold channel_result_of. now rewrite Hc.
      * intros ch e. unfold channel_result_of.
        destruct (ToString ch) as [name | e'] eqn:Hname; cbn; [discriminate |].
        intros [= <-]. eapply ToString_throws, Hname.
    + rewrite <- (community_of_unique clientId clientSecret subs w
                    (Throw cannot_convert)); [reflexivity |].
      exists token. split; [exact Hin |]. now rewrite Htr, Hl.
  - assert (He : e = cannot_convert); [| now rewrite He].
    eapply (cmap_throws (channel_result_of net youtube)); [| exact Hcomp].
    intros ch e'. unfold channel_result_of.
    destruct (ToString ch) as [name | e''] eqn:Hname; cbn; [discriminate |].
    intros [= <-]. eapply ToString_throws, Hname.
Qed.


Lemma response_unique req youtube clientId clientSecret gemini w res :
  response_in (replies net) req youtube clientId clientSecret gemini w res ->
  res = response_of net req youtube clientId clientSecret gemini w.
Proof.
  unfold response_in, response_of, collection_of, query_of.
  destruct (query_text (field req "audience") (field req "goal"))
    as [query | e]; cbn; [| auto].
  destruct (encodeURIComponent query) as [q |]; [| auto].
  intros [[-> Hrej] | [d [Hd Hres]]].
  - now rewrite (collected_rejected _ _ _ _ _ _ _ Hrej).
  - rewrite (collected_unique _ _ _ _ _ _ _ _ Hd).
    destruct (masterPrompt _ _ d) as [prompt | e]; [| exact Hres].
    destruct Hres as [r [Hr ->]]. unfold replies in Hr. now subst r.
Qed.
End Replies.

(** * Two runs of the handler

    The end-to-end scenario of the specification, with every source
    answering and then with the credential exchange failing. *)

Example all_sources_up :
  fulfilled_with
    (run_with all_up (handler sample_request sample_env) cold
              [(0, 1%Z); (0, 2%Z); (0, 3%Z); (0, 4%Z); (0, 5%Z); (0, 6%Z)])
  = Some (success (JStr (lit "{}")))
  /\ map url_of
       (calls
          (snd (run_with all_up (handler sample_request sample_env) cold
                  [(0, 1%Z); (0, 2%Z); (0, 3%Z); (0, 4%Z); (0, 5%Z); (0, 6%Z)])))
     = [ lit "https://www.googleapis.com/youtube/v3/search?part=snippet&q=new%20parents%20grow%20subscribers&type=video&order=relevance&maxResults=3&key=yt-key";
         lit "https://www.googleapis.com/youtube/v3/search?part=snippet&q=ChannelA&type=channel&maxResults=1&key=yt-key";
         lit "https://www.reddit.com/api/v1/access_token";
         lit "https://www.googleapis.com/youtube/v3/search?part=snippet&channelId=UC1&type=video&order=date&maxResults=3&key=yt-key";
         lit "https://oauth.reddit.com/r/parenting/hot?limit=3";
         lit "https://generativelanguage.googleapis.com/v1beta/models/gemini-pro:generateContent?key=gemini-key" ].
Proof. split; vm_compute; reflexivity. Qed.

Example credential_exchange_down :
  option_map (fun d => (top_section d, competitor_section d, reddit_section d))
    (fulfilled_with
       (run_with reddit_down
          (collectData (JStr (lit "new parents")) (JStr (lit "grow subscribers"))
                       [JStr (lit "ChannelA")] [JStr (lit "parenting")]
                       (lit "yt-key") (lit "id") (lit "secret"))
          cold [(0, 1%Z); (0, 2%Z); (0, 3%Z); (0, 4%Z)]))
  = Some (Normal (lit "Sleep tips"), Normal (lit "ChannelA: Vlog"),
          Normal (lit "N/A")).
Proof. vm_compute. reflexivity. Qed.

(** * The claims of the specification *)

Lemma or_else_nonempty a b : b <> [] -> or_else a b <> [].
Proof. unfold or_else. destruct a; cbn; [auto | discriminate]. Qed.

Lemma or_else_of_nonempty a b : a <> [] -> or_else a b = a.
Proof. unfold or_else. destruct a; cbn; [contradiction | reflexivity]. Qed.

Lemma join_nonempty sep g rest : g <> [] -> join sep (g :: rest) <> [].
Proof.
  intros Hg. cbn. destruct rest; [exact Hg |].
  destruct g; [contradiction | discriminate].
Qed.

Lemma titles_nil : titles [] = Normal [].
Proof. reflexivity. Qed.

Lemma channel_group_nonempty c g : channel_group c = Normal g -> g <> [].
Proof.
  unfold channel_group.
  destruct (ToString (channel c)) as [name | e]; cbn; [| discriminate].
  destruct (titles (videos c)) as [joined | e]; cbn; [| discriminate].
  intros [= <-]. destruct name; discriminate.
Qed.

Lemma subreddit_group_nonempty s g : subreddit_group s = Normal g -> g <> [].
Proof.
  unfold subreddit_group.
  destruct (ToString (subreddit s)) as [name | e]; cbn; [| discriminate].
  destruct (titles (posts s)) as [joined | e]; cbn; [| discriminate].
  intros [= <-]. discriminate.
Qed.

Lemma cmap_cons {A B} (f : A -> Completion B) x l ys :
  cmap f (x :: l) = Normal ys ->
  exists y ys', ys = y :: ys' /\ f x = Normal y /\ cmap f l = Normal ys'.
Proof.
  cbn. destruct (f x) as [y | e]; cbn; [| discriminate].
  destruct (cmap f l) as [ys' | e]; cbn; [| discriminate].
  intros [= <-]. now exists y, ys'.
Qed.

Lemma groups_nonempty {A} (group : A -> Completion jsstring) data groups :
  (forall x g, group x = Normal g -> g <> []) ->
  data <> [] -> cmap group data = Normal groups ->
  join (lit " | ") groups <> [].
Proof.
  intros Hg Hd Hc. destruct data as [| x data]; [contradiction |].
  destruct (cmap_cons _ _ _ _ Hc) as [g [gs [-> [Hx _]]]].
  apply join_nonempty. now apply (Hg x).
Qed.

Lemma section_nonempty (c : Completion jsstring) s :
  (let! joined := c in Normal (or_else joined (lit "N/A"))) = Normal s ->
  s <> [].
Proof.
  destruct c as [joined | e]; cbn; [| discriminate].
  intros [= <-]. apply or_else_nonempty. discriminate.
Qed.

(** C1 (as amended).  In the master prompt no data line is ever blank.
    The top-videos line is the placeholder [N/A] when no title was
    collected; the competitor line and the community line are the
    placeholder when their result sequence has no entry.  A line that has
    entries lists its groups, each as its name, a colon and its joined
    titles, so that an entry without titles is rendered as its name
    followed by an empty title field.  The prompt is the template with the
    audience, the goal and the three lines in their places; it is
    assembled exactly when each of the five can be converted to a
    string. *)
Theorem C1_placeholder_for_empty_categories
    (audience goal : JsValue) (d : CollectedData) :
  (topVideos d = [] -> top_section d = Normal (lit "N/A"))
  /\ (competitorVideosData d = [] -> competitor_section d = Normal (lit "N/A"))
  /\ (redditPostsData d = [] -> reddit_section d = Normal (lit "N/A"))
  /\ (competitorVideosData d <> [] ->
      competitor_section d
      = let! groups := cmap channel_group (competitorVideosData d) in
        Normal (join (lit " | ") groups))
  /\ (redditPostsData d <> [] ->
      reddit_section d
      = let! groups := cmap subreddit_group (redditPostsData d) in
        Normal (join (lit " | ") groups))
  /\ (forall c, videos c = [] ->
                channel_group c
                = let! name := ToString (channel c) in
                  Normal (name ++ lit ": "))
  /\ (forall s, posts s = [] ->
                subreddit_group s
                = let! name := ToString (subreddit s) in
                  Normal (lit "r/" ++ name ++ lit ": "))
  /\ (forall s, top_section d = Normal s -> s <> [])
  /\ (forall s, competitor_section d = Normal s -> s <> [])
  /\ (forall s, reddit_section d = Normal s -> s <> [])
  /\ (forall a g top competitors reddit,
        ToString audience = Normal a -> ToString goal = Normal g ->
        top_section d = Normal top ->
        competitor_section d = Normal competitors ->
        reddit_section d = Normal reddit ->
        masterPrompt audience goal d
        = Normal (prompt_head ++ a
                  ++ goal_line ++ g
                  ++ top_line ++ top
                  ++ competitor_line ++ competitors
                  ++ reddit_line ++ reddit
                  ++ prompt_contract))
  /\ (forall prompt,
        masterPrompt audience goal d = Normal prompt ->
        exists a g top competitors reddit,
          ToString audience = Normal a /\ ToString goal = Normal g
          /\ top_section d = Normal top
          /\ competitor_section d = Normal competitors
          /\ reddit_section d = Normal reddit
          /\ prompt = prompt_head ++ a
                      ++ goal_line ++ g
                      ++ top_line ++ top
                      ++ competitor_line ++ competitors
                      ++ reddit_line ++ reddit
                      ++ prompt_contract).
Proof.
  split; [| split; [| split; [| split; [| split; [| split; [| split;
    [| split; [| split; [| split; [| split]]]]]]]]]].
  - unfold top_section. intros ->. reflexivity.
  - unfold competitor_section. intros ->. reflexivity.
  - unfold reddit_section. intros ->. reflexivity.
  - intros H. unfold competitor_section, competitorVideoTitles.
    destruct (cmap channel_group (competitorVideosData d)) as [groups | e]
      eqn:Hc; cbn; [| reflexivity].
    f_equal. apply or_else_of_nonempty.
    apply (groups_nonempty channel_group (competitorVideosData d));
      [exact channel_group_nonempty | exact H | exact Hc].
  - intros H. unfold reddit_section, redditPostTitles.
    destruct (cmap subreddit_group (redditPostsData d)) as [groups | e]
      eqn:Hc; cbn; [| reflexivity].
    f_equal. apply or_else_of_nonempty.
    apply (groups_nonempty subreddit_group (redditPostsData d));
      [exact subreddit_group_nonempty | exact H | exact Hc].
  - intros c Hc. unfold channel_group. rewrite Hc, titles_nil.
    destruct (ToString (channel c)); reflexivity.
  - intros s Hs. unfold subreddit_group. rewrite Hs, titles_nil.
    destruct (ToString (subreddit s)); reflexivity.
  - intros s. apply section_nonempty.
  - intros s. apply section_nonempty.
  - intros s. apply section_nonempty.
  - intros a g top competitors reddit Ha Hg Ht Hc Hr. unfold masterPrompt.
    now rewrite Ht, Hc, Hr, Ha, Hg.
  - intros prompt. unfold masterPrompt.
    destruct (top_section d) as [top | e]; cbn; [| discriminate].
    destruct (competitor_section d) as [competitors | e]; cbn;
      [| discriminate].
    destruct (reddit_section d) as [reddit | e]; cbn; [| discriminate].
    destruct (ToString audience) as [a | e]; cbn; [| discriminate].
    destruct (ToString goal) as [g | e]; cbn; [| discriminate].
    intros [= <-]. now exists a, g, top, competitors, reddit.
Qed.

Lemma C1_witness :
  competitorVideosData no_video_data <> []
  /\ competitor_section no_video_data
     = (let! groups := cmap channel_group (competitorVideosData no_video_data) in
        Normal (join (lit " | ") groups)).
Proof.
  split; [intros H; discriminate H |].
  destruct (C1_placeholder_for_empty_categories JNull JNull no_video_data)
    as (_ & _ & _ & Hgroups & _).
  apply Hgroups. intros H; discriminate H.
Defined.

(** C1 as it is stated fails: a channel that was found to have no video
    leaves the competitor category without any title, and the category is
    rendered as the name of the channel with a blank title field, not as
    the placeholder.  The data are those of a run of [collectData]. *)
Lemma C1_counterexample :
  fst (run (collectData (JStr (lit "new parents")) (JStr (lit "grow subscribers"))
                        [JStr (lit "ChannelA")] []
                        (lit "yt-key") (lit "id") (lit "secret"))
           cold
           [ at_ 0 (ok_reply (video_items ["Sleep tips"%string])) 10;
             at_ 0 (ok_reply (video_items [])) 20;
             at_ 0 NetworkFailure 30 ])
  = Settled (Normal no_video_data)
  /\ flat_map videos (competitorVideosData no_video_data) = []
  /\ competitor_section no_video_data = Normal (lit "ChannelA: ")
  /\ competitor_section no_video_data <> Normal (lit "N/A").
Proof.
  split; [vm_compute; reflexivity |].
  split; [reflexivity |].
  split; [vm_compute; reflexivity | intros H; vm_compute in H; discriminate H].
Qed.

(** What the community branch does when the cache is not fresh: it issues
    the credential exchange and nothing else, and goes on when the reply
    is there. *)
Lemma reddit_branch_stale clientId clientSecret subs w :
  fresh w = false ->
  exists resume,
    reddit_branch clientId clientSecret subs w
    = (Pending [RedditAccessToken clientId clientSecret] resume,
       issue (RedditAccessToken clientId clientSecret) w)
    /\ forall i r w',
         resume i r w' =
         match access_token r with
         | Normal t =>
             (if truthy t then all_of (subreddit_posts t) subs else ret [])
               (set_redditToken
                  {| value := t; expires := clock w' + 50 * 60 * 1000 |} w')
         | Throw _ => (Settled (Normal []), w')
         end.
Proof.
  intros Hf.
  destruct (getRedditAccessToken_stale clientId clientSecret w Hf)
    as [resume [Heq Hres]].
  unfold reddit_branch, bind. rewrite Heq. cbn [then_].
  eexists. split; [reflexivity |].
  intros i r w'. cbv beta. rewrite Hres.
  destruct (access_token r); reflexivity.
Qed.

Lemma reddit_branch_fresh_empty clientId clientSecret w :
  fresh w = true ->
  reddit_branch clientId clientSecret [] w = (Settled (Normal []), w).
Proof.
  intros Hf. unfold reddit_branch, bind.
  rewrite getRedditAccessToken_fresh by exact Hf. cbn.
  destruct (truthy (value (redditToken w))); reflexivity.
Qed.

(** C2 (as amended).  With no competitor channel the channel branch is
    fulfilled at once with the empty sequence and issues no call.  With no
    community the community branch is always fulfilled with the empty
    sequence and issues no community-listing call, but it acquires the
    credential all the same: when a fresh token is cached it is fulfilled
    at once and issues no call; when none is, it issues exactly one call,
    the credential exchange, and whatever the reply to it the branch is
    then fulfilled with the empty sequence, without a further call.  The
    same holds of the whole collection, which issues the credential
    exchange whenever it is started with a cache that is not fresh. *)
Theorem C2_empty_lists (E : Call -> Reply -> Prop) (audience goal : JsValue)
    (channels subs : list JsValue) (youtube clientId clientSecret : jsstring)
    (w : World) :
  all_of (channel_videos youtube) [] w = (Settled (Normal []), w)
  /\ (if fresh w
      then reddit_branch clientId clientSecret [] w = (Settled (Normal []), w)
      else calls (snd (reddit_branch clientId clientSecret [] w))
           = calls w ++ [RedditAccessToken clientId clientSecret]
           /\ (exists resume,
                 fst (reddit_branch clientId clientSecret [] w)
                 = Pending [RedditAccessToken clientId clientSecret] resume)
           /\ Runs E (fun _ => False) (fun c => c = Normal [])
                   (fst (reddit_branch clientId clientSecret [] w)))
  /\ Starts E (fun c => adapter c <> ChannelListing)
            (fun c => forall d, c = Normal d -> competitorVideosData d = [])
            (collectData audience goal [] subs youtube clientId clientSecret) w
  /\ Starts E (fun c => adapter c <> CommunityListing)
            (fun c => forall d, c = Normal d -> redditPostsData d = [])
            (collectData audience goal channels [] youtube clientId clientSecret)
            w
  /\ (convertible audience && convertible goal = true -> fresh w = false ->
      In (RedditAccessToken clientId clientSecret)
         (calls (snd (collectData audience goal channels [] youtube clientId
                                  clientSecret w)))).
Proof.
  split; [reflexivity |]. split; [| split; [| split]].
  - destruct (fresh w) eqn:Hf; [now apply reddit_branch_fresh_empty |].
    destruct (reddit_branch_stale clientId clientSecret [] w Hf)
      as [resume [Heq Hres]].
    rewrite Heq. cbn [fst snd issue calls].
    split; [reflexivity |]. split; [now exists resume |].
    apply Runs_pending; [discriminate | |]; intros i c r w' Hi Hr;
      rewrite Hres; destruct (access_token r) as [t | e]; cbn.
    + destruct (truthy t); now apply issues_same_calls.
    + apply issues_refl.
    + destruct (truthy t); now apply Runs_settled.
    + now apply Runs_settled.
  - eapply Starts_weaken.
    + apply collectData_exact.
      * intros; discriminate.
      * intros ? ch ? ? _ Hch. contradiction Hch.
      * intros ? ch ? ? ? ? ? _ Hch. contradiction Hch.
      * intros; discriminate.
      * intros; discriminate.
    + unfold collection. intros c Hc d ->.
      destruct (query_text audience goal); [| discriminate].
      destruct (encodeURIComponent _); [| discriminate].
      destruct Hc as [_ [H _]]. now inversion H.
  - eapply Starts_weaken.
    + apply collectData_exact.
      * intros; discriminate.
      * intros; discriminate.
      * intros; discriminate.
      * intros; discriminate.
      * intros ? ? sub ? ? _ _ _ Hsub. contradiction Hsub.
    + unfold collection. intros c Hc d ->.
      destruct (query_text audience goal); [| discriminate].
      destruct (encodeURIComponent _); [| discriminate].
      destruct Hc as [_ [_ [token [_ H]]]].
      destruct (truthy token); [| now injection H].
      cbn in H. destruct H as [crs [Hd H]]. injection Hd as <-.
      now inversion H.
  - intros Hconv Hf. unfold collectData. rewrite bind_complete.
    assert (Hq : exists query, query_text audience goal = Normal query).
    { apply andb_true_iff in Hconv. destruct Hconv as [Ha Hg].
      apply convertible_true in Ha. apply convertible_true in Hg.
      destruct Ha as [a Ha]. destruct Hg as [g Hg].
      unfold query_text. rewrite Ha, Hg. now eexists. }
    destruct Hq as [query ->]. unfold all3.
    pose proof (searchYouTubeVideos_quiet query youtube 3 w) as [Ht1 Hc1].
    destruct (searchYouTubeVideos query youtube 3 w) as [pa w1]; cbn in Ht1, Hc1.
    pose proof (all_of_quiet (channel_videos youtube) channels
                  (channel_videos_quiet youtube) w1) as [Ht2 Hc2].
    destruct (all_of (channel_videos youtube) channels w1) as [pb w2];
      cbn in Ht2, Hc2.
    assert (Hf2 : fresh w2 = false).
    { unfold fresh in *. now rewrite Ht2, Hc2, Ht1, Hc1. }
    destruct (reddit_branch_stale clientId clientSecret [] w2 Hf2)
      as [resume [Heq _]].
    rewrite Heq. cbn. apply in_or_app. right. now left.
Qed.

Lemma C2_witness :
  convertible JNull && convertible JNull = true
  /\ fresh cold = false
  /\ In (RedditAccessToken (lit "id") (lit "secret"))
        (calls (snd (collectData JNull JNull [] [] (lit "yt-key") (lit "id")
                                 (lit "secret") cold))).
Proof.
  split; [reflexivity |]. split; [reflexivity |].
  destruct (C2_empty_lists any_reply JNull JNull [] [] (lit "yt-key")
              (lit "id") (lit "secret") cold)
    as (_ & _ & _ & _ & Hcall).
  apply Hcall; reflexivity.
Defined.

(** C2 as it is stated fails for the community branch: with an empty list
    of communities and nothing cached, the branch still issues the
    credential-exchange call. *)
Lemma C2_counterexample :
  calls cold = []
  /\ calls (snd (reddit_branch (lit "id") (lit "secret") [] cold))
     = [RedditAccessToken (lit "id") (lit "secret")]
  /\ calls (snd (handler (post (JStr (lit "new parents"))
                               (JStr (lit "grow subscribers"))
                               (strings []) (strings []))
                         sample_env cold))
     = [YouTubeSearch (lit "new%20parents%20grow%20subscribers") 3 (lit "yt-key");
        RedditAccessToken (lit "id") (lit "secret")].
Proof. repeat split; vm_compute; reflexivity. Qed.

(** C4 (as amended).  A cached token whose expiry is strictly after the
    clock is returned as it is, and no call is issued.  Otherwise, also when
    the clock is exactly at the expiry, the credential-exchange call is
    issued; when it comes back with a token, the token is returned and
    stored with an expiry of 50 minutes after the clock at that moment, the
    arrival of the reply. *)
Theorem C4_token_cache (clientId clientSecret : jsstring) (w : World) :
  (truthy (value (redditToken w)) = true ->
   (clock w < expires (redditToken w))%Z ->
   getRedditAccessToken clientId clientSecret w
   = (Settled (Normal (value (redditToken w))), w))
  /\ (truthy (value (redditToken w)) = false
      \/ (expires (redditToken w) <= clock w)%Z ->
      (exists resume,
         getRedditAccessToken clientId clientSecret w
         = (Pending [RedditAccessToken clientId clientSecret] resume,
            issue (RedditAccessToken clientId clientSecret) w))
      /\ forall e o st v token,
           which e = 0%nat ->
           reply e = HttpReply o st (Some v) ->
           get v "access_token" = Normal token -> truthy token = true ->
           step (getRedditAccessToken clientId clientSecret w) e
           = (Settled (Normal token),
              {| redditToken :=
                   {| value := token;
                      expires := at_time e + 50 * 60 * 1000 |};
                 clock := at_time e;
                 calls := calls w ++ [RedditAccessToken clientId clientSecret] |})).
Proof.
  split.
  - intros Hv Hlt. apply getRedditAccessToken_fresh. unfold fresh.
    rewrite Hv. cbn. now apply Z.gtb_lt.
  - intros Hstale.
    assert (Hf : fresh w = false).
    { unfold fresh. destruct Hstale as [-> | Hle]; [reflexivity |].
      apply andb_false_iff. right. rewrite Z.gtb_ltb. now apply Z.ltb_ge. }
    destruct (getRedditAccessToken_stale clientId clientSecret w Hf)
      as [resume [Heq Hres]].
    split; [now exists resume |].
    intros e o st v token He Hr Hg Ht. rewrite Heq. unfold step. cbn [fst snd].
    rewrite He. cbn [List.length Nat.ltb Nat.leb]. rewrite Hres, Hr.
    unfold access_token. cbn. rewrite Hg. cbn. rewrite Ht. reflexivity.
Qed.

Lemma C4_witness :
  truthy (value (redditToken cold)) = false
  /\ step (getRedditAccessToken (lit "id") (lit "secret") cold)
          (at_ 0 (ok_reply (token_granted "tok")) 1000)
     = (Settled (Normal (JStr (lit "tok"))),
        {| redditToken :=
             {| value := JStr (lit "tok"); expires := 1000 + 50 * 60 * 1000 |};
           clock := 1000;
           calls := [RedditAccessToken (lit "id") (lit "secret")] |}).
Proof.
  split; [reflexivity |].
  destruct (C4_token_cache (lit "id") (lit "secret") cold) as [_ Hstale].
  destruct (Hstale (or_introl eq_refl)) as [_ Hstep].
  apply (Hstep (at_ 0 (ok_reply (token_granted "tok")) 1000) true (lit "OK")
               (token_granted "tok") (JStr (lit "tok")));
    reflexivity.
Defined.

(** C4 as it is stated fails: the expiry is not counted from the time of
    the call.  A call made at time 0, whose reply arrives at time 1000,
    stores an expiry of 1000 + 50 minutes. *)
Lemma C4_counterexample :
  clock cold = 0%Z
  /\ redditToken
       (snd (step (getRedditAccessToken (lit "id") (lit "secret") cold)
                  (at_ 0 (ok_reply (token_granted "tok")) 1000)))
     = {| value := JStr (lit "tok"); expires := 3001000 |}
  /\ expires
       (redditToken
          (snd (step (getRedditAccessToken (lit "id") (lit "secret") cold)
                     (at_ 0 (ok_reply (token_granted "tok")) 1000))))
     <> (clock cold + 50 * 60 * 1000)%Z.
Proof.
  split; [reflexivity |]. split; [vm_compute; reflexivity |].
  intros H. vm_compute in H. discriminate H.
Qed.

(** C7.  A credential exchange that fails, because the call is rejected,
    because the body of the reply does not parse, or because the reply has
    no token in it, makes [getRedditAccessToken] return [null] and leaves
    the cached token as it was. *)
Theorem C7_failed_acquisition_keeps_cache
    (clientId clientSecret : jsstring) (w : World) (e : Event) :
  fresh w = false -> which e = 0%nat ->
  reply e = NetworkFailure
  \/ (exists o st, reply e = HttpReply o st None)
  \/ (exists o st v,
        reply e = HttpReply o st (Some v)
        /\ forall token, get v "access_token" = Normal token ->
                         truthy token = false) ->
  fst (step (getRedditAccessToken clientId clientSecret w) e)
  = Settled (Normal JNull)
  /\ redditToken (snd (step (getRedditAccessToken clientId clientSecret w) e))
     = redditToken w.
Proof.
  intros Hf He Hfail.
  destruct (getRedditAccessToken_stale clientId clientSecret w Hf)
    as [resume [Heq Hres]].
  rewrite Heq. unfold step. cbn [fst snd]. rewrite He.
  cbn [List.length Nat.ltb Nat.leb]. rewrite Hres.
  assert (Ha : exists err, access_token (reply e) = Throw err).
  { unfold access_token.
    destruct Hfail as [-> | [[o [st ->]] | [o [st [v [-> Hv]]]]]]; cbn;
      try (eexists; reflexivity).
    destruct (get v "access_token") as [token |] eqn:Hg; cbn;
      [| eexists; reflexivity].
    rewrite (Hv token eq_refl). cbn. eexists; reflexivity. }
  destruct Ha as [err ->]. split; reflexivity.
Qed.

Lemma C7_witness :
  fresh cold = false
  /\ fst (step (getRedditAccessToken (lit "id") (lit "secret") cold)
               (at_ 0 (ok_reply (JObj [(lit "error", JStr (lit "denied"))])) 7))
     = Settled (Normal JNull)
  /\ redditToken
       (snd (step (getRedditAccessToken (lit "id") (lit "secret") cold)
                  (at_ 0 (ok_reply (JObj [(lit "error", JStr (lit "denied"))])) 7)))
     = redditToken cold.
Proof.
  split; [reflexivity |].
  apply (C7_failed_acquisition_keeps_cache (lit "id") (lit "secret") cold
           (at_ 0 (ok_reply (JObj [(lit "error", JStr (lit "denied"))])) 7));
    [reflexivity | reflexivity |].
  right. right. exists true, (lit "OK"), (JObj [(lit "error", JStr (lit "denied"))]).
  split; [reflexivity |].
  intros token H. vm_compute in H. injection H as <-. reflexivity.
Defined.

Lemma field_of_absent_body req k :
  truthy (body req) = false -> field req k = JUndefined.
Proof. unfold field, fields. intros ->. reflexivity. Qed.

(** C9.  A POST whose body lacks [audience] or [goal], or whose
    [competitorYouTubeChannels] or [relevantSubreddits] is not an array, is
    answered at once with status 400 and an error body; the world is left
    as it was, so that no call has been issued, and none is in flight. *)
Theorem C9_invalid_body_rejected (req : HttpRequest) (env : Env) (w : World) :
  method req = lit "POST" ->
  field req "audience" = JUndefined
  \/ field req "goal" = JUndefined
  \/ Array_isArray (field req "competitorYouTubeChannels") = false
  \/ Array_isArray (field req "relevantSubreddits") = false ->
  handler req env w = (Settled (Normal invalid_body), w)
  /\ calls (snd (handler req env w)) = calls w
  /\ status invalid_body = 400%N
  /\ payload invalid_body
     = SentJson
         (JObj [(lit "error",
                 JStr (lit "Invalid request body. Ensure all required fields are present."))]).
Proof.
  intros Hm Hbad.
  assert (Hh : handler req env w = (Settled (Normal invalid_body), w)).
  { apply handler_invalid; [exact Hm |]. unfold valid.
    destruct Hbad as [-> | [-> | [-> | ->]]]; cbn;
      rewrite ?andb_false_r; reflexivity. }
  rewrite Hh. repeat split.
Qed.

Lemma C9_witness :
  handler (post JUndefined (JStr (lit "grow subscribers"))
                (strings ["ChannelA"%string]) (strings ["parenting"%string]))
          sample_env cold
  = (Settled (Normal invalid_body), cold).
Proof.
  apply (C9_invalid_body_rejected
           (post JUndefined (JStr (lit "grow subscribers"))
                 (strings ["ChannelA"%string]) (strings ["parenting"%string]))
           sample_env cold);
    [reflexivity | left; reflexivity].
Defined.

(** C10.  The test on the body comes first and asks for more than
    presence: a POST without a body, or whose [audience] or [goal] is falsy
    (the empty string, for one), is answered 400, normally, whatever the
    environment variables are; the configuration error can only be the
    answer to a body that passes the test. *)
Theorem C10_validation_before_configuration
    (req : HttpRequest) (env : Env) (w : World) :
  method req = lit "POST" ->
  (truthy (body req) = false
   \/ truthy (field req "audience") = false
   \/ truthy (field req "goal") = false ->
   handler req env w = (Settled (Normal invalid_body), w))
  /\ (fst (handler req env w) = Settled (Normal configuration_error) ->
      valid req = true).
Proof.
  intros Hm. split.
  - intros Hbad. apply handler_invalid; [exact Hm |]. unfold valid.
    destruct Hbad as [Hb | [-> | ->]]; cbn; rewrite ?andb_false_r;
      try reflexivity.
    now rewrite (field_of_absent_body req "audience" Hb).
  - intros Hc. destruct (valid req) eqn:Hv; [reflexivity |].
    rewrite (handler_invalid req env w Hm Hv) in Hc. cbn in Hc.
    injection Hc as Hc. discriminate Hc.
Qed.

Lemma C10_witness :
  handler (post (JStr []) (JStr (lit "grow subscribers"))
                (strings ["ChannelA"%string]) (strings ["parenting"%string]))
          empty_env cold
  = (Settled (Normal invalid_body), cold)
  /\ handler {| method := lit "POST"; body := JUndefined |} empty_env cold
     = (Settled (Normal invalid_body), cold).
Proof.
  split.
  - apply (C10_validation_before_configuration
             (post (JStr []) (JStr (lit "grow subscribers"))
                   (strings ["ChannelA"%string]) (strings ["parenting"%string]))
             empty_env cold);
      [reflexivity | right; left; reflexivity].
  - apply (C10_validation_before_configuration
             {| method := lit "POST"; body := JUndefined |} empty_env cold);
      [reflexivity | left; reflexivity].
Defined.



Lemma any_reply_allowed {A} (pw : Promise A * World) events :
  all_allowed any_reply pw events.
Proof.
  revert pw. induction events as [| e es IH]; intros pw; cbn; [exact I |].
  split; [| apply IH]. destruct (fst pw); cbn; [exact I |].
  intros; exact I.
Qed.






































(** A channel that cannot be converted to a string rejects the collection
    at once; an audience that cannot be converted is answered 500 before
    any call is issued. *)
Lemma handler_unconvertible_inputs :
  fst (collectData (JStr (lit "new parents")) (JStr (lit "grow subscribers"))
                   [unconvertible] [JStr (lit "parenting")]
                   (lit "yt-key") (lit "id") (lit "secret") cold)
  = Settled (Throw cannot_convert)
  /\ fst (handler odd_channel_request sample_env cold)
     = Settled (Normal (internal_error cannot_convert))
  /\ handler odd_audience_request sample_env cold
     = (Settled (Normal (internal_error cannot_convert)), cold)
  /\ message cannot_convert = lit "Cannot convert object to primitive value".
Proof. repeat split; vm_compute; reflexivity. Qed.

(** * Further properties of the code *)

(** ** Fewer calls allowed *)

Lemma issues_calls (K K' : Call -> Prop) w w' :
  (forall c, K c -> K' c) -> issues K w w' -> issues K' w w'.
Proof.
  intros HK [l [Hl HF]]. exists l. split; [exact Hl |].
  eapply Forall_impl; [| exact HF]. exact HK.
Qed.

Lemma Runs_calls (E : Call -> Reply -> Prop) (K K' : Call -> Prop) {A}
    (P : Completion A -> Prop) p :
  (forall c, K c -> K' c) -> Runs E K P p -> Runs E K' P p.
Proof.
  intros HK H. induction H as [c Hc | reqs resume Hne Hiss Hrun IH].
  - now apply Runs_settled.
  - apply Runs_pending; [exact Hne | | exact IH].
    intros i c r w Hi Hr. eapply issues_calls; [exact HK |]. eauto.
Qed.

Lemma Starts_calls (E : Call -> Reply -> Prop) (K K' : Call -> Prop) {A}
    (P : Completion A -> Prop) (a : Async A) w :
  (forall c, K c -> K' c) -> Starts E K P a w -> Starts E K' P a w.
Proof.
  intros HK [Hi Hr]. split.
  - eapply issues_calls; eauto.
  - eapply Runs_calls; eauto.
Qed.

Lemma jsstring_eqb_eq s t : jsstring_eqb s t = true <-> s = t.
Proof.
  revert t. induction s as [| c s IH]; intros [| d t]; cbn;
    try (split; [discriminate | discriminate]); [tauto |].
  rewrite andb_true_iff, N.eqb_eq, IH. split.
  - now intros [-> ->].
  - intros H. now injection H.
Qed.

Lemma configured_None v : configured v = None <-> unset v.
Proof.
  unfold configured, unset.
  destruct v as [[| c s] |]; cbn; split; auto; try discriminate.
  intros [H | H]; discriminate.
Qed.

(** ** The handler, for every request *)

Lemma handler_expected E req env youtube clientId clientSecret gemini w :
  method req = lit "POST" -> valid req = true ->
  configured (YOUTUBE_API_KEY env) = Some youtube ->
  configured (REDDIT_CLIENT_ID env) = Some clientId ->
  configured (REDDIT_CLIENT_SECRET env) = Some clientSecret ->
  configured (GEMINI_API_KEY env) = Some gemini ->
  Starts E (expected E req youtube clientId clientSecret gemini w)
    (Fulfils (response_in E req youtube clientId clientSecret gemini w))
    (handler req env) w.
Proof.
  intros Hm Hv Hy Hi Hs Hg.
  apply (handler_exact E _ req env youtube clientId clientSecret gemini w);
    try assumption; unfold expected.
  - intros query q Hquery Hq. split; [now exists query |].
    split; [now exists query | auto].
  - intros query ch name q Hquery Hch Hname Hq. split; [now exists query |].
    split; [now exists ch, name | reflexivity].
  - intros query ch name q r id idtext Hquery Hch Hname Hq Hr Hid Htext.
    split; [now exists query |].
    split; [now exists ch, name, q, r, id | auto].
  - intros query Hquery Hf. split; [now exists query | auto].
  - intros query token sub name bearer Hquery Hin Htr Hsub Hname Hbearer.
    split; [now exists query |].
    split; [now exists sub, token | reflexivity].
  - intros query q d prompt Hquery Hq Hd Hp. split; [now exists query |].
    split; [now exists query, q, d | reflexivity].
Qed.

Lemma Starts_at_once (E : Call -> Reply -> Prop) (K : Call -> Prop) {A}
    (R : A -> Prop) (a : Async A) w x :
  a w = (Settled (Normal x), w) -> R x -> Starts E K (Fulfils R) a w.
Proof.
  intros Ha Hx. unfold Starts. rewrite Ha. split.
  - exists []. split; [now rewrite app_nil_r | constructor].
  - apply Runs_settled. now exists x.
Qed.

Lemma handler_answer E req env w :
  Starts E (may_call E req env w) (Fulfils (answer_in E req env w))
         (handler req env) w.
Proof.
  unfold answer_in.
  destruct (jsstring_eqb (method req) (lit "OPTIONS")) eqn:Ho.
  { eapply Starts_at_once; [| reflexivity]. unfold handler. now rewrite Ho. }
  destruct (jsstring_eqb (method req) (lit "POST")) eqn:Hp; cbn [negb].
  2:{ eapply Starts_at_once; [| reflexivity]. unfold handler.
      now rewrite Ho, Hp. }
  apply jsstring_eqb_eq in Hp.
  destruct (valid req) eqn:Hv; cbn [negb].
  2:{ eapply Starts_at_once; [| reflexivity]. now apply handler_invalid. }
  destruct (configured (YOUTUBE_API_KEY env)) as [youtube |] eqn:Hy.
  2:{ eapply Starts_at_once; [| reflexivity].
      apply handler_unconfigured; auto. }
  destruct (configured (REDDIT_CLIENT_ID env)) as [clientId |] eqn:Hi.
  2:{ eapply Starts_at_once; [| reflexivity].
      apply handler_unconfigured; auto. }
  destruct (configured (REDDIT_CLIENT_SECRET env)) as [clientSecret |] eqn:Hs.
  2:{ eapply Starts_at_once; [| reflexivity].
      apply handler_unconfigured; auto. }
  destruct (configured (GEMINI_API_KEY env)) as [gemini |] eqn:Hg.
  2:{ eapply Starts_at_once; [| reflexivity].
      apply handler_unconfigured; auto. }
  eapply Starts_calls; [| now apply handler_expected].
  intros c Hc. split; [exact Hp | split; [exact Hv |]].
  now exists youtube, clientId, clientSecret, gemini.
Qed.

Lemma error_json_well_formed n ms msg :
  In n [405; 400; 500]%N -> member (lit "error") ms = JStr msg ->
  well_formed (error_json n ms).
Proof.
  intros Hn Hmsg. unfold well_formed. cbn.
  split; [cbn in Hn; tauto |]. split; [reflexivity |].
  split; [intros ->; cbn in Hn; intuition discriminate |].
  split; [intros ->; cbn in Hn; intuition discriminate |].
  intros _. split; [reflexivity |]. exists msg.
  unfold error_text; cbn. now rewrite Hmsg.
Qed.

Lemma internal_error_well_formed e : well_formed (internal_error e).
Proof.
  apply (error_json_well_formed 500 _ (lit "An internal server error occurred."));
    [cbn; tauto | reflexivity].
Qed.

Lemma answer_well_formed E req env w res :
  answer_in E req env w res -> well_formed res.
Proof.
  unfold answer_in.
  destruct (jsstring_eqb (method req) (lit "OPTIONS")).
  { intros ->. unfold well_formed. cbn. split; [tauto |].
    split; [reflexivity |]. split; [discriminate |]. split; [auto |].
    intros [H | [H | [H | []]]]; discriminate. }
  destruct (negb (jsstring_eqb (method req) (lit "POST"))).
  { intros ->.
    apply (error_json_well_formed 405 _ (lit "Method Not Allowed"));
      [cbn; tauto | reflexivity]. }
  destruct (negb (valid req)).
  { intros ->.
    apply (error_json_well_formed 400 _
             (lit "Invalid request body. Ensure all required fields are present."));
      [cbn; tauto | reflexivity]. }
  assert (Hconf : res = configuration_error -> well_formed res).
  { intros ->.
    apply (error_json_well_formed 500 _ (lit "Server configuration error."));
      [cbn; tauto | reflexivity]. }
  destruct (configured (YOUTUBE_API_KEY env)) as [youtube |]; [| exact Hconf].
  destruct (configured (REDDIT_CLIENT_ID env)) as [clientId |]; [| exact Hconf].
  destruct (configured (REDDIT_CLIENT_SECRET env)) as [clientSecret |];
    [| exact Hconf].
  destruct (configured (GEMINI_API_KEY env)) as [gemini |]; [| exact Hconf].
  clear Hconf. unfold response_in.
  destruct (query_of req) as [query | e].
  2:{ intros ->. apply internal_error_well_formed. }
  destruct (encodeURIComponent query) as [q |].
  2:{ intros ->. apply internal_error_well_formed. }
  intros [[-> _] | [d [_ Hres]]]; [apply internal_error_well_formed |].
  destruct (masterPrompt _ _ d) as [prompt | e].
  2:{ subst res. apply internal_error_well_formed. }
  destruct Hres as [r [_ ->]]. unfold generated.
  destruct (gemini_text r) as [text | e].
  - unfold well_formed. cbn. split; [tauto |]. split; [reflexivity |].
    split; [intros _; split; [reflexivity | now exists text] |].
    split; [discriminate |].
    intros [H | [H | [H | []]]]; discriminate.
  - apply internal_error_well_formed.
Qed.

(** X2.  Whatever the request, the environment, the replies and the order
    in which the calls complete, the handler never rejects: it is fulfilled
    with the answer of its decision table (204 to OPTIONS, 405 to any other
    method than POST, 400 to a body that fails the test, 500 to a missing
    variable, and otherwise 500 with the message of the exception when the
    query cannot be made or encoded, when the collection is rejected or
    when the prompt cannot be assembled, and else 200 with the generated
    text or 500 with the generation failure), and along any stream of
    events that keeps completing calls in flight it has answered after
    finitely many of them. *)
Theorem handler_answers_every_request (req : HttpRequest) (env : Env)
    (w : World) :
  (forall E,
     Starts E any_call (Fulfils (answer_in E req env w)) (handler req env) w)
  /\ (forall s : nat -> Event,
        (forall n,
           answers (fst (run (handler req env) w (first_events s n))) (s n)) ->
        exists n res,
          fst (run (handler req env) w (first_events s n))
          = Settled (Normal res)
          /\ answer_in any_reply req env w res).
Proof.
  split.
  { intros E. eapply Starts_calls; [| apply handler_answer].
    intros c _. exact I. }
  intros s Hs. destruct (handler_answer any_reply req env w) as [_ Hr].
  unfold run in *. destruct (handler req env w) as [p w1]; cbn in *.
  destruct (Runs_settles any_reply _ _ p Hr w1 s) as [n [c [Hn [res [-> Hres]]]]].
  - intros n. split; [apply Hs |].
    destruct (fst (fold_left step (first_events s n) (p, w1))); cbn;
      [exact I | intros; exact I].
  - now exists n, res.
Qed.

(** X3.  Every answer of the handler, on every path and in every run, has
    one of the statuses 204, 405, 400, 500 and 200 and carries the three
    CORS headers; the 200 adds the JSON content type and carries the text
    given to [res.send], the 204 has no body, and every error answer has a
    JSON body with a string member [error]. *)
Theorem every_answer_is_well_formed (req : HttpRequest) (env : Env)
    (w : World) (events : list Event) (c : Completion HttpResponse) :
  fst (run (handler req env) w events) = Settled c ->
  exists res, c = Normal res /\ well_formed res.
Proof.
  intros Hc.
  destruct (Starts_run any_reply _ _ _ w events
              (handler_answer any_reply req env w)
              (any_reply_allowed _ events)) as [_ Hset].
  destruct (Hset c Hc) as [res [-> Hres]].
  exists res. split; [reflexivity |]. eapply answer_well_formed, Hres.
Qed.

Lemma every_answer_is_well_formed_witness :
  fst (run (handler sample_request sample_env) cold sample_events)
  = Settled (Normal (success (JStr (lit "{}"))))
  /\ well_formed (success (JStr (lit "{}"))).
Proof.
  assert (H : fst (run (handler sample_request sample_env) cold sample_events)
              = Settled (Normal (success (JStr (lit "{}")))))
    by (vm_compute; reflexivity).
  split; [exact H |].
  destruct (every_answer_is_well_formed sample_request sample_env cold
              sample_events _ H) as [res [Heq Hres]].
  injection Heq as <-. exact Hres.
Defined.

(** X4.  A valid POST in an environment where one of the four variables is
    not set, or is set to the empty string, is answered at once with 500
    and the configuration error; the world is returned as it was, so that
    no call is issued and none is in flight. *)
Theorem unset_variable_is_a_configuration_error (req : HttpRequest)
    (env : Env) (w : World) :
  method req = lit "POST" -> valid req = true ->
  unset (YOUTUBE_API_KEY env) \/ unset (REDDIT_CLIENT_ID env)
  \/ unset (REDDIT_CLIENT_SECRET env) \/ unset (GEMINI_API_KEY env) ->
  handler req env w = (Settled (Normal configuration_error), w).
Proof.
  intros Hm Hv Hu. apply handler_unconfigured; [exact Hm | exact Hv |].
  rewrite !configured_None. exact Hu.
Qed.

Lemma unset_variable_is_a_configuration_error_witness :
  handler sample_request
    {| YOUTUBE_API_KEY := Some (lit "yt-key");
       REDDIT_CLIENT_ID := Some (lit "id");
       REDDIT_CLIENT_SECRET := Some (lit "secret");
       GEMINI_API_KEY := Some [] |} cold
  = (Settled (Normal configuration_error), cold).
Proof.
  apply unset_variable_is_a_configuration_error;
    [reflexivity | reflexivity |].
  right. right. right. right. reflexivity.
Defined.

(** X5.  While the cached token is fresh when the request arrives, handling
    the request issues no credential exchange, whatever the credentials of
    the environment, and every community call carries as its bearer the
    string the cached token converts to. *)
Theorem fresh_token_spares_the_exchange (E : Call -> Reply -> Prop)
    (req : HttpRequest) (env : Env) (w : World) :
  fresh w = true ->
  Starts E
    (fun c => adapter c <> Credential
              /\ forall name n bearer,
                   c = RedditHot name n bearer ->
                   ToString (value (redditToken w)) = Normal bearer)
    (Fulfils (answer_in E req env w)) (handler req env) w.
Proof.
  intros Hf. eapply Starts_calls; [| apply handler_answer].
  intros c (_ & _ & youtube & clientId & clientSecret & gemini
            & _ & _ & _ & _ & _ & Hc).
  destruct c; cbn in Hc;
    (split; [try discriminate
            | intros name n' bearer' Heq; try discriminate Heq]).
  - destruct Hc as [Hstale _]. congruence.
  - injection Heq as <- <- <-.
    destruct Hc as [(s & token & _ & _ & Hin & _ & Hb) _].
    unfold token_in in Hin. rewrite Hf in Hin. now subst token.
Qed.

Lemma fresh_token_spares_the_exchange_witness :
  fresh (warm "cached" 1) = true
  /\ Starts any_reply
       (fun c => adapter c <> Credential
                 /\ forall name n bearer,
                      c = RedditHot name n bearer ->
                      Normal (lit "cached") = Normal bearer)
       (Fulfils (answer_in any_reply sample_request sample_env
                           (warm "cached" 1)))
       (handler sample_request sample_env) (warm "cached" 1).
Proof.
  split; [reflexivity |].
  apply (fresh_token_spares_the_exchange any_reply sample_request sample_env
           (warm "cached" 1)).
  reflexivity.
Defined.

(** X6.  The handler issues calls only for a valid POST in a configured
    environment whose audience and goal convert to strings, and then, in
    every run and up to its answer, only calls of these forms: the search
    for the encoded query; for a requested channel whose name converts to
    a string, the search for its encoded name and the listing for the
    string of the id read from the reply to that search; the credential
    exchange with the configured id and secret, when the cached token is
    not fresh; for a requested subreddit, the listing for the string it
    converts to, which carries the string of the token in use; the
    generation for a prompt assembled from the data collected.  Every
    result limit is 3, and each key goes to its own service only. *)
Theorem handler_issues_only_expected_calls (req : HttpRequest) (env : Env)
    (w : World) :
  (forall E,
     Starts E (may_call E req env w) (fun _ => True) (handler req env) w)
  /\ (forall E events,
        all_allowed E (handler req env w) events ->
        exists l,
          calls (snd (run (handler req env) w events)) = calls w ++ l
          /\ Forall (may_call E req env w) l).
Proof.
  split.
  - intros E. eapply Starts_weaken; [apply handler_answer | auto].
  - intros E events Hall.
    destruct (Starts_run E _ _ _ w events (handler_answer E req env w) Hall)
      as [Hi _].
    exact Hi.
Qed.

Lemma collectData_unencodable audience goal channels subs youtube clientId
    clientSecret w query :
  query_text audience goal = Normal query ->
  encodeURIComponent query = None ->
  collectData audience goal channels subs youtube clientId clientSecret w
  = (Settled (Throw uri_malformed),
     snd (reddit_branch clientId clientSecret subs
            (snd (all_of (channel_videos youtube) channels w)))).
Proof.
  intros Hquery Hq. unfold collectData. rewrite bind_complete, Hquery.
  unfold all3, searchYouTubeVideos. rewrite Hq. cbn [throw].
  destruct (all_of (channel_videos youtube) channels w) as [pb w2].
  cbn [snd].
  destruct (reddit_branch clientId clientSecret subs w2) as [pc w3].
  now rewrite par_eq.
Qed.

Lemma issues_In K w w' c : issues K w w' -> In c (calls w) -> In c (calls w').
Proof. intros [l [-> _]] H. apply in_or_app. now left. Qed.

Lemma start_each_issues {X A} (f : X -> Async A) xs :
  (forall x w, issues any_call w (snd (f x w))) ->
  forall w, issues any_call w (snd (start_each f xs w)).
Proof.
  intros Hf. induction xs as [| x xs IH]; intros w; cbn.
  - apply issues_refl.
  - specialize (Hf x w). destruct (f x w) as [p w1]; cbn in *.
    specialize (IH w1). destruct (start_each f xs w1) as [ps w2]; cbn in *.
    eapply issues_trans; eauto.
Qed.

Lemma channel_search_started youtube ch name q w :
  ToString ch = Normal name -> encodeURIComponent name = Some q ->
  In (YouTubeChannelSearch q youtube)
     (calls (snd (channel_videos youtube ch w))).
Proof.
  intros Hname Hq. remember (channel_videos youtube ch w) as r eqn:Hr.
  unfold channel_videos, getChannelVideos in Hr.
  unfold bind at 1 in Hr. unfold try_catch in Hr. rewrite bind_complete in Hr.
  rewrite Hname in Hr. cbv beta iota in Hr. rewrite Hq in Hr.
  subst r. cbn. apply in_or_app. right. now left.
Qed.

Lemma channel_searches_started youtube channels ch name q w :
  In ch channels -> ToString ch = Normal name ->
  encodeURIComponent name = Some q ->
  In (YouTubeChannelSearch q youtube)
     (calls (snd (all_of (channel_videos youtube) channels w))).
Proof.
  intros Hch Hname Hq. unfold all_of.
  assert (Hf : forall x w', issues any_call w'
                                   (snd (channel_videos youtube x w'))).
  { intros x w'.
    apply (channel_videos_exact any_reply any_call youtube x); intros; exact I. }
  assert (H : In (YouTubeChannelSearch q youtube)
                 (calls (snd (start_each (channel_videos youtube) channels w)))).
  { revert w. induction channels as [| x xs IH]; intros w; [contradiction |].
    cbn [start_each].
    destruct (channel_videos youtube x w) as [p w1] eqn:Hx.
    pose proof (start_each_issues (channel_videos youtube) xs Hf w1) as Hi.
    assert (IH' := fun H => IH H w1).
    destruct (start_each (channel_videos youtube) xs w1) as [ps w2].
    cbn [snd] in *. destruct Hch as [-> | Hch]; [| now apply IH'].
    apply (issues_In _ _ _ _ Hi).
    assert (Hw : w1 = snd (channel_videos youtube ch w)) by now rewrite Hx.
    rewrite Hw. now apply (channel_search_started youtube ch name q). }
  now destruct (start_each (channel_videos youtube) channels w).
Qed.

Lemma credential_exchange_started clientId clientSecret subs w :
  fresh w = false ->
  snd (reddit_branch clientId clientSecret subs w)
  = issue (RedditAccessToken clientId clientSecret) w.
Proof.
  intros Hf. unfold reddit_branch, bind at 1.
  destruct (getRedditAccessToken_stale clientId clientSecret w Hf)
    as [resume [-> _]].
  reflexivity.
Qed.

(** X1.  The search query is encoded before the [try] block of
    [searchYouTubeVideos].  A valid POST whose query (audience, a space,
    goal, each converted to a string) cannot be encoded, because of an
    unpaired surrogate, is answered at once with 500 and the details
    [URI malformed]; the generator is not called and no search is issued,
    but the search for every channel whose name converts and encodes and,
    unless the cached token is fresh, the credential exchange have been
    issued all the same, and nothing they bring can reach the answer. *)
Theorem unencodable_query_is_answered_500 (req : HttpRequest) (env : Env)
    (youtube clientId clientSecret gemini query : jsstring) (w : World) :
  method req = lit "POST" -> valid req = true ->
  configured (YOUTUBE_API_KEY env) = Some youtube ->
  configured (REDDIT_CLIENT_ID env) = Some clientId ->
  configured (REDDIT_CLIENT_SECRET env) = Some clientSecret ->
  configured (GEMINI_API_KEY env) = Some gemini ->
  query_of req = Normal query ->
  encodeURIComponent query = None ->
  fst (handler req env w) = Settled (Normal (internal_error uri_malformed))
  /\ issues (fun c => adapter c <> TrendSearch /\ adapter c <> Generator)
            w (snd (handler req env w))
  /\ (forall ch name q, In ch (channels_of req) ->
                        ToString ch = Normal name ->
                        encodeURIComponent name = Some q ->
                        In (YouTubeChannelSearch q youtube)
                           (calls (snd (handler req env w))))
  /\ (fresh w = false ->
      In (RedditAccessToken clientId clientSecret)
         (calls (snd (handler req env w)))).
Proof.
  intros Hm Hv Hy Hi Hs Hg Hquery Hq.
  assert (Hh : handler req env w
               = (Settled (Normal (internal_error uri_malformed)),
                  snd (reddit_branch clientId clientSecret (subreddits_of req)
                         (snd (all_of (channel_videos youtube)
                                      (channels_of req) w))))).
  { rewrite handler_POST by exact Hm. rewrite Hv, Hy, Hi, Hs, Hg.
    cbn [negb]. unfold try_catch, bind at 1.
    rewrite (collectData_unencodable _ _ _ _ _ _ _ _ query)
      by (exact Hquery || exact Hq).
    reflexivity. }
  split; [now rewrite Hh |]. split; [| split].
  - destruct (handler_expected any_reply req env youtube clientId clientSecret
                gemini w Hm Hv Hy Hi Hs Hg) as [Hiss _].
    eapply issues_calls; [| exact Hiss].
    intros c [_ Hc]. destruct c; cbn in Hc; split; try discriminate.
    + destruct Hc as [[query' [Hq1 Hq2]] _]. congruence.
    + destruct Hc as [[query' [q [d [Hq1 [Hq2 _]]]]] _]. congruence.
  - intros ch name q Hch Hname Hch'. rewrite Hh. cbn [snd].
    eapply issues_In.
    + apply (reddit_branch_exact any_reply any_call); intros; exact I.
    + now apply (channel_searches_started youtube (channels_of req) ch name q).
  - intros Hf. rewrite Hh. cbn [snd].
    rewrite credential_exchange_started.
    + cbn. apply in_or_app. right. now left.
    + destruct (all_of_quiet (channel_videos youtube) (channels_of req)
                  (channel_videos_quiet youtube) w) as [Ht Hc].
      unfold fresh in *. now rewrite Ht, Hc.
Qed.

Lemma unencodable_query_is_answered_500_witness :
  query_of lone_surrogate_request
  = Normal (55357%N :: lit " grow subscribers")
  /\ encodeURIComponent (55357%N :: lit " grow subscribers") = None
  /\ fst (handler lone_surrogate_request sample_env cold)
     = Settled (Normal (internal_error uri_malformed))
  /\ In (YouTubeChannelSearch (lit "ChannelA") (lit "yt-key"))
        (calls (snd (handler lone_surrogate_request sample_env cold)))
  /\ In (RedditAccessToken (lit "id") (lit "secret"))
        (calls (snd (handler lone_surrogate_request sample_env cold))).
Proof.
  split; [reflexivity |]. split; [reflexivity |].
  destruct (unencodable_query_is_answered_500 lone_surrogate_request sample_env
              (lit "yt-key") (lit "id") (lit "secret") (lit "gemini-key")
              (55357%N :: lit " grow subscribers") cold)
    as (Hres & _ & Hch & Htok); try reflexivity.
  split; [exact Hres |]. split.
  - apply (Hch (JStr (lit "ChannelA")) (lit "ChannelA"));
      [now left | reflexivity | reflexivity].
  - now apply Htok.
Defined.

(** X7.  A token stored by [getRedditAccessToken] is what every later call
    returns, with no call to the network, as long as the clock is strictly
    before the arrival of the reply that brought it plus 50 minutes; from
    that instant on a new exchange is issued.  The cache is not keyed by
    the credentials: a later call with another id and secret is given the
    same token. *)
Theorem stored_token_is_reused_until_expiry
    (clientId clientSecret clientId' clientSecret' : jsstring) (w : World)
    (e : Event) (o : bool) (st : jsstring) (v token : JsValue) (t : Z) :
  fresh w = false -> which e = 0%nat ->
  reply e = HttpReply o st (Some v) ->
  get v "access_token" = Normal token -> truthy token = true ->
  let w1 :=
    set_clock t (snd (step (getRedditAccessToken clientId clientSecret w) e)) in
  ((t < at_time e + 50 * 60 * 1000)%Z ->
   getRedditAccessToken clientId' clientSecret' w1
   = (Settled (Normal token), w1))
  /\ ((at_time e + 50 * 60 * 1000 <= t)%Z ->
      exists resume,
        getRedditAccessToken clientId' clientSecret' w1
        = (Pending [RedditAccessToken clientId' clientSecret'] resume,
           issue (RedditAccessToken clientId' clientSecret') w1)).
Proof.
  intros Hf He Hr Hg Ht.
  destruct (getRedditAccessToken_stale clientId clientSecret w Hf)
    as [resume [Heq Hres]].
  assert (Hstep : step (getRedditAccessToken clientId clientSecret w) e
                  = (Settled (Normal token),
                     set_redditToken
                       {| value := token;
                          expires := at_time e + 50 * 60 * 1000 |}
                       (set_clock (at_time e)
                          (issue (RedditAccessToken clientId clientSecret) w)))).
  { rewrite Heq. unfold step. cbn [fst snd]. rewrite He.
    cbn [List.length Nat.ltb Nat.leb]. rewrite Hres, Hr.
    unfold access_token. cbn. rewrite Hg. cbn. rewrite Ht. reflexivity. }
  intros w1.
  assert (Hw1 : redditToken w1
                = {| value := token; expires := at_time e + 50 * 60 * 1000 |}
                /\ clock w1 = t)
    by (unfold w1; rewrite Hstep; split; reflexivity).
  destruct Hw1 as [Hc Hk]. clearbody w1. split.
  - intros Hlt.
    rewrite (getRedditAccessToken_fresh clientId' clientSecret' w1).
    + now rewrite Hc.
    + unfold fresh. rewrite Hc, Hk. cbn [value expires]. rewrite Ht.
      now apply Z.gtb_lt.
  - intros Hge.
    destruct (getRedditAccessToken_stale clientId' clientSecret' w1)
      as [resume' [Heq' _]].
    + unfold fresh. rewrite Hc, Hk. cbn [value expires]. rewrite Ht.
      rewrite Z.gtb_ltb. now apply Z.ltb_ge.
    + now exists resume'.
Qed.

Lemma stored_token_is_reused_until_expiry_witness :
  fresh cold = false
  /\ getRedditAccessToken (lit "other-id") (lit "other-secret")
       (set_clock 3000999
          (snd (step (getRedditAccessToken (lit "id") (lit "secret") cold)
                     (at_ 0 (ok_reply (token_granted "tok")) 1000))))
     = (Settled (Normal (JStr (lit "tok"))),
        set_clock 3000999
          (snd (step (getRedditAccessToken (lit "id") (lit "secret") cold)
                     (at_ 0 (ok_reply (token_granted "tok")) 1000)))).
Proof.
  split; [reflexivity |].
  apply (stored_token_is_reused_until_expiry (lit "id") (lit "secret")
           (lit "other-id") (lit "other-secret") cold
           (at_ 0 (ok_reply (token_granted "tok")) 1000) true (lit "OK")
           (token_granted "tok") (JStr (lit "tok")) 3000999);
    try reflexivity.
Defined.

(** ** The clients, reply by reply *)

(** Case analysis on the innermost thing the goal branches on. *)
Ltac innermost :=
  match goal with
  | |- context [match ?x with _ => _ end] =>
      lazymatch x with
      | context [match _ with _ => _ end] => fail
      | _ => idtac
      end;
      match type of x with
      | Completion _ => destruct x eqn:?
      | bool => destruct x eqn:?
      | option _ => destruct x eqn:?
      end
  end.

Lemma searchYouTubeVideos_step query q key n w e :
  encodeURIComponent query = Some q -> which e = 0%nat ->
  step (searchYouTubeVideos query key n w) e
  = (Settled (Normal (searched (reply e))),
     set_clock (at_time e) (issue (YouTubeSearch q n key) w)).
Proof.
  intros Hq He. unfold searchYouTubeVideos. rewrite Hq.
  unfold step. cbn. rewrite He. cbn. unfold searched.
  destruct (reply e) as [| [|] st [v |]]; cbn; repeat (branch; cbn);
    reflexivity.
Qed.

Lemma getSubredditPosts_unconvertible sub token n w :
  convertible sub && convertible token = false ->
  getSubredditPosts sub token n w = (Settled (Throw cannot_convert), w).
Proof.
  intros H. unfold getSubredditPosts. rewrite bind_complete.
  destruct (ToString sub) as [name | e] eqn:Hsub.
  - rewrite bind_complete.
    destruct (ToString token) as [bearer | e] eqn:Htok.
    + unfold convertible in H. rewrite Hsub, Htok in H. discriminate H.
    + now rewrite (ToString_throws _ _ Htok).
  - now rewrite (ToString_throws _ _ Hsub).
Qed.

Lemma getSubredditPosts_step sub token n w e name bearer :
  ToString sub = Normal name -> ToString token = Normal bearer ->
  which e = 0%nat ->
  step (getSubredditPosts sub token n w) e
  = (Settled (Normal (hot (reply e))),
     set_clock (at_time e) (issue (RedditHot name n bearer) w)).
Proof.
  intros Hsub Htok He. unfold getSubredditPosts. rewrite Hsub, Htok.
  unfold step. cbn. rewrite He. cbn. unfold hot.
  destruct (reply e) as [| o st [v |]]; cbn; repeat (branch; cbn);
    reflexivity.
Qed.

Lemma callGeminiAPI_step prompt key w e :
  which e = 0%nat ->
  step (callGeminiAPI prompt key w) e
  = (Settled (generation (reply e)),
     set_clock (at_time e) (issue (GeminiGenerate prompt key) w)).
Proof.
  intros He. unfold callGeminiAPI, step. cbn. rewrite He. cbn.
  unfold generation, gemini_text.
  destruct (reply e) as [| [|] st [v |]]; cbn; repeat (branch; cbn);
    reflexivity.
Qed.

Lemma getChannelVideos_unconvertible ch key n w e :
  ToString ch = Throw e ->
  getChannelVideos ch key n w = (Settled (Throw cannot_convert), w).
Proof.
  intros H. unfold getChannelVideos, try_catch. rewrite bind_complete.
  pose proof (ToString_throws _ _ H) as He. rewrite H. cbn. now rewrite He.
Qed.

Lemma getChannelVideos_unencodable ch key n w name :
  ToString ch = Normal name -> encodeURIComponent name = None ->
  getChannelVideos ch key n w = (Settled (Normal []), w).
Proof.
  intros H Hq. unfold getChannelVideos, try_catch. rewrite bind_complete.
  rewrite H. cbv beta iota. rewrite Hq. reflexivity.
Qed.

Lemma getChannelVideos_step ch name q key n w e :
  ToString ch = Normal name -> encodeURIComponent name = Some q ->
  which e = 0%nat ->
  match channel_id (reply e) with
  | Normal (Some id) =>
      match ToString id with
      | Normal idtext =>
          exists resume,
            step (getChannelVideos ch key n w) e
            = (Pending [YouTubeChannelVideos idtext n key] resume,
               issue (YouTubeChannelVideos idtext n key)
                 (set_clock (at_time e) (issue (YouTubeChannelSearch q key) w)))
            /\ forall i r w',
                 resume i r w' = (Settled (Normal (listed r)), w')
      | Throw _ =>
          step (getChannelVideos ch key n w) e
          = (Settled (Normal []),
             set_clock (at_time e) (issue (YouTubeChannelSearch q key) w))
      end
  | _ =>
      step (getChannelVideos ch key n w) e
      = (Settled (Normal []),
         set_clock (at_time e) (issue (YouTubeChannelSearch q key) w))
  end.
Proof.
  intros Hname Hq He. unfold getChannelVideos. rewrite Hname.
  unfold try_catch. rewrite bind_complete. cbv beta iota. rewrite Hq.
  unfold step. cbn. rewrite He. cbn. unfold channel_id.
  destruct (reply e) as [| o st [v |]]; cbn; unfold cbind;
    repeat (innermost; cbn; unfold cbind); try reflexivity.
  eexists. split; [reflexivity |].
  intros i r w'. unfold listed.
  destruct r as [| o' st' [v' |]]; cbn; unfold cbind;
    repeat (innermost; cbn; unfold cbind); reflexivity.
Qed.

(** X8.  Of the five clients only [searchYouTubeVideos] and
    [callGeminiAPI] look at the status of the reply: a reply that is not
    [ok] gives the empty list, whatever its body, and a generation failure.
    [getSubredditPosts], [getRedditAccessToken] and both steps of
    [getChannelVideos] read the body alone: two replies with the same body
    are treated alike, whatever their [ok] flags and status texts. *)
Theorem status_is_read_by_search_and_generation_only (w : World) (t : Z)
    (o o' : bool) (st st' : jsstring) (b : option JsValue) :
  (forall query q key n,
     encodeURIComponent query = Some q ->
     fst (step (searchYouTubeVideos query key n w) (at_ 0 (HttpReply false st b) t))
     = Settled (Normal []))
  /\ (forall prompt key,
        fst (step (callGeminiAPI prompt key w) (at_ 0 (HttpReply false st b) t))
        = Settled (Throw generation_failed))
  /\ (forall sub token n,
        step (getSubredditPosts sub token n w) (at_ 0 (HttpReply o st b) t)
        = step (getSubredditPosts sub token n w) (at_ 0 (HttpReply o' st' b) t))
  /\ (forall clientId clientSecret,
        step (getRedditAccessToken clientId clientSecret w)
             (at_ 0 (HttpReply o st b) t)
        = step (getRedditAccessToken clientId clientSecret w)
               (at_ 0 (HttpReply o' st' b) t))
  /\ (forall ch key n e,
        run (getChannelVideos ch key n) w [at_ 0 (HttpReply o st b) t]
        = run (getChannelVideos ch key n) w [at_ 0 (HttpReply o' st' b) t]
        /\ run (getChannelVideos ch key n) w [e; at_ 0 (HttpReply o st b) t]
           = run (getChannelVideos ch key n) w [e; at_ 0 (HttpReply o' st' b) t]).
Proof.
  split; [| split; [| split; [| split]]].
  - intros query q key n Hq.
    now rewrite (searchYouTubeVideos_step query q key n w
                   (at_ 0 (HttpReply false st b) t) Hq eq_refl).
  - intros prompt key.
    now rewrite (callGeminiAPI_step prompt key w
                   (at_ 0 (HttpReply false st b) t) eq_refl).
  - intros sub token n.
    destruct (convertible sub && convertible token) eqn:Hc.
    + apply andb_true_iff in Hc. destruct Hc as [Hs Ht].
      apply convertible_true in Hs. apply convertible_true in Ht.
      destruct Hs as [name Hs]. destruct Ht as [bearer Ht].
      now rewrite (getSubredditPosts_step sub token n w
                     (at_ 0 (HttpReply o st b) t) name bearer Hs Ht eq_refl),
                  (getSubredditPosts_step sub token n w
                     (at_ 0 (HttpReply o' st' b) t) name bearer Hs Ht eq_refl).
    + now rewrite (getSubredditPosts_unconvertible sub token n w Hc).
  - intros clientId clientSecret. destruct (fresh w) eqn:Hf.
    + now rewrite getRedditAccessToken_fresh.
    + destruct (getRedditAccessToken_stale clientId clientSecret w Hf)
        as [resume [-> Hres]].
      unfold step. cbn. now rewrite !Hres.
  - intros ch key n e. unfold run.
    destruct (ToString ch) as [name | err] eqn:Hname.
    2:{ rewrite (getChannelVideos_unconvertible ch key n w err Hname).
        split; reflexivity. }
    destruct (encodeURIComponent name) as [q |] eqn:Hq.
    2:{ rewrite (getChannelVideos_unencodable ch key n w name Hname Hq).
        split; reflexivity. }
    assert (Hpending : exists resume,
               getChannelVideos ch key n w
               = (Pending [YouTubeChannelSearch q key] resume,
                  issue (YouTubeChannelSearch q key) w)).
    { unfold getChannelVideos, try_catch. rewrite bind_complete, Hname.
      cbv beta iota. rewrite Hq. cbn. now eexists. }
    assert (H0 : step (getChannelVideos ch key n w) (at_ 0 (HttpReply o st b) t)
                 = step (getChannelVideos ch key n w)
                        (at_ 0 (HttpReply o' st' b) t)).
    { pose proof (getChannelVideos_step ch name q key n w
                    (at_ 0 (HttpReply o st b) t) Hname Hq eq_refl) as H1.
      pose proof (getChannelVideos_step ch name q key n w
                    (at_ 0 (HttpReply o' st' b) t) Hname Hq eq_refl) as H2.
      cbn [reply at_time at_] in H1, H2.
      change (channel_id (HttpReply o' st' b))
        with (channel_id (HttpReply o st b)) in H2.
      destruct (channel_id (HttpReply o st b)) as [[id |] | err];
        try congruence.
      destruct (ToString id) as [idtext | err]; [| congruence].
      clear H1 H2 Hpending. unfold getChannelVideos, try_catch.
      rewrite bind_complete, Hname. cbv beta iota. rewrite Hq. reflexivity. }
    split; [exact H0 |].
    cbn [fold_left].
    destruct (Nat.eq_dec (which e) 0) as [He | He].
    + pose proof (getChannelVideos_step ch name q key n w e Hname Hq He)
        as H1.
      destruct (channel_id (reply e)) as [[id |] | err];
        try (rewrite H1; reflexivity).
      destruct (ToString id) as [idtext | err];
        [| rewrite H1; reflexivity].
      destruct H1 as [resume [-> Hres]].
      unfold step. cbn. now rewrite !Hres.
    + destruct Hpending as [resume Hp].
      assert (Hs : step (getChannelVideos ch key n w) e
                   = getChannelVideos ch key n w).
      { rewrite Hp. unfold step. cbn.
        destruct (which e); [contradiction | reflexivity]. }
      rewrite Hs. exact H0.
Qed.

(** ** The titles read from a listing *)

Lemma cmap_Forall2 {A B} (f : A -> Completion B) l ys :
  Forall2 (fun x y => f x = Normal y) l ys -> cmap f l = Normal ys.
Proof.
  induction 1 as [| x y l ys Hxy _ IH]; cbn; [reflexivity |].
  now rewrite Hxy, IH.
Qed.

Lemma cmap_Exists {A B} (f : A -> Completion B) l :
  Exists (fun x => exists e, f x = Throw e) l -> exists e, cmap f l = Throw e.
Proof.
  induction 1 as [x l [e He] | x l _ [e IH]]; cbn.
  - rewrite He. now exists e.
  - destruct (f x) as [y | e']; cbn; [| now exists e'].
    rewrite IH. now exists e.
Qed.

(** The list a client returns for an array of items. *)
Lemma titles_all_or_nothing via items :
  (forall rs,
     Forall2 (fun item r => title_via via item = Normal r) items rs ->
     or_empty (titles_or_empty via (JArr items)) = rs)
  /\ (Exists (fun item => exists e, title_via via item = Throw e) items ->
      or_empty (titles_or_empty via (JArr items)) = []).
Proof.
  unfold titles_or_empty. split.
  - intros rs H. now rewrite (cmap_Forall2 _ _ _ H).
  - intros H. destruct (cmap_Exists _ _ H) as [e ->]. reflexivity.
Qed.

(** X9.  The titles of a listing are read all or none.  When every item of
    the array has the member the title is read through ([snippet], or
    [data] for a post), the client returns one record per item, in the
    order of the array; an item without a [title] gives a record whose
    title is [undefined].  When a single item lacks that member, or is
    [null], the [TypeError] is caught by the client and the whole listing
    is returned empty, the titles of the other items included.  This is
    said of a search whose query encodes, of a listing of posts whose
    subreddit and token convert to strings, and of a listing of videos for
    a channel whose name converts and encodes and whose id converts. *)
Theorem one_unreadable_item_empties_the_listing (items : list JsValue)
    (v : JsValue) (st : jsstring) (w : World) (t : Z) :
  (forall query q key n,
     encodeURIComponent query = Some q ->
     get v "items" = Normal (JArr items) ->
     (forall rs,
        Forall2 (fun item r => title_via "snippet" item = Normal r) items rs ->
        fst (step (searchYouTubeVideos query key n w)
                  (at_ 0 (HttpReply true st (Some v)) t))
        = Settled (Normal rs))
     /\ (Exists (fun item => exists e, title_via "snippet" item = Throw e) items ->
         fst (step (searchYouTubeVideos query key n w)
                   (at_ 0 (HttpReply true st (Some v)) t))
         = Settled (Normal [])))
  /\ (forall sub token n o data,
        convertible sub = true -> convertible token = true ->
        get v "data" = Normal data ->
        get_optional data "children" = Normal (JArr items) ->
        (forall rs,
           Forall2 (fun item r => title_via "data" item = Normal r) items rs ->
           fst (step (getSubredditPosts sub token n w)
                     (at_ 0 (HttpReply o st (Some v)) t))
           = Settled (Normal rs))
        /\ (Exists (fun item => exists e, title_via "data" item = Throw e) items ->
            fst (step (getSubredditPosts sub token n w)
                      (at_ 0 (HttpReply o st (Some v)) t))
            = Settled (Normal [])))
  /\ (forall ch name q key n e id o,
        ToString ch = Normal name ->
        encodeURIComponent name = Some q ->
        which e = 0%nat -> channel_id (reply e) = Normal (Some id) ->
        convertible id = true ->
        get v "items" = Normal (JArr items) ->
        (forall rs,
           Forall2 (fun item r => title_via "snippet" item = Normal r) items rs ->
           fst (run (getChannelVideos ch key n) w
                    [e; at_ 0 (HttpReply o st (Some v)) t])
           = Settled (Normal rs))
        /\ (Exists (fun item => exists e, title_via "snippet" item = Throw e) items ->
            fst (run (getChannelVideos ch key n) w
                     [e; at_ 0 (HttpReply o st (Some v)) t])
            = Settled (Normal [])))
  /\ (forall via item inner,
        get item via = Normal inner -> get inner "title" = Normal JUndefined ->
        title_via via item = Normal {| title := JUndefined |})
  /\ (forall via, exists e, title_via via JNull = Throw e).
Proof.
  destruct (titles_all_or_nothing "snippet" items) as [Hall Hnone].
  destruct (titles_all_or_nothing "data" items) as [Hall' Hnone'].
  split; [| split; [| split; [| split]]].
  - intros query q key n Hq Hitems.
    rewrite (searchYouTubeVideos_step query q key n w
               (at_ 0 (HttpReply true st (Some v)) t) Hq eq_refl).
    cbn [fst reply at_]. unfold searched. cbn. rewrite Hitems. cbn.
    split; [intros rs H; now rewrite (Hall rs H) | intros H; now rewrite Hnone].
  - intros sub token n o data Hs Ht Hdata Hchildren.
    apply convertible_true in Hs. apply convertible_true in Ht.
    destruct Hs as [name Hs]. destruct Ht as [bearer Ht].
    rewrite (getSubredditPosts_step sub token n w
               (at_ 0 (HttpReply o st (Some v)) t) name bearer Hs Ht eq_refl).
    cbn [fst reply at_]. unfold hot. cbn. rewrite Hdata. cbn.
    rewrite Hchildren. cbn.
    split; [intros rs H; now rewrite (Hall' rs H) | intros H; now rewrite Hnone'].
  - intros ch name q key n e id o Hname Hq He Hid Hconv Hitems.
    apply convertible_true in Hconv. destruct Hconv as [idtext Hconv].
    unfold run. cbn [fold_left].
    pose proof (getChannelVideos_step ch name q key n w e Hname Hq He) as Hstep.
    rewrite Hid, Hconv in Hstep. destruct Hstep as [resume [-> Hres]].
    unfold step. cbn. rewrite Hres. cbn [fst]. unfold listed. cbn.
    rewrite Hitems. cbn.
    split; [intros rs H; now rewrite (Hall rs H) | intros H; now rewrite Hnone].
  - intros via item inner Hi Ht. unfold title_via. rewrite Hi. cbn.
    now rewrite Ht.
  - intros via. now eexists.
Qed.

Lemma one_unreadable_item_empties_the_listing_witness :
  fst (step (searchYouTubeVideos (lit "q") (lit "k") 3 cold)
            (at_ 0 (HttpReply true (lit "OK")
                      (Some (JObj [(lit "items",
                               JArr [JObj [(lit "snippet",
                                            JObj [(lit "title", JStr (lit "A"))])];
                                     JObj [(lit "id", JStr (lit "x"))]])])))
                 1))
  = Settled (Normal []).
Proof.
  destruct (one_unreadable_item_empties_the_listing
              [JObj [(lit "snippet", JObj [(lit "title", JStr (lit "A"))])];
               JObj [(lit "id", JStr (lit "x"))]]
              (JObj [(lit "items",
                      JArr [JObj [(lit "snippet",
                                   JObj [(lit "title", JStr (lit "A"))])];
                            JObj [(lit "id", JStr (lit "x"))]])])
              (lit "OK") cold 1) as [Hsearch _].
  destruct (Hsearch (lit "q") (lit "q") (lit "k") 3%N eq_refl eq_refl)
    as [_ Hnone].
  apply Hnone. right. left. now eexists.
Defined.

Lemma cmap_Normal {A B} (f : A -> Completion B) l ys :
  cmap f l = Normal ys -> Forall2 (fun x y => f x = Normal y) l ys.
Proof.
  revert ys. induction l as [| x l IH]; cbn; intros ys H.
  - injection H as <-. constructor.
  - destruct (f x) as [y | e] eqn:Hx; cbn in H; [| discriminate].
    destruct (cmap f l) as [ys' | e]; cbn in H; [| discriminate].
    injection H as <-. constructor; auto.
Qed.

(** The records of a listing that is not empty are the titles of the
    items of an array, one for one. *)
Lemma titles_read_from via arr :
  or_empty (titles_or_empty via arr) = []
  \/ exists items,
       arr = JArr items
       /\ Forall2 (fun item r => title_via via item = Normal r) items
                  (or_empty (titles_or_empty via arr)).
Proof.
  unfold titles_or_empty. destruct arr; try (now left).
  destruct (cmap (title_via via) elems) as [rs | e] eqn:Hc; [| now left].
  right. exists elems. split; [reflexivity |]. now apply cmap_Normal.
Qed.

(** X16.  Every title a listing client returns is read from the reply.  The
    result of [searchYouTubeVideos], and that of [getSubredditPosts] when
    the subreddit and the token convert to strings, is the empty list, or
    the reply has a body that parsed, with an array in the place the items
    are read from ([items], [data.children]), and the records are the
    titles of its items, one for one and in its order; for the search the
    reply is moreover [ok].  No record is made up, dropped or reordered.
    When the subreddit or the token cannot be converted to a string,
    [getSubredditPosts] is rejected at once and issues no call. *)
Theorem every_title_is_read_from_the_reply (w : World) (e : Event) :
  which e = 0%nat ->
  (forall query q key n,
     encodeURIComponent query = Some q ->
     exists rs,
       fst (step (searchYouTubeVideos query key n w) e) = Settled (Normal rs)
       /\ (rs = []
           \/ exists st v items,
                reply e = HttpReply true st (Some v)
                /\ get v "items" = Normal (JArr items)
                /\ Forall2 (fun item r => title_via "snippet" item = Normal r)
                           items rs))
  /\ (forall sub token n,
        convertible sub && convertible token = true ->
        exists rs,
          fst (step (getSubredditPosts sub token n w) e) = Settled (Normal rs)
          /\ (rs = []
              \/ exists o st v data items,
                   reply e = HttpReply o st (Some v)
                   /\ get v "data" = Normal data
                   /\ get_optional data "children" = Normal (JArr items)
                   /\ Forall2 (fun item r => title_via "data" item = Normal r)
                              items rs))
  /\ (forall sub token n,
        convertible sub && convertible token = false ->
        getSubredditPosts sub token n w = (Settled (Throw cannot_convert), w)).
Proof.
  intros He. split; [| split].
  - intros query q key n Hq.
    rewrite (searchYouTubeVideos_step query q key n w e Hq He).
    exists (searched (reply e)). split; [reflexivity |].
    unfold searched. destruct (reply e) as [| [|] st [v |]]; cbn; auto.
    destruct (get v "items") as [arr | err] eqn:Hitems; cbn; auto.
    destruct (titles_read_from "snippet" arr) as [H | [items [-> H]]]; auto.
    right. now exists st, v, items.
  - intros sub token n Hc.
    apply andb_true_iff in Hc. destruct Hc as [Hs Ht].
    apply convertible_true in Hs. apply convertible_true in Ht.
    destruct Hs as [name Hs]. destruct Ht as [bearer Ht].
    rewrite (getSubredditPosts_step sub token n w e name bearer Hs Ht He).
    exists (hot (reply e)). split; [reflexivity |].
    unfold hot. destruct (reply e) as [| o st [v |]]; cbn; auto.
    destruct (get v "data") as [data | err] eqn:Hdata; cbn; auto.
    destruct (get_optional data "children") as [arr | err] eqn:Hc; cbn; auto.
    destruct (titles_read_from "data" arr) as [H | [items [-> H]]]; auto.
    right. now exists o, st, v, data, items.
  - intros sub token n. apply getSubredditPosts_unconvertible.
Qed.

Lemma every_title_is_read_from_the_reply_witness :
  exists rs,
    fst (step (getSubredditPosts (JStr (lit "parenting")) (JStr (lit "tok")) 3
                                 cold)
              (at_ 0 (ok_reply (hot_posts ["Teething"%string])) 1))
    = Settled (Normal rs)
    /\ (rs = []
        \/ exists o st v data items,
             ok_reply (hot_posts ["Teething"%string]) = HttpReply o st (Some v)
             /\ get v "data" = Normal data
             /\ get_optional data "children" = Normal (JArr items)
             /\ Forall2 (fun item r => title_via "data" item = Normal r)
                        items rs).
Proof.
  destruct (every_title_is_read_from_the_reply cold
              (at_ 0 (ok_reply (hot_posts ["Teething"%string])) 1) eq_refl)
    as (_ & H & _).
  apply (H (JStr (lit "parenting")) (JStr (lit "tok")) 3%N). reflexivity.
Defined.



(** ** The lines of the prompt *)




(** ** The cost of a run *)

#[local] Arguments issued : simpl never.
#[local] Arguments spent : simpl never.
#[local] Arguments follows : simpl never.

Section Cost.
Variable cost : Adapter -> nat.

Lemma issued_app w w' l : calls w' = calls w ++ l -> issued w w' = l.
Proof.
  intros H. unfold issued. rewrite H. clear H.
  induction (calls w) as [| c cs IH]; cbn; [reflexivity | exact IH].
Qed.

Lemma follows_same w w' :
  calls w' = calls w ->
  redditToken w' = redditToken w \/ truthy (value (redditToken w')) = true ->
  follows w w'.
Proof.
  intros Hc Ht.
  assert (Hi : issued w w' = []) by (apply issued_app; now rewrite app_nil_r).
  split; [now rewrite Hi, app_nil_r | exact Ht].
Qed.

Lemma spent_same w w' : calls w' = calls w -> spent cost w w' = 0.
Proof.
  intros Hc. unfold spent.
  now rewrite (issued_app w w' []) by now rewrite app_nil_r.
Qed.

Lemma follows_refl w : follows w w.
Proof. apply follows_same; auto. Qed.

Lemma spent_refl w : spent cost w w = 0.
Proof. now apply spent_same. Qed.

Lemma follows_issue c w : follows w (issue c w).
Proof.
  split; [| now left]. now rewrite (issued_app w (issue c w) [c]).
Qed.

Lemma spent_issue c w : spent cost w (issue c w) = cost (adapter c).
Proof.
  unfold spent. rewrite (issued_app w (issue c w) [c]) by reflexivity.
  cbn. lia.
Qed.

Lemma weight_app l l' : weight cost (l ++ l') = weight cost l + weight cost l'.
Proof. unfold weight. now rewrite map_app, list_sum_app. Qed.

Lemma follows_trans w1 w2 w3 :
  follows w1 w2 -> follows w2 w3 ->
  follows w1 w3 /\ spent cost w1 w3 = spent cost w1 w2 + spent cost w2 w3.
Proof.
  intros [H1 T1] [H2 T2].
  assert (Hi : issued w1 w3 = issued w1 w2 ++ issued w2 w3).
  { apply issued_app. now rewrite H2, H1 at 1; rewrite <- app_assoc. }
  split; [split |].
  - rewrite Hi, app_assoc, <- H1. exact H2.
  - destruct T2 as [T2 | T2]; [| now right].
    rewrite T2. exact T1.
  - unfold spent. now rewrite Hi, weight_app.
Qed.

Lemma follows_set_clock t w : follows w (set_clock t w).
Proof. apply follows_same; auto. Qed.

Lemma spent_set_clock t w : spent cost w (set_clock t w) = 0.
Proof. now apply spent_same. Qed.

Lemma Spends_mono {A} n m (p : Promise A) :
  Spends cost n p -> n <= m -> Spends cost m p.
Proof.
  intros H. revert m.
  induction H as [n c | n reqs resume Hf Hs Hr IH]; intros m Hm.
  - apply Spends_settled.
  - apply Spends_pending; [exact Hf | |].
    + intros i r w. specialize (Hs i r w). lia.
    + intros i r w. apply IH. lia.
Qed.

Lemma Costs_mono {A} n m (a : Async A) w :
  Costs cost n a w -> n <= m -> Costs cost m a w.
Proof.
  intros (Hf & Hs & Hr) Hm. split; [exact Hf |]. split; [lia |].
  eapply Spends_mono; [exact Hr | lia].
Qed.

Lemma Costs_at_once {A} n (a : Async A) w c :
  a w = (Settled c, w) -> Costs cost n a w.
Proof.
  intros Ha. unfold Costs. rewrite Ha. cbn [fst snd].
  split; [apply follows_refl |]. split; [rewrite spent_refl; lia |].
  apply Spends_settled.
Qed.

(** A step of the promise, then what the rest of the body does. *)
Lemma Costs_after {A} n m w1 w2 (a : Async A) :
  follows w1 w2 -> spent cost w1 w2 <= n ->
  Costs cost (n - spent cost w1 w2 + m) a w2 ->
  follows w1 (snd (a w2))
  /\ spent cost w1 (snd (a w2)) <= n + m
  /\ Spends cost (n + m - spent cost w1 (snd (a w2))) (fst (a w2)).
Proof.
  intros Hf Hs (Hf' & Hs' & Hr').
  destruct (follows_trans _ _ _ Hf Hf') as [Hf'' Heq].
  split; [exact Hf'' |]. split; [lia |].
  eapply Spends_mono; [exact Hr' | lia].
Qed.

Lemma then_costs {A B} n m (p : Promise A) (f : A -> Async B) :
  Spends cost n p -> (forall a w, Costs cost m (f a) w) ->
  forall w, Costs cost (n + m) (then_ p f) w.
Proof.
  intros Hp Hf.
  induction Hp as [n c | n reqs resume Hfo Hs Hr IH]; intros w.
  - destruct c as [a | e]; cbn.
    + eapply Costs_mono; [apply Hf | lia].
    + now apply (Costs_at_once _ _ _ (Throw e)).
  - unfold Costs. cbn [then_ fst snd].
    split; [apply follows_refl |]. split; [rewrite spent_refl; lia |].
    rewrite spent_refl, Nat.sub_0_r.
    assert (H : forall i r w',
              let pw := (let (p', w'') := resume i r w' in then_ p' f w'') in
              follows w' (snd pw)
              /\ spent cost w' (snd pw) <= n + m
              /\ Spends cost (n + m - spent cost w' (snd pw)) (fst pw)).
    { intros i r w'. specialize (Hfo i r w'). specialize (Hs i r w').
      specialize (IH i r w').
      destruct (resume i r w') as [p' w'']; cbn [fst snd] in *.
      now apply Costs_after. }
    apply Spends_pending; intros i r w'; apply (H i r w').
Qed.

Lemma bind_costs {A B} n m (a : Async A) (f : A -> Async B) w :
  Costs cost n a w -> (forall x w', Costs cost m (f x) w') ->
  Costs cost (n + m) (bind a f) w.
Proof.
  intros (Hf & Hs & Hr) Hk. unfold Costs, bind.
  destruct (a w) as [p w1]; cbn [fst snd] in *.
  apply Costs_after; [exact Hf | exact Hs |].
  now apply then_costs.
Qed.

Lemma catch_costs {A} n m (p : Promise A) (h : JsError -> Async A) :
  Spends cost n p -> (forall e w, Costs cost m (h e) w) ->
  forall w, Costs cost (n + m) (catch_ p h) w.
Proof.
  intros Hp Hh.
  induction Hp as [n c | n reqs resume Hfo Hs Hr IH]; intros w.
  - destruct c as [a | e]; cbn.
    + now apply (Costs_at_once _ _ _ (Normal a)).
    + eapply Costs_mono; [apply Hh | lia].
  - unfold Costs. cbn [catch_ fst snd].
    split; [apply follows_refl |]. split; [rewrite spent_refl; lia |].
    rewrite spent_refl, Nat.sub_0_r.
    assert (H : forall i r w',
              let pw := (let (p', w'') := resume i r w' in catch_ p' h w'') in
              follows w' (snd pw)
              /\ spent cost w' (snd pw) <= n + m
              /\ Spends cost (n + m - spent cost w' (snd pw)) (fst pw)).
    { intros i r w'. specialize (Hfo i r w'). specialize (Hs i r w').
      specialize (IH i r w').
      destruct (resume i r w') as [p' w'']; cbn [fst snd] in *.
      now apply Costs_after. }
    apply Spends_pending; intros i r w'; apply (H i r w').
Qed.

Lemma try_catch_costs {A} n m (body : Async A) (h : JsError -> Async A) w :
  Costs cost n body w -> (forall e w', Costs cost m (h e) w') ->
  Costs cost (n + m) (try_catch body h) w.
Proof.
  intros (Hf & Hs & Hr) Hk. unfold Costs, try_catch.
  destruct (body w) as [p w1]; cbn [fst snd] in *.
  apply Costs_after; [exact Hf | exact Hs |].
  now apply catch_costs.
Qed.

Lemma fetch_costs c w : Costs cost (cost (adapter c)) (fetch c) w.
Proof.
  unfold Costs, fetch. cbn [fst snd].
  split; [apply follows_issue |]. split; [rewrite spent_issue; lia |].
  apply Spends_pending; intros i r w'; cbn [fst snd].
  - apply follows_refl.
  - rewrite spent_refl. lia.
  - apply Spends_settled.
Qed.

Lemma par_spends {A B} n m (p : Promise A) (q : Promise B) :
  Spends cost n p -> Spends cost m q -> Spends cost (n + m) (par p q).
Proof.
  intros Hp. revert m q.
  induction Hp as [n c | n rp kp Hfp Hsp Hrp IHp]; intros m q Hq.
  - induction Hq as [m d | m rq kq Hfq Hsq Hrq IHq]; rewrite par_eq.
    + destruct c as [a | e]; [destruct d as [b | e] |]; apply Spends_settled.
    + destruct c as [a | e]; [| apply Spends_settled].
      apply Spends_pending; intros i r w;
        specialize (Hfq i r w); specialize (Hsq i r w); specialize (IHq i r w);
        destruct (kq i r w) as [q' w']; cbn [fst snd] in *;
        [exact Hfq | lia |].
      eapply Spends_mono; [exact IHq | lia].
  - assert (Hpend : Spends cost n (Pending rp kp))
      by (apply Spends_pending; assumption).
    induction Hq as [m d | m rq kq Hfq Hsq Hrq IHq]; rewrite par_eq.
    + destruct d as [b | e]; [| apply Spends_settled].
      apply Spends_pending; intros i r w;
        specialize (Hfp i r w); specialize (Hsp i r w);
        specialize (IHp i r w m (Settled (Normal b)) (Spends_settled _ _ _));
        destruct (kp i r w) as [p' w']; cbn [fst snd] in *;
        [exact Hfp | lia |].
      eapply Spends_mono; [exact IHp | lia].
    + assert (Hq : Spends cost m (Pending rq kq))
        by (apply Spends_pending; assumption).
      apply Spends_pending; intros i r w;
        destruct (i <? List.length rp)%nat.
      * specialize (Hfp i r w). now destruct (kp i r w).
      * specialize (Hfq (i - List.length rp)%nat r w).
        now destruct (kq (i - List.length rp)%nat r w).
      * specialize (Hsp i r w). destruct (kp i r w); cbn [fst snd] in *. lia.
      * specialize (Hsq (i - List.length rp)%nat r w).
        destruct (kq (i - List.length rp)%nat r w); cbn [fst snd] in *. lia.
      * specialize (Hsp i r w). specialize (IHp i r w m _ Hq).
        destruct (kp i r w) as [p' w']; cbn [fst snd] in *.
        eapply Spends_mono; [exact IHp | lia].
      * specialize (Hsq (i - List.length rp)%nat r w).
        specialize (IHq (i - List.length rp)%nat r w).
        destruct (kq (i - List.length rp)%nat r w) as [q' w'];
          cbn [fst snd] in *.
        eapply Spends_mono; [exact IHq | lia].
Qed.

Lemma pmap_spends {A B} (f : A -> B) n (p : Promise A) :
  Spends cost n p -> Spends cost n (pmap f p).
Proof.
  induction 1 as [n c | n reqs resume Hf Hs Hr IH]; cbn.
  - destruct c; apply Spends_settled.
  - apply Spends_pending; intros i r w;
      specialize (Hf i r w); specialize (Hs i r w); specialize (IH i r w);
      destruct (resume i r w) as [p' w']; assumption.
Qed.

Lemma Promise_all_spends {A} (ns : list nat) (ps : list (Promise A)) :
  Forall2 (Spends cost) ns ps -> Spends cost (list_sum ns) (Promise_all ps).
Proof.
  induction 1 as [| n p ns ps Hp _ IH]; cbn.
  - apply Spends_settled.
  - apply pmap_spends. now apply par_spends.
Qed.

(** The calls started one after the other: what they cost at the start,
    and what each of them may still cost. *)
Lemma start_each_costs {X A} n (f : X -> Async A) xs :
  (forall x w, Costs cost n (f x) w) ->
  forall w,
    exists ns,
      follows w (snd (start_each f xs w))
      /\ Forall2 (Spends cost) ns (fst (start_each f xs w))
      /\ spent cost w (snd (start_each f xs w)) + list_sum ns
         <= n * List.length xs.
Proof.
  intros Hf. induction xs as [| x xs IH]; intros w; cbn [start_each].
  - exists []. cbn [fst snd]. split; [apply follows_refl |].
    split; [constructor |]. rewrite spent_refl. cbn. lia.
  - destruct (Hf x w) as (Hfo & Hs & Hr).
    destruct (f x w) as [p w1]; cbn [fst snd] in *.
    destruct (IH w1) as (ns & Hfo' & Hall & Hsum).
    destruct (start_each f xs w1) as [ps w2]; cbn [fst snd] in *.
    destruct (follows_trans _ _ _ Hfo Hfo') as [Hfo'' Heq].
    exists ((n - spent cost w w1) :: ns).
    split; [exact Hfo'' |]. split; [now constructor |].
    cbn [List.length]. rewrite Nat.mul_succ_r.
    unfold list_sum in *. cbn [fold_right]. lia.
Qed.

Lemma all_of_costs {X A} n (f : X -> Async A) xs w :
  (forall x w', Costs cost n (f x) w') ->
  Costs cost (n * List.length xs) (all_of f xs) w.
Proof.
  intros Hf. unfold Costs, all_of.
  destruct (start_each_costs n f xs Hf w) as (ns & Hfo & Hall & Hsum).
  destruct (start_each f xs w) as [ps w']; cbn [fst snd] in *.
  split; [exact Hfo |]. split; [lia |].
  eapply Spends_mono; [apply Promise_all_spends, Hall | lia].
Qed.

Lemma all3_costs {A B C} n m k (a : Async A) (b : Async B) (c : Async C) w :
  Costs cost n a w -> (forall w', Costs cost m b w') ->
  (forall w', Costs cost k c w') ->
  Costs cost (n + m + k) (all3 a b c) w.
Proof.
  intros (Hfa & Hsa & Hra) Hb Hc. unfold Costs, all3.
  destruct (a w) as [pa w1]; cbn [fst snd] in *.
  destruct (Hb w1) as (Hfb & Hsb & Hrb).
  destruct (b w1) as [pb w2]; cbn [fst snd] in *.
  destruct (Hc w2) as (Hfc & Hsc & Hrc).
  destruct (c w2) as [pc w3]; cbn [fst snd] in *.
  destruct (follows_trans _ _ _ Hfa Hfb) as [Hf12 Heq12].
  destruct (follows_trans _ _ _ Hf12 Hfc) as [Hf13 Heq13].
  split; [exact Hf13 |]. split; [lia |].
  eapply Spends_mono.
  - apply par_spends; [exact Hra |]. apply par_spends; [exact Hrb | exact Hrc].
  - lia.
Qed.
End Cost.

(** *** The clients *)

Section ClientCosts.
Variable cost : Adapter -> nat.

Lemma Costs_ext {A} n (a b : Async A) w :
  a w = b w -> Costs cost n b w -> Costs cost n a w.
Proof. unfold Costs. now intros ->. Qed.

Lemma Costs_free {A} n (a : Async A) w :
  (exists c, a w = (Settled c, w)) -> Costs cost n a w.
Proof. intros [c Hc]. now apply (Costs_at_once cost n a w c). Qed.

(** What is left to prove of a step that issues one call at most. *)
Ltac settle :=
  first [ apply follows_refl
        | apply follows_issue
        | apply Spends_settled
        | rewrite ?spent_refl, ?spent_issue; cbn [adapter]; lia ].

Lemma searchYouTubeVideos_costs query key n w :
  Costs cost (cost TrendSearch) (searchYouTubeVideos query key n) w.
Proof.
  unfold searchYouTubeVideos.
  destruct (encodeURIComponent query) as [q |];
    [| apply Costs_free; now eexists].
  unfold Costs. cbn. rewrite spent_issue. cbn [adapter].
  split; [settle |]. split; [settle |].
  apply Spends_pending; intros i r w';
    destruct r as [| [|] st [v |]]; cbn; repeat (branch; cbn); settle.
Qed.

Lemma complete_costs {A B} n (c : Completion A) (f : A -> Async B) w :
  (forall a, c = Normal a -> Costs cost n (f a) w) ->
  Costs cost n (bind (complete c) f) w.
Proof.
  intros H. unfold Costs. rewrite bind_complete. destruct c as [a | e].
  - now apply H.
  - now apply (Costs_at_once cost n (fun w => (Settled (Throw e), w)) w (Throw e)).
Qed.

Lemma getChannelVideos_costs ch key n w :
  Costs cost (2 * cost ChannelListing) (getChannelVideos ch key n) w.
Proof.
  destruct (ToString ch) as [name | err] eqn:Hname.
  2:{ apply Costs_free. eexists.
      now apply (getChannelVideos_unconvertible ch key n w err). }
  destruct (encodeURIComponent name) as [q |] eqn:Hq.
  2:{ apply Costs_free. eexists.
      now apply (getChannelVideos_unencodable ch key n w name). }
  unfold Costs, getChannelVideos, try_catch. rewrite bind_complete, Hname.
  cbv beta iota. rewrite Hq. cbn. rewrite spent_issue. cbn [adapter].
  split; [settle |]. split; [settle |].
  apply Spends_pending; intros i r w';
    destruct r as [| o st [v |]]; cbn; repeat (branch; cbn); try settle.
  rewrite spent_issue. cbn [adapter].
  apply Spends_pending; intros i' r' w'';
    destruct r' as [| o' st' [v' |]]; cbn; repeat (branch; cbn); settle.
Qed.

Lemma access_token_truthy r t : access_token r = Normal t -> truthy t = true.
Proof.
  unfold access_token. destruct r as [| o st [v |]]; cbn; try discriminate.
  destruct (get v "access_token") as [token | e]; cbn; [| discriminate].
  destruct (truthy token) eqn:Ht; cbn; [| discriminate].
  now intros [= <-].
Qed.

Lemma getRedditAccessToken_costs clientId clientSecret w :
  Costs cost (cost Credential) (getRedditAccessToken clientId clientSecret) w.
Proof.
  destruct (fresh w) eqn:Hf.
  { apply Costs_free. eexists. now apply getRedditAccessToken_fresh. }
  destruct (getRedditAccessToken_stale clientId clientSecret w Hf)
    as [resume [Heq Hres]].
  unfold Costs. rewrite Heq. cbn [fst snd]. rewrite spent_issue. cbn [adapter].
  split; [settle |]. split; [settle |].
  assert (H : forall i r w',
            follows w' (snd (resume i r w'))
            /\ spent cost w' (snd (resume i r w')) = 0).
  { intros i r w'. rewrite Hres.
    destruct (access_token r) as [t | e] eqn:Ha; cbn [snd].
    - split; [| now apply spent_same].
      apply follows_same; [reflexivity |]. right. cbn.
      now apply (access_token_truthy r).
    - split; [apply follows_refl | apply spent_refl]. }
  apply Spends_pending; intros i r w'.
  - apply H.
  - destruct (H i r w') as [_ ->]. lia.
  - rewrite Hres. destruct (access_token r); apply Spends_settled.
Qed.

Lemma getSubredditPosts_costs sub token n w :
  Costs cost (cost CommunityListing) (getSubredditPosts sub token n) w.
Proof.
  destruct (convertible sub && convertible token) eqn:Hc.
  2:{ apply Costs_free. eexists.
      now apply getSubredditPosts_unconvertible. }
  apply andb_true_iff in Hc. destruct Hc as [Hs Ht].
  apply convertible_true in Hs. apply convertible_true in Ht.
  destruct Hs as [name Hs]. destruct Ht as [bearer Ht].
  unfold getSubredditPosts, Costs. rewrite Hs, Ht. cbn.
  rewrite spent_issue. cbn [adapter].
  split; [settle |]. split; [settle |].
  apply Spends_pending; intros i r w';
    destruct r as [| o st [v |]]; cbn; repeat (branch; cbn); settle.
Qed.

Lemma callGeminiAPI_costs prompt key w :
  Costs cost (cost Generator) (callGeminiAPI prompt key) w.
Proof.
  unfold callGeminiAPI, Costs. cbn. rewrite spent_issue. cbn [adapter].
  split; [settle |]. split; [settle |].
  apply Spends_pending; intros i r w';
    destruct r as [| [|] st [v |]]; cbn; repeat (branch; cbn); settle.
Qed.

Lemma channel_videos_costs key ch w :
  Costs cost (2 * cost ChannelListing) (channel_videos key ch) w.
Proof.
  unfold channel_videos.
  apply (Costs_mono cost (2 * cost ChannelListing + 0)); [| lia].
  apply bind_costs; [apply getChannelVideos_costs |].
  intros vs w'. apply Costs_free. now eexists.
Qed.

Lemma subreddit_posts_costs token sub w :
  Costs cost (cost CommunityListing) (subreddit_posts token sub) w.
Proof.
  unfold subreddit_posts.
  apply (Costs_mono cost (cost CommunityListing + 0)); [| lia].
  apply bind_costs; [apply getSubredditPosts_costs |].
  intros vs w'. apply Costs_free. now eexists.
Qed.

Lemma reddit_branch_costs clientId clientSecret subs w :
  Costs cost (cost Credential + cost CommunityListing * List.length subs)
        (reddit_branch clientId clientSecret subs) w.
Proof.
  unfold reddit_branch.
  apply bind_costs; [apply getRedditAccessToken_costs |].
  intros token w'. destruct (truthy token).
  - apply all_of_costs. intros sub w''. apply subreddit_posts_costs.
  - apply Costs_free. now eexists.
Qed.

Lemma collectData_costs audience goal channels subs youtube clientId
    clientSecret w :
  Costs cost
    (cost TrendSearch + 2 * cost ChannelListing * List.length channels
     + (cost Credential + cost CommunityListing * List.length subs))
    (collectData audience goal channels subs youtube clientId clientSecret) w.
Proof.
  unfold collectData. apply complete_costs. intros query _.
  apply all3_costs.
  - apply searchYouTubeVideos_costs.
  - intros w'. apply all_of_costs. intros ch w''. apply channel_videos_costs.
  - intros w'. apply reddit_branch_costs.
Qed.

Lemma handler_costs req env w : Costs cost (budget cost req) (handler req env) w.
Proof.
  destruct (jsstring_eqb (method req) (lit "OPTIONS")) eqn:Ho.
  { apply Costs_free. eexists. unfold handler. now rewrite Ho. }
  destruct (jsstring_eqb (method req) (lit "POST")) eqn:Hp.
  2:{ apply Costs_free. eexists. unfold handler. now rewrite Ho, Hp. }
  apply jsstring_eqb_eq in Hp.
  apply (Costs_ext _ _ _ _ (handler_POST req env w Hp)).
  apply (Costs_mono cost (budget cost req + 0)); [| lia].
  apply try_catch_costs; [| intros e w'; apply Costs_free; now eexists].
  destruct (negb (valid req)); [apply Costs_free; now eexists |].
  destruct (configured (YOUTUBE_API_KEY env)) as [youtube |];
    [| apply Costs_free; now eexists].
  destruct (configured (REDDIT_CLIENT_ID env)) as [clientId |];
    [| apply Costs_free; now eexists].
  destruct (configured (REDDIT_CLIENT_SECRET env)) as [clientSecret |];
    [| apply Costs_free; now eexists].
  destruct (configured (GEMINI_API_KEY env)) as [gemini |];
    [| apply Costs_free; now eexists].
  eapply Costs_mono.
  - apply bind_costs; [apply collectData_costs |].
    intros d w'. apply complete_costs. intros prompt _.
    apply (bind_costs cost (cost Generator) 0).
    + apply callGeminiAPI_costs.
    + intros t w''. apply Costs_free. now eexists.
  - unfold budget. lia.
Qed.

(** *** Along a run *)

Lemma Spends_step {A} n (p : Promise A) w e :
  Spends cost n p ->
  follows w (snd (step (p, w) e))
  /\ spent cost w (snd (step (p, w) e)) <= n
  /\ Spends cost (n - spent cost w (snd (step (p, w) e)))
            (fst (step (p, w) e)).
Proof.
  intros Hp. destruct Hp as [n c | n reqs resume Hf Hs Hr];
    unfold step; cbn [fst snd].
  - split; [apply follows_refl |]. split; [rewrite spent_refl; lia |].
    apply Spends_settled.
  - destruct (which e <? List.length reqs)%nat; cbn [fst snd].
    + specialize (Hf (which e) (reply e) (set_clock (at_time e) w)).
      specialize (Hs (which e) (reply e) (set_clock (at_time e) w)).
      specialize (Hr (which e) (reply e) (set_clock (at_time e) w)).
      destruct (follows_trans cost _ _ _ (follows_set_clock (at_time e) w) Hf)
        as [Hf' Heq].
      rewrite spent_set_clock in Heq. cbn in Heq. rewrite Heq.
      auto.
    + split; [apply follows_refl |]. split; [rewrite spent_refl; lia |].
      rewrite spent_refl, Nat.sub_0_r. now apply Spends_pending.
Qed.

Lemma Spends_fold {A} events :
  forall n (p : Promise A) w,
    Spends cost n p ->
    follows w (snd (fold_left step events (p, w)))
    /\ spent cost w (snd (fold_left step events (p, w))) <= n.
Proof.
  induction events as [| e es IH]; intros n p w Hp; cbn [fold_left].
  - cbn [snd]. split; [apply follows_refl | rewrite spent_refl; lia].
  - destruct (Spends_step n p w e Hp) as (Hf & Hs & Hr).
    destruct (step (p, w) e) as [p' w']; cbn [fst snd] in *.
    destruct (IH _ p' w' Hr) as [Hf' Hs'].
    destruct (follows_trans cost _ _ _ Hf Hf') as [Hf'' Heq].
    split; [exact Hf'' | lia].
Qed.

Lemma Costs_run {A} n (a : Async A) w events :
  Costs cost n a w ->
  follows w (snd (run a w events))
  /\ spent cost w (snd (run a w events)) <= n.
Proof.
  intros (Hf & Hs & Hr). unfold run.
  destruct (a w) as [p w1]; cbn [fst snd] in *.
  destruct (Spends_fold events _ p w1 Hr) as [Hf' Hs'].
  destruct (follows_trans cost _ _ _ Hf Hf') as [Hf'' Heq].
  split; [exact Hf'' | lia].
Qed.
End ClientCosts.



(** X13.  A run of the handler never clears the cached token and never
    stores a falsy one: whatever the request, the replies and the order of
    completion, the cache holds afterwards the token it held before, or a
    truthy one. *)
Theorem handler_keeps_or_stores_a_truthy_token (req : HttpRequest) (env : Env)
    (w : World) (events : list Event) :
  redditToken (snd (run (handler req env) w events)) = redditToken w
  \/ truthy (value (redditToken (snd (run (handler req env) w events)))) = true.
Proof.
  apply (Costs_run each _ _ w events (handler_costs each req env w)).
Qed.

(** ** Replies given as a function of the call, in any order *)

Lemma Runs_serve (net : Call -> Reply) (K : Call -> Prop) {A}
    (P : Completion A -> Prop) schedule :
  forall (p : Promise A) w,
    Runs (replies net) K P p ->
    Runs (replies net) K P (fst (fold_left (serve net) schedule (p, w))).
Proof.
  induction schedule as [| it its IH]; intros p w Hp; cbn [fold_left];
    [exact Hp |].
  assert (H : Runs (replies net) K P (fst (serve net (p, w) it))).
  { unfold serve. cbn [fst snd].
    destruct Hp as [c Hc | reqs resume Hne Hiss Hrun];
      [now apply Runs_settled |].
    destruct (nth_error reqs (fst it)) as [c |] eqn:Hn;
      [| now apply Runs_pending].
    unfold step. cbn [fst snd which reply at_time].
    assert (Hlt : (fst it <? List.length reqs)%nat = true).
    { apply Nat.ltb_lt, nth_error_Some. now rewrite Hn. }
    rewrite Hlt. now apply (Hrun _ c). }
  destruct (serve net (p, w) it) as [p' w']. now apply IH.
Qed.

Lemma answer_in_replies net req env w res :
  answer_in (replies net) req env w res -> res = answer_of net req env w.
Proof.
  unfold answer_in, answer_of.
  destruct (jsstring_eqb (method req) (lit "OPTIONS")); [auto |].
  destruct (negb (jsstring_eqb (method req) (lit "POST"))); [auto |].
  destruct (negb (valid req)); [auto |].
  destruct (configured (YOUTUBE_API_KEY env)) as [youtube |]; [| auto].
  destruct (configured (REDDIT_CLIENT_ID env)) as [clientId |]; [| auto].
  destruct (configured (REDDIT_CLIENT_SECRET env)) as [clientSecret |];
    [| auto].
  destruct (configured (GEMINI_API_KEY env)) as [gemini |]; [| auto].
  apply response_unique.
Qed.

(** X14.  The answer of the handler is a function of the replies.  When
    the reply to each call depends on the call alone, the handler is
    fulfilled with the same answer in whatever order, and at whatever
    times, the calls complete: the answer of its decision table, computed
    from the data that the replies give, the answers to a failed
    conversion and to a query that cannot be encoded included. *)
Theorem answer_is_a_function_of_the_replies (net : Call -> Reply)
    (req : HttpRequest) (env : Env) (w : World) :
  Starts (replies net) any_call
    (Fulfils (fun res => res = answer_of net req env w)) (handler req env) w
  /\ (forall schedule c,
        fst (run_with net (handler req env) w schedule) = Settled c ->
        c = Normal (answer_of net req env w))
  /\ (forall schedule schedule' c c',
        fst (run_with net (handler req env) w schedule) = Settled c ->
        fst (run_with net (handler req env) w schedule') = Settled c' ->
        c = c').
Proof.
  assert (H : Starts (replies net) any_call
                (Fulfils (fun res => res = answer_of net req env w))
                (handler req env) w).
  { eapply Starts_weaken.
    - eapply Starts_calls; [| apply handler_answer]. intros c _. exact I.
    - intros c [res [-> Hres]]. exists res. split; [reflexivity |].
      now apply answer_in_replies. }
  assert (H' : forall schedule c,
             fst (run_with net (handler req env) w schedule) = Settled c ->
             c = Normal (answer_of net req env w)).
  { intros schedule c Hc. destruct H as [_ Hr]. unfold run_with in Hc.
    destruct (handler req env w) as [p w1]; cbn [fst] in Hr.
    pose proof (Runs_serve net _ _ schedule p w1 Hr) as Hs.
    rewrite Hc in Hs. inversion Hs as [c' Hc' |].
    destruct Hc' as [res [Hres ->]]. exact Hres. }
  split; [exact H |]. split; [exact H' |].
  intros schedule schedule' c c' Hc Hc'.
  now rewrite (H' _ _ Hc), (H' _ _ Hc').
Qed.

Lemma answer_is_a_function_of_the_replies_witness :
  fst (run_with all_up (handler sample_request sample_env) cold
         [(2, 1%Z); (1, 2%Z); (0, 3%Z); (1, 4%Z); (0, 5%Z); (0, 6%Z)])
  = Settled (Normal (answer_of all_up sample_request sample_env cold))
  /\ answer_of all_up sample_request sample_env cold
     = success (JStr (lit "{}")).
Proof.
  split; [| vm_compute; reflexivity].
  destruct (answer_is_a_function_of_the_replies all_up sample_request
              sample_env cold) as (_ & H & _).
  assert (Hs : fst (run_with all_up (handler sample_request sample_env) cold
                      [(2, 1%Z); (1, 2%Z); (0, 3%Z); (1, 4%Z); (0, 5%Z);
                       (0, 6%Z)])
               = Settled (Normal (success (JStr (lit "{}")))))
    by (vm_compute; reflexivity).
  pose proof (H _ _ Hs) as Heq. rewrite Hs. now rewrite Heq.
Defined.

(** ** The number of completions before the answer *)

Lemma Within_mono {A} n m (p : Promise A) :
  Within n p -> n <= m -> Within m p.
Proof.
  intros H. revert m. induction H as [n c | n reqs resume _ IH]; intros m Hm.
  - apply Within_settled.
  - destruct m as [| m]; [lia |]. apply Within_pending.
    intros i r w. apply IH. lia.
Qed.

Lemma then_within {A B} n m (p : Promise A) (f : A -> Async B) :
  Within n p -> (forall a w, Within m (fst (f a w))) ->
  forall w, Within (n + m) (fst (then_ p f w)).
Proof.
  intros Hp Hf. induction Hp as [n c | n reqs resume _ IH]; intros w.
  - destruct c as [a | e]; cbn.
    + eapply Within_mono; [apply Hf | lia].
    + apply Within_settled.
  - cbn. apply Within_pending. intros i r w'. specialize (IH i r w').
    destruct (resume i r w') as [p' w'']. apply IH.
Qed.

Lemma bind_within {A B} n m (a : Async A) (f : A -> Async B) w :
  Within n (fst (a w)) -> (forall x w', Within m (fst (f x w'))) ->
  Within (n + m) (fst (bind a f w)).
Proof.
  intros Ha Hf. unfold bind. destruct (a w) as [p w1].
  now apply then_within.
Qed.

Lemma catch_within {A} n m (p : Promise A) (h : JsError -> Async A) :
  Within n p -> (forall e w, Within m (fst (h e w))) ->
  forall w, Within (n + m) (fst (catch_ p h w)).
Proof.
  intros Hp Hh. induction Hp as [n c | n reqs resume _ IH]; intros w.
  - destruct c as [a | e]; cbn.
    + apply Within_settled.
    + eapply Within_mono; [apply Hh | lia].
  - cbn. apply Within_pending. intros i r w'. specialize (IH i r w').
    destruct (resume i r w') as [p' w'']. apply IH.
Qed.

Lemma try_catch_within {A} n m (body : Async A) (h : JsError -> Async A) w :
  Within n (fst (body w)) -> (forall e w', Within m (fst (h e w'))) ->
  Within (n + m) (fst (try_catch body h w)).
Proof.
  intros Ha Hh. unfold try_catch. destruct (body w) as [p w1].
  now apply catch_within.
Qed.

Lemma par_within {A B} n m (p : Promise A) (q : Promise B) :
  Within n p -> Within m q -> Within (n + m) (par p q).
Proof.
  intros Hp. revert m q.
  induction Hp as [n c | n rp kp Hkp IHp]; intros m q Hq.
  - induction Hq as [m d | m rq kq _ IHq]; rewrite par_eq.
    + destruct c as [a | e]; [destruct d as [b | e] |]; apply Within_settled.
    + destruct c as [a | e]; [| apply Within_settled].
      rewrite Nat.add_succ_r. apply Within_pending. intros i r w.
      specialize (IHq i r w). now destruct (kq i r w).
  - assert (Hpend : Within (S n) (Pending rp kp))
      by now apply Within_pending.
    induction Hq as [m d | m rq kq Hkq IHq]; rewrite par_eq.
    + destruct d as [b | e]; [| apply Within_settled].
      cbn [Nat.add]. apply Within_pending. intros i r w.
      specialize (IHp i r w m (Settled (Normal b)) (Within_settled _ _)).
      now destruct (kp i r w).
    + cbn [Nat.add]. apply Within_pending. intros i r w.
      destruct (i <? List.length rp)%nat.
      * specialize (IHp i r w (S m) (Pending rq kq)
                        (Within_pending _ _ _ Hkq)).
        now destruct (kp i r w).
      * specialize (IHq (i - List.length rp)%nat r w).
        destruct (kq (i - List.length rp)%nat r w) as [q' w']; cbn [fst] in *.
        eapply Within_mono; [exact IHq | lia].
Qed.

Lemma pmap_within {A B} (f : A -> B) n (p : Promise A) :
  Within n p -> Within n (pmap f p).
Proof.
  induction 1 as [n c | n reqs resume _ IH]; cbn.
  - destruct c; apply Within_settled.
  - apply Within_pending. intros i r w. specialize (IH i r w).
    now destruct (resume i r w).
Qed.

Lemma all_of_within {X A} n (f : X -> Async A) xs :
  (forall x w, Within n (fst (f x w))) ->
  forall w, Within (n * List.length xs) (fst (all_of f xs w)).
Proof.
  intros Hf w. unfold all_of.
  assert (H : Within (n * List.length xs)
                (Promise_all (fst (start_each f xs w)))).
  { revert w. induction xs as [| x xs IH]; intros w; cbn.
    - apply Within_settled.
    - specialize (Hf x w). destruct (f x w) as [p w1]; cbn [fst] in Hf.
      specialize (IH w1). destruct (start_each f xs w1) as [ps w2].
      cbn [fst Promise_all] in *. apply pmap_within.
      rewrite Nat.mul_succ_r, Nat.add_comm. now apply par_within. }
  now destruct (start_each f xs w).
Qed.

Lemma all3_within {A B C} n m k (a : Async A) (b : Async B) (c : Async C) w :
  Within n (fst (a w)) -> (forall w', Within m (fst (b w'))) ->
  (forall w', Within k (fst (c w'))) ->
  Within (n + (m + k)) (fst (all3 a b c w)).
Proof.
  intros Ha Hb Hc. unfold all3.
  destruct (a w) as [pa w1]. specialize (Hb w1).
  destruct (b w1) as [pb w2]. specialize (Hc w2).
  destruct (c w2) as [pc w3]. cbn [fst] in *.
  apply par_within; [exact Ha |]. now apply par_within.
Qed.

Lemma Within_free {A} n (a : Async A) w :
  (exists c, a w = (Settled c, w)) -> Within n (fst (a w)).
Proof. intros [c ->]. apply Within_settled. Qed.

Lemma searchYouTubeVideos_within query key n w :
  Within 1 (fst (searchYouTubeVideos query key n w)).
Proof.
  unfold searchYouTubeVideos.
  destruct (encodeURIComponent query) as [q |]; cbn;
    [| apply Within_settled].
  apply Within_pending. intros i r w'.
  destruct r as [| [|] st [v |]]; cbn; repeat (branch; cbn);
    apply Within_settled.
Qed.

Lemma complete_within {A B} n (c : Completion A) (f : A -> Async B) w :
  (forall a, c = Normal a -> Within n (fst (f a w))) ->
  Within n (fst (bind (complete c) f w)).
Proof.
  intros H. rewrite bind_complete. destruct c as [a | e];
    [now apply H | apply Within_settled].
Qed.

Lemma getChannelVideos_within ch key n w :
  Within 2 (fst (getChannelVideos ch key n w)).
Proof.
  destruct (ToString ch) as [name | err] eqn:Hname.
  2:{ rewrite (getChannelVideos_unconvertible ch key n w err Hname).
      apply Within_settled. }
  destruct (encodeURIComponent name) as [q |] eqn:Hq.
  2:{ rewrite (getChannelVideos_unencodable ch key n w name Hname Hq).
      apply Within_settled. }
  unfold getChannelVideos, try_catch. rewrite bind_complete, Hname.
  cbv beta iota. rewrite Hq. cbn.
  apply Within_pending. intros i r w'.
  destruct r as [| o st [v |]]; cbn; repeat (branch; cbn);
    try apply Within_settled.
  apply Within_pending. intros i' r' w''.
  destruct r' as [| o' st' [v' |]]; cbn; repeat (branch; cbn);
    apply Within_settled.
Qed.

Lemma getRedditAccessToken_within clientId clientSecret w :
  Within 1 (fst (getRedditAccessToken clientId clientSecret w)).
Proof.
  destruct (fresh w) eqn:Hf.
  - rewrite getRedditAccessToken_fresh by exact Hf. apply Within_settled.
  - destruct (getRedditAccessToken_stale clientId clientSecret w Hf)
      as [resume [-> Hres]].
    apply Within_pending. intros i r w'. rewrite Hres.
    destruct (access_token r); apply Within_settled.
Qed.

Lemma getSubredditPosts_within sub token n w :
  Within 1 (fst (getSubredditPosts sub token n w)).
Proof.
  destruct (convertible sub && convertible token) eqn:Hc.
  2:{ rewrite (getSubredditPosts_unconvertible sub token n w Hc).
      apply Within_settled. }
  apply andb_true_iff in Hc. destruct Hc as [Hs Ht].
  apply convertible_true in Hs. apply convertible_true in Ht.
  destruct Hs as [name Hs]. destruct Ht as [bearer Ht].
  unfold getSubredditPosts. rewrite Hs, Ht. cbn.
  apply Within_pending. intros i r w'.
  destruct r as [| o st [v |]]; cbn; repeat (branch; cbn);
    apply Within_settled.
Qed.

Lemma callGeminiAPI_within prompt key w :
  Within 1 (fst (callGeminiAPI prompt key w)).
Proof.
  unfold callGeminiAPI. cbn. apply Within_pending. intros i r w'.
  destruct r as [| [|] st [v |]]; cbn; repeat (branch; cbn);
    apply Within_settled.
Qed.

Lemma collectData_within audience goal channels subs youtube clientId
    clientSecret w :
  Within (1 + (2 * List.length channels + (1 + 1 * List.length subs)))
    (fst (collectData audience goal channels subs youtube clientId
                      clientSecret w)).
Proof.
  unfold collectData. apply complete_within. intros query _.
  apply all3_within.
  - apply searchYouTubeVideos_within.
  - intros w'. apply all_of_within. intros ch w''. unfold channel_videos.
    apply (bind_within 2 0); [apply getChannelVideos_within |].
    intros vs w3. apply Within_settled.
  - intros w'. unfold reddit_branch.
    apply bind_within; [apply getRedditAccessToken_within |].
    intros token w''. destruct (truthy token); [| apply Within_settled].
    apply all_of_within. intros sub w3. unfold subreddit_posts.
    apply (bind_within 1 0); [apply getSubredditPosts_within |].
    intros ps w4. apply Within_settled.
Qed.

Lemma handler_within req env w :
  Within (3 + 2 * List.length (channels_of req)
          + List.length (subreddits_of req))
    (fst (handler req env w)).
Proof.
  destruct (jsstring_eqb (method req) (lit "OPTIONS")) eqn:Ho.
  { unfold handler. rewrite Ho. apply Within_settled. }
  destruct (jsstring_eqb (method req) (lit "POST")) eqn:Hp.
  2:{ unfold handler. rewrite Ho, Hp. apply Within_settled. }
  apply jsstring_eqb_eq in Hp. rewrite handler_POST by exact Hp.
  eapply Within_mono.
  - apply (try_catch_within
             (1 + (2 * List.length (channels_of req)
                   + (1 + 1 * List.length (subreddits_of req))) + (1 + 0)) 0).
    + destruct (negb (valid req)); [apply Within_settled |].
      destruct (configured (YOUTUBE_API_KEY env)) as [youtube |];
        [| apply Within_settled].
      destruct (configured (REDDIT_CLIENT_ID env)) as [clientId |];
        [| apply Within_settled].
      destruct (configured (REDDIT_CLIENT_SECRET env)) as [clientSecret |];
        [| apply Within_settled].
      destruct (configured (GEMINI_API_KEY env)) as [gemini |];
        [| apply Within_settled].
      apply bind_within; [apply collectData_within |].
      intros d w'. apply complete_within. intros prompt _.
      apply bind_within; [apply callGeminiAPI_within |].
      intros t w''. apply Within_settled.
    + intros e w'. apply Within_settled.
  - lia.
Qed.

Lemma Within_run {A} n (p : Promise A) :
  Within n p ->
  forall w events,
    all_answer (p, w) events -> n <= List.length events ->
    exists c, fst (fold_left step events (p, w)) = Settled c.
Proof.
  induction 1 as [n c | n reqs resume _ IH]; intros w events Ha Hn.
  - exists c. clear Ha Hn. revert w.
    induction events as [| e es IHe]; intros w; [reflexivity |].
    cbn [fold_left]. unfold step at 2. cbn [fst]. apply IHe.
  - destruct events as [| e es]; [cbn in Hn; lia |].
    destruct Ha as [Hans Ha]. cbn in Hans. cbn [fold_left].
    revert Ha. unfold step at 1 3. cbn [fst snd].
    apply Nat.ltb_lt in Hans. rewrite Hans. intros Ha.
    specialize (IH (which e) (reply e) (set_clock (at_time e) w)).
    destruct (resume (which e) (reply e) (set_clock (at_time e) w))
      as [p' w'].
    apply (IH w' es Ha). cbn in Hn. lia.
Qed.

(** X15.  The handler answers after a bounded number of completions.  Once
    three calls more than twice the number of channels plus the number of
    subreddits have been completed, in whatever order and with whatever
    replies, the handler has answered, with an answer of its decision
    table. *)
Theorem handler_answers_within_its_budget (req : HttpRequest) (env : Env)
    (w : World) (events : list Event) :
  all_answer (handler req env w) events ->
  3 + 2 * List.length (channels_of req) + List.length (subreddits_of req)
  <= List.length events ->
  exists res,
    fst (run (handler req env) w events) = Settled (Normal res)
    /\ answer_in any_reply req env w res.
Proof.
  intros Ha Hn.
  pose proof (handler_within req env w) as Hw.
  destruct (Starts_run any_reply _ _ _ w events
              (handler_answer any_reply req env w)
              (any_reply_allowed _ events)) as [_ Hset].
  unfold run in *. destruct (handler req env w) as [p w1]; cbn [fst] in Hw.
  destruct (Within_run _ p Hw w1 events Ha Hn) as [c Hc].
  destruct (Hset c Hc) as [res [-> Hres]]. now exists res.
Qed.

Lemma handler_answers_within_its_budget_witness :
  all_answer (handler sample_request sample_env cold) sample_events
  /\ exists res,
       fst (run (handler sample_request sample_env) cold sample_events)
       = Settled (Normal res)
       /\ answer_in any_reply sample_request sample_env cold res.
Proof.
  assert (Ha : all_answer (handler sample_request sample_env cold)
                          sample_events)
    by (vm_compute; repeat split; lia).
  split; [exact Ha |].
  apply (handler_answers_within_its_budget sample_request sample_env cold
           sample_events Ha).
  vm_compute. lia.
Defined.
